(** * Identity-token manager and authentication flow for IAP

    A shallow embedding of [src/prefect/client/iap_auth.py] (the classes
    [IAPTokenManager] and [IAPAuth]) and of the settings it reads from
    [src/prefect/settings/models/api.py], followed by the properties of
    the token cache, of audience resolution and of the per-request
    retry flow.

    Conventions of the embedding.
    - Python objects that reach the manager (JSON documents, tokens,
      the memoized client id) are values of [pyval]; truthiness, [in]
      and subscripting follow Python.
    - Text is a [string] whose characters are code points below 256.
    - Timestamps ([time.time()], [_token_expiry]) are exact numbers of
      seconds in [Z]; rounding of the float clock is not modelled.
    - The collaborators the module calls (clock, ambient credentials,
      secret store, token-exchange endpoint, HTTP transport, [json] and
      [str]) are fields of an environment [Env]; each answers as a
      function of the history of calls made so far, so successive calls
      may answer differently.
    - Methods are computations in a state-and-exception monad over the
      manager's fields and the history. *)

From Stdlib Require Import ZArith List String Ascii Bool Lia Floats.
From stdpp Require Import base option gmap strings.
Import ListNotations.
Local Open Scope Z_scope.
Local Open Scope string_scope.
Local Open Scope list_scope.

(** ** Python values *)

#[warnings="-register-all"]
Inductive pyval : Type :=
| PNone
| PBool (b : bool)
| PInt (z : Z)
| PFloat (f : float)
| PStr (s : string)
| PList (l : list pyval)
| PDict (d : list (string * pyval)).

(** [bool(v)]: [None], [False], zero, and empty text or containers are
    falsy. *)
Definition truthy (v : pyval) : bool :=
  match v with
  | PNone => false
  | PBool b => b
  | PInt z => negb (z =? 0)%Z
  | PFloat f => negb (PrimFloat.eqb f PrimFloat.zero)
  | PStr s => negb (String.eqb s "")
  | PList l => match l with [] => false | _ => true end
  | PDict d => match d with [] => false | _ => true end
  end.

Definition is_None (v : pyval) : bool :=
  match v with PNone => true | _ => false end.

(** [isinstance(v, dict)] *)
Definition isinstance_dict (v : pyval) : bool :=
  match v with PDict _ => true | _ => false end.

Fixpoint dict_get (k : string) (d : list (string * pyval)) : option pyval :=
  match d with
  | [] => None
  | (k', v) :: d' => if String.eqb k k' then Some v else dict_get k d'
  end.

(** [k in v] for a dict [v] (the only use in the source is guarded by
    [isinstance(v, dict)]). *)
Definition py_in (k : string) (v : pyval) : bool :=
  match v with
  | PDict d => match dict_get k d with Some _ => true | None => false end
  | _ => false
  end.

(** Exceptions that can leave the module. *)
Inductive exn : Type :=
| ValueError (msg : string)
| KeyError (key : string)
| TypeError
| JSONDecodeError
| HTTPStatusError (status : Z)
| AttributeError
| StopIterationError
| ExternalError (what : string).

(** [v[k]] with a text key: a dict looks the key up, every other value
    rejects a text index. *)
Definition subscript (v : pyval) (k : string) : exn + pyval :=
  match v with
  | PDict d => match dict_get k d with
               | Some x => inr x
               | None => inl (KeyError k)
               end
  | _ => inl TypeError
  end.

(** [str.isspace] on code points below 256: U+0009..U+000D,
    U+001C..U+0020, U+0085 and U+00A0. *)
Definition isspace (c : ascii) : bool :=
  let n := nat_of_ascii c in
  ((9 <=? n) && (n <=? 13) || (28 <=? n) && (n <=? 32)
   || (n =? 133) || (n =? 160))%nat.

Fixpoint lstrip (s : string) : string :=
  match s with
  | EmptyString => EmptyString
  | String c s' => if isspace c then lstrip s' else s
  end.

Fixpoint rstrip (s : string) : string :=
  match s with
  | EmptyString => EmptyString
  | String c s' =>
      match rstrip s' with
      | EmptyString => if isspace c then EmptyString else String c EmptyString
      | r => String c r
      end
  end.

(** [s.strip()] *)
Definition strip (s : string) : string := rstrip (lstrip s).

(** ** Settings ([prefect/settings/models/api.py]) *)

Record IAPSettings : Type := {
  enabled : bool;
  client_id_gcp_secret_version : option string;
  impersonate_service_account : option string;
  auth_header_name : string;
}.

(** The field defaults of [IAPSettings]. *)
Definition IAPSettings_default : IAPSettings :=
  {| enabled := false;
     client_id_gcp_secret_version := None;
     impersonate_service_account := None;
     auth_header_name := "Authorization" |}.

(** [not x] for an [Optional[str]] setting: unset and empty are both
    falsy. *)
Definition setting_falsy (x : option string) : bool :=
  match x with
  | None => true
  | Some s => String.eqb s ""
  end.

(** ** HTTP messages *)

(** [bytes.lower] on one character: the capitals A to Z are lowered,
    every other character is kept. *)
Definition lower_ascii (c : ascii) : ascii :=
  let n := nat_of_ascii c in
  if ((65 <=? n) && (n <=? 90))%nat then ascii_of_nat (n + 32) else c.

Fixpoint lower (s : string) : string :=
  match s with
  | EmptyString => EmptyString
  | String c s' => String (lower_ascii c) (lower s')
  end.

(** Header names are compared without regard to case. *)
Definition same_name (a b : string) : bool :=
  String.eqb (lower a) (lower b).

(** A request. Its headers are an [httpx.Headers]: the entries in
    order, each with the name as it was written; several entries may
    share a name. *)
Record Request : Type := {
  req_method : string;
  req_url : string;
  req_headers : list (string * string);
}.

Definition other_names (name : string) (hs : list (string * string))
  : list (string * string) :=
  List.filter (fun kv => negb (same_name (fst kv) name)) hs.

(** [Headers.__setitem__]: the first entry of that name, in any case,
    is replaced where it stands and the later ones are removed; a name
    that is not there is appended. *)
Fixpoint headers_setitem (name value : string) (hs : list (string * string))
  : list (string * string) :=
  match hs with
  | [] => [(name, value)]
  | (k, v) :: hs' =>
      if same_name k name
      then (name, value) :: other_names name hs'
      else (k, v) :: headers_setitem name value hs'
  end.

(** [request.headers[name] = value] *)
Definition set_header (name value : string) (r : Request) : Request :=
  {| req_method := req_method r;
     req_url := req_url r;
     req_headers := headers_setitem name value (req_headers r) |}.

(** The values of the entries of that name, in order. *)
Definition header_values (name : string) (hs : list (string * string)) : list string :=
  map snd (List.filter (fun kv => same_name (fst kv) name) hs).

(** The header [name] as the receiver of the request reads it: the
    values of the entries of that name joined by a comma, [None] when
    there is none. *)
Definition get_header (name : string) (r : Request) : option string :=
  match header_values name (req_headers r) with
  | [] => None
  | vs => Some (String.concat ", " vs)
  end.

(** A response: its status and what [response.json()] gives. *)
Record Response : Type := {
  status_code : Z;
  json : exn + pyval;
}.

(** [response.is_success] *)
Definition is_success (r : Response) : bool :=
  ((200 <=? status_code r) && (status_code r <=? 299))%Z.

(** ** History of calls *)

(** A handle on the ambient credentials object. *)
Definition cred : Type := nat.

Inductive event : Type :=
| EvTime                                   (* time.time() *)
| EvAuthDefault                            (* google.auth.default(scopes=...) *)
| EvCredRefresh (c : cred)                 (* credentials.refresh(Request()) *)
| EvSecretAccess (name : string)           (* client.access_secret_version(name=...) *)
| EvPost (url : string) (headers : gmap string string)
         (payload : list (string * pyval)) (* httpx.post(url, headers=, json=) *)
| EvSend (r : Request)                     (* a request handed to the transport *)
| EvGetIdToken (audience : pyval)          (* entry of get_id_token *)
| EvClearCachedToken.                      (* entry of clear_cached_token *)

(** Calls that leave the process. *)
Definition is_remote (e : event) : bool :=
  match e with
  | EvAuthDefault | EvCredRefresh _ | EvSecretAccess _ | EvPost _ _ _
  | EvSend _ => true
  | EvTime | EvGetIdToken _ | EvClearCachedToken => false
  end.

Definition is_issuance (e : event) : bool :=
  match e with EvPost _ _ _ => true | _ => false end.

Definition is_resolution (e : event) : bool :=
  match e with EvSecretAccess _ => true | _ => false end.

Definition is_cred_refresh (e : event) : bool :=
  match e with EvCredRefresh _ => true | _ => false end.

Definition is_dispatch (e : event) : bool :=
  match e with EvSend _ => true | _ => false end.

Definition is_invalidation (e : event) : bool :=
  match e with EvClearCachedToken => true | _ => false end.

Definition is_acquisition (e : event) : bool :=
  match e with EvGetIdToken _ => true | _ => false end.

Definition count (p : event -> bool) (h : list event) : nat :=
  List.length (List.filter p h).

(** ** Environment *)

Record Env : Type := {
  settings : IAPSettings;
  (* Python runtime *)
  json_loads : string -> option pyval;     (* None: JSONDecodeError *)
  builtin_str : pyval -> string;           (* str(v) for v not a str *)
  (* collaborators; the history given includes the call being answered *)
  time_time : list event -> Z;
  google_auth_default : list event -> exn + cred;
  credentials_valid : cred -> list event -> bool;
  credentials_refresh : cred -> list event -> exn + unit;
  credentials_token : cred -> list event -> string;
  access_secret_version : string -> list event -> exn + string;
  httpx_post : string -> gmap string string -> list (string * pyval) ->
               list event -> exn + Response;
  transport : Request -> list event -> exn + Response;
}.

(** The settings objects the module imports, read with [.value()]. *)
Definition PREFECT_API_IAP_AUTH_HEADER_NAME (E : Env) : string :=
  auth_header_name (settings E).

Definition PREFECT_API_IAP_CLIENT_ID_GCP_SECRET_VERSION (E : Env) : option string :=
  client_id_gcp_secret_version (settings E).

Definition PREFECT_API_IAP_IMPERSONATE_SERVICE_ACCOUNT (E : Env) : option string :=
  impersonate_service_account (settings E).

(** [f"{v}"] *)
Definition py_str (E : Env) (v : pyval) : string :=
  match v with
  | PStr s => s
  | _ => builtin_str E v
  end.

(** ** The manager's fields and the monad of its methods *)

Record IAPTokenManager : Type := {
  _cached_token : pyval;
  _token_expiry : Z;
  _credentials : option cred;
  _client_id : pyval;
}.

Record World : Type := {
  self : IAPTokenManager;
  history : list event;
}.

Definition M (A : Type) : Type := World -> (exn + A) * World.

Definition ret {A} (a : A) : M A := fun w => (inr a, w).

Definition bind {A B} (m : M A) (k : A -> M B) : M B :=
  fun w =>
    match m w with
    | (inr a, w') => k a w'
    | (inl e, w') => (inl e, w')
    end.

Definition raise {A} (e : exn) : M A := fun w => (inl e, w).

(** [try: m except JSONDecodeError: pass]; other exceptions pass
    through. *)
Definition try_except_JSONDecodeError {A} (m : M A) : M (option A) :=
  fun w =>
    match m w with
    | (inr a, w') => (inr (Some a), w')
    | (inl JSONDecodeError, w') => (inr None, w')
    | (inl e, w') => (inl e, w')
    end.

Definition lift {A} (r : exn + A) : M A := fun w => (r, w).

Declare Scope monad_scope.
Delimit Scope monad_scope with monad.
Notation "x <- m ;; k" := (bind m (fun x => k))
  (at level 100, m at next level, right associativity) : monad_scope.
Notation "m ;; k" := (bind m (fun _ => k))
  (at level 100, right associativity) : monad_scope.
Local Open Scope monad_scope.

Definition get_self : M IAPTokenManager := fun w => (inr (self w), w).

Definition put_self (s : IAPTokenManager) : M unit :=
  fun w => (inr tt, {| self := s; history := history w |}).

(** Record a call in the history. *)
Definition log (e : event) : M unit :=
  fun w => (inr tt, {| self := self w; history := history w ++ [e] |}).

(** Read a collaborator at the current history. *)
Definition ask {A} (f : list event -> A) : M A :=
  fun w => (inr (f (history w)), w).

(** Make the call [e] and take the collaborator's answer. *)
Definition call {A} (e : event) (f : list event -> exn + A) : M A :=
  log e ;; r <- ask f ;; lift r.

(** ** [IAPTokenManager] *)

(** [__init__]: the fields of a new manager (the two locks are part of
    the concurrent model further down). *)
Definition IAPTokenManager_init : IAPTokenManager :=
  {| _cached_token := PNone;
     _token_expiry := 0;
     _credentials := None;
     _client_id := PNone |}.

Definition set_cached_token (v : pyval) : M unit :=
  s <- get_self ;;
  put_self {| _cached_token := v;
              _token_expiry := _token_expiry s;
              _credentials := _credentials s;
              _client_id := _client_id s |}.

Definition set_token_expiry (t : Z) : M unit :=
  s <- get_self ;;
  put_self {| _cached_token := _cached_token s;
              _token_expiry := t;
              _credentials := _credentials s;
              _client_id := _client_id s |}.

Definition set_credentials (c : option cred) : M unit :=
  s <- get_self ;;
  put_self {| _cached_token := _cached_token s;
              _token_expiry := _token_expiry s;
              _credentials := c;
              _client_id := _client_id s |}.

Definition set_client_id (v : pyval) : M unit :=
  s <- get_self ;;
  put_self {| _cached_token := _cached_token s;
              _token_expiry := _token_expiry s;
              _credentials := _credentials s;
              _client_id := v |}.

Definition msg_secret_version : string :=
  "PREFECT_API_IAP_CLIENT_ID_GCP_SECRET_VERSION must be set to the " +:+
  "full secret version path (e.g., 'projects/PROJECT/secrets/SECRET/versions/VERSION')".

Definition msg_service_account : string :=
  "PREFECT_API_IAP_IMPERSONATE_SERVICE_ACCOUNT must be set to the " +:+
  "email address of the service account to impersonate".

Section Manager.
Variable E : Env.

Definition _get_application_credentials : M cred :=
  s <- get_self ;;
  credentials <-
    match _credentials s with
    | None =>
        c <- call EvAuthDefault (google_auth_default E) ;;
        set_credentials (Some c) ;;
        ret c
    | Some c => ret c
    end ;;
  (* Refresh if needed *)
  valid <- ask (credentials_valid E credentials) ;;
  (if negb valid
   then call (EvCredRefresh credentials) (credentials_refresh E credentials)
   else ret tt) ;;
  ret credentials.

Definition _get_client_id_from_secret : M pyval :=
  s <- get_self ;;
  if truthy (_client_id s) then ret (_client_id s) else
  let secret_version := PREFECT_API_IAP_CLIENT_ID_GCP_SECRET_VERSION E in
  if setting_falsy secret_version then raise (ValueError msg_secret_version) else
  let name := default "" secret_version in
  payload <- call (EvSecretAccess name) (access_secret_version E name) ;;
  let secret_data := strip payload in
  returned <- try_except_JSONDecodeError
    (match json_loads E secret_data with
     | None => raise JSONDecodeError
     | Some secret_json =>
         if isinstance_dict secret_json && py_in "client_id" secret_json then
           v <- lift (subscript secret_json "client_id") ;;
           ret (Some v)
         else if isinstance_dict secret_json && py_in "web" secret_json then
           web <- lift (subscript secret_json "web") ;;
           v <- lift (subscript web "client_id") ;;
           ret (Some v)
         else if isinstance_dict secret_json && py_in "installed" secret_json then
           installed <- lift (subscript secret_json "installed") ;;
           v <- lift (subscript installed "client_id") ;;
           ret (Some v)
         else ret None
     end) ;;
  match returned with
  | Some (Some v) => ret v
  | _ => ret (PStr secret_data)   (* Assume it's just the client ID string *)
  end.

(** The [client_id] property. *)
Definition client_id : M pyval :=
  s <- get_self ;;
  if truthy (_client_id s) then ret (_client_id s) else
  v <- _get_client_id_from_secret ;;
  set_client_id v ;;
  s' <- get_self ;;
  ret (_client_id s').

Definition generateIdToken_url (service_account : string) : string :=
  "https://iamcredentials.googleapis.com/v1/projects/-/serviceAccounts/"
  +:+ service_account +:+ ":generateIdToken".

Definition generateIdToken_headers (access_token : string) : gmap string string :=
  <["Content-Type" := "application/json; charset=utf-8"]>
    (<["Authorization" := "Bearer " +:+ access_token]> ∅).

Definition generateIdToken_payload (audience : pyval) : list (string * pyval) :=
  [("audience", audience); ("includeEmail", PStr "true")].

Definition raise_for_status (r : Response) : M unit :=
  if is_success r then ret tt else raise (HTTPStatusError (status_code r)).

Definition _generate_id_token (audience : pyval) : M (pyval * Z) :=
  let service_account := PREFECT_API_IAP_IMPERSONATE_SERVICE_ACCOUNT E in
  if setting_falsy service_account then raise (ValueError msg_service_account) else
  let service_account := default "" service_account in
  (* Get access token for authentication *)
  credentials <- _get_application_credentials ;;
  access_token <- ask (credentials_token E credentials) ;;
  (* Call the generateIdToken API *)
  let url := generateIdToken_url service_account in
  let headers := generateIdToken_headers access_token in
  let payload := generateIdToken_payload audience in
  response <- call (EvPost url headers payload) (httpx_post E url headers payload) ;;
  raise_for_status response ;;
  token_data <- lift (json response) ;;
  id_token <- lift (subscript token_data "token") ;;
  (* Calculate expiry (ID tokens are valid for 1 hour) *)
  now <- call EvTime (fun h => inr (time_time E h)) ;;
  let expiry_timestamp := now + 3600 in
  ret (id_token, expiry_timestamp).

Definition _is_token_expired : M bool :=
  now <- call EvTime (fun h => inr (time_time E h)) ;;
  s <- get_self ;;
  ret (now >=? _token_expiry s - 300)%Z.   (* 5 minute buffer *)

(** [get_id_token(audience)]; [PNone] is the omitted argument. The
    body runs with [_sync_lock] held. *)
Definition get_id_token (audience : pyval) : M pyval :=
  log (EvGetIdToken audience) ;;
  audience <- (if is_None audience then client_id else ret audience) ;;
  (* Return cached token if still valid *)
  s <- get_self ;;
  hit <- (if truthy (_cached_token s)
          then expired <- _is_token_expired ;; ret (negb expired)
          else ret false) ;;
  if hit then ret (_cached_token s) else
  (* Generate new token *)
  r <- _generate_id_token audience ;;
  set_cached_token (fst r) ;;
  set_token_expiry (snd r) ;;
  s' <- get_self ;;
  ret (_cached_token s').

(** [get_id_token_async]: the same body, run by a pool worker while
    the caller holds [_async_lock]; the scheduling is in the
    concurrent model. *)
Definition get_id_token_async (audience : pyval) : M pyval :=
  get_id_token audience.

Definition clear_cached_token : M unit :=
  log EvClearCachedToken ;;
  set_cached_token PNone ;;
  set_token_expiry 0.

End Manager.

(** ** [IAPAuth] *)

Module IAPAuth.

(** The authenticator's own field; [token_manager] is the process-wide
    manager held in the [World]. *)
Record t : Type := { auth_header_name : string }.

(** [__init__]: [auth_header_name or PREFECT_API_IAP_AUTH_HEADER_NAME.value()] *)
Definition init (E : Env) (name : option string) : t :=
  {| auth_header_name :=
       match name with
       | Some n => if String.eqb n "" then PREFECT_API_IAP_AUTH_HEADER_NAME E else n
       | None => PREFECT_API_IAP_AUTH_HEADER_NAME E
       end |}.

(** Where a flow generator is suspended. *)
Inductive suspended : Type :=
| NotStarted
| AtFirstYield
| AtSecondYield
| Exhausted.

(** A generator object: its suspension point and the request object
    it holds (the same object is mutated and yielded each time). *)
Record generator : Type := {
  at_ : suspended;
  request : Request;
}.

(** What resuming a generator gives: the yielded request, or the end
    of the generator. *)
Inductive resumed : Type :=
| Yield (r : Request)
| StopIteration.

Definition new_generator (request : Request) : generator :=
  {| at_ := NotStarted; request := request |}.

Section Flow.
Variable E : Env.
Variable auth : t.

(** [sync_auth_flow], resumed with [next(g)] ([sent = None]) or
    [g.send(response)]. *)
Definition sync_auth_flow (g : generator) (sent : option Response)
  : M (resumed * generator) :=
  match at_ g with
  | NotStarted =>
      (* Get ID token and add to headers *)
      id_token <- get_id_token E PNone ;;
      let request := set_header (auth_header_name auth)
                       ("Bearer " +:+ py_str E id_token) (request g) in
      (* Send the request *)
      ret (Yield request, {| at_ := AtFirstYield; request := request |})
  | AtFirstYield =>
      match sent with
      | None => raise AttributeError
      | Some response =>
          (* Handle 401 by clearing cached token and retrying *)
          if (status_code response =? 401)%Z then
            clear_cached_token ;;
            (* Get fresh token and retry *)
            fresh_token <- get_id_token E PNone ;;
            let request := set_header (auth_header_name auth)
                             ("Bearer " +:+ py_str E fresh_token) (request g) in
            (* Retry the request *)
            ret (Yield request, {| at_ := AtSecondYield; request := request |})
          else
            ret (StopIteration, {| at_ := Exhausted; request := request g |})
      end
  | AtSecondYield =>
      ret (StopIteration, {| at_ := Exhausted; request := request g |})
  | Exhausted =>
      ret (StopIteration, g)
  end.

(** [async_auth_flow]: the same steps over [get_id_token_async]. *)
Definition async_auth_flow (g : generator) (sent : option Response)
  : M (resumed * generator) :=
  match at_ g with
  | NotStarted =>
      id_token <- get_id_token_async E PNone ;;
      let request := set_header (auth_header_name auth)
                       ("Bearer " +:+ py_str E id_token) (request g) in
      ret (Yield request, {| at_ := AtFirstYield; request := request |})
  | AtFirstYield =>
      match sent with
      | None => raise AttributeError
      | Some response =>
          if (status_code response =? 401)%Z then
            clear_cached_token ;;
            fresh_token <- get_id_token_async E PNone ;;
            let request := set_header (auth_header_name auth)
                             ("Bearer " +:+ py_str E fresh_token) (request g) in
            ret (Yield request, {| at_ := AtSecondYield; request := request |})
          else
            ret (StopIteration, {| at_ := Exhausted; request := request g |})
      end
  | AtSecondYield =>
      ret (StopIteration, {| at_ := Exhausted; request := request g |})
  | Exhausted =>
      ret (StopIteration, g)
  end.

(** The client's side of the protocol (httpx's
    [_send_handling_auth]): start the generator, dispatch what it
    yields, send each response back in, and return the response at
    which the generator ends. [None] is returned when [fuel]
    dispatches did not reach the end. *)
Fixpoint send_loop (flow : generator -> option Response -> M (resumed * generator))
    (fuel : nat) (g : generator) (request : Request) : M (option Response) :=
  match fuel with
  | O => ret None
  | S fuel' =>
      response <- call (EvSend request) (transport E request) ;;
      r <- flow g (Some response) ;;
      match fst r with
      | StopIteration => ret (Some response)
      | Yield next_request => send_loop flow fuel' (snd r) next_request
      end
  end.

Definition send_handling_auth
    (flow : generator -> option Response -> M (resumed * generator))
    (fuel : nat) (request : Request) : M (option Response) :=
  r <- flow (new_generator request) None ;;
  match fst r with
  | StopIteration => raise StopIterationError
  | Yield request => send_loop flow fuel (snd r) request
  end.

End Flow.

End IAPAuth.

(** Events added to the history between two worlds. *)
Definition since (w w' : World) : list event :=
  skipn (List.length (history w)) (history w').

(** ** Concurrent callers

    Calls made at the same time against the one manager. Every access
    to the manager's fields is made inside [with self._sync_lock]; in
    this first model a call's body acts on the shared [World] in one
    step, taken while the call holds that lock. The second model,
    further down, cuts the bodies at their statements and shows that
    the first loses nothing by this. A blocking call runs on its caller's thread;
    a cooperative call first takes [_async_lock] on the event loop and
    then has a pool worker run [get_id_token]. Each call in progress
    has a thread of its own, named by the call's index. *)

Inductive method : Type :=
| call_get_id_token (audience : pyval)
| call_get_id_token_async (audience : pyval)
| call_clear_cached_token.

Inductive progress : Type :=
| Pending                       (* not begun *)
| HasAsyncLock                  (* inside async with self._async_lock, job given to the executor *)
| InBody                        (* inside with self._sync_lock *)
| BodyDone (r : exn + pyval)    (* the worker has returned, the await has not resumed *)
| Returned (r : exn + pyval).

Record caller : Type := {
  meth : method;
  pc : progress;
}.

Record Shared : Type := {
  world : World;
  sync_lock : option (nat * nat);   (* threading.RLock: owning thread and depth *)
  async_lock : option nat;          (* asyncio.Lock: holder *)
  callers : list caller;
}.

(** [RLock.acquire] by thread [i]: granted when free or already owned
    by [i]; [None] when the thread has to wait. *)
Definition rlock_acquire (i : nat) (l : option (nat * nat)) : option (option (nat * nat)) :=
  match l with
  | None => Some (Some (i, 1%nat))
  | Some (o, n) => if Nat.eqb o i then Some (Some (o, S n)) else None
  end.

(** [RLock.release] by its owner. *)
Definition rlock_release (l : option (nat * nat)) : option (nat * nat) :=
  match l with
  | Some (o, S (S n)) => Some (o, S n)
  | _ => None
  end.

(** The code a call runs while it holds [_sync_lock]. *)
Definition body (E : Env) (m : method) : M pyval :=
  match m with
  | call_get_id_token a => get_id_token E a
  | call_get_id_token_async a => get_id_token E a
  | call_clear_cached_token => clear_cached_token ;; ret PNone
  end.

Definition is_async (m : method) : bool :=
  match m with call_get_id_token_async _ => true | _ => false end.

Definition set_pc (p : progress) (c : caller) : caller :=
  {| meth := meth c; pc := p |}.

Inductive step (E : Env) : Shared -> Shared -> Prop :=
| step_enter i c l s :
    callers s !! i = Some c ->
    is_async (meth c) = false ->
    pc c = Pending ->
    rlock_acquire i (sync_lock s) = Some l ->
    step E s {| world := world s; sync_lock := l; async_lock := async_lock s;
                callers := <[i := set_pc InBody c]> (callers s) |}
| step_async_acquire i c s :
    callers s !! i = Some c ->
    is_async (meth c) = true ->
    pc c = Pending ->
    async_lock s = None ->
    step E s {| world := world s; sync_lock := sync_lock s; async_lock := Some i;
                callers := <[i := set_pc HasAsyncLock c]> (callers s) |}
| step_worker_enter i c l s :
    callers s !! i = Some c ->
    pc c = HasAsyncLock ->
    rlock_acquire i (sync_lock s) = Some l ->
    step E s {| world := world s; sync_lock := l; async_lock := async_lock s;
                callers := <[i := set_pc InBody c]> (callers s) |}
| step_body i c r w' s :
    callers s !! i = Some c ->
    pc c = InBody ->
    body E (meth c) (world s) = (r, w') ->
    step E s {| world := w'; sync_lock := rlock_release (sync_lock s);
                async_lock := async_lock s;
                callers := <[i := set_pc (if is_async (meth c) then BodyDone r
                                          else Returned r) c]> (callers s) |}
| step_async_release i c r s :
    callers s !! i = Some c ->
    pc c = BodyDone r ->
    step E s {| world := world s; sync_lock := sync_lock s; async_lock := None;
                callers := <[i := set_pc (Returned r) c]> (callers s) |}.

Inductive steps (E : Env) : Shared -> Shared -> Prop :=
| steps_refl s : steps E s s
| steps_step s1 s2 s3 : steps E s1 s2 -> step E s2 s3 -> steps E s1 s3.

(** The calls [ms] about to be made on a manager in world [w]. *)
Definition start (w : World) (ms : list method) : Shared :=
  {| world := w; sync_lock := None; async_lock := None;
     callers := map (fun m => {| meth := m; pc := Pending |}) ms |}.

Definition in_body (c : caller) : bool :=
  match pc c with InBody => true | _ => false end.

Definition result_of (c : caller) : option (exn + pyval) :=
  match pc c with
  | BodyDone r | Returned r => Some r
  | _ => None
  end.

(** The next step of call [i], when it can take one: [None] when the
    call does not exist, has returned, or has to wait for a lock. *)
Definition exec (E : Env) (i : nat) (s : Shared) : option Shared :=
  match callers s !! i with
  | None => None
  | Some c =>
      match pc c with
      | Pending =>
          if is_async (meth c) then
            match async_lock s with
            | None =>
                Some {| world := world s; sync_lock := sync_lock s;
                        async_lock := Some i;
                        callers := <[i := set_pc HasAsyncLock c]> (callers s) |}
            | Some _ => None
            end
          else
            match rlock_acquire i (sync_lock s) with
            | Some l =>
                Some {| world := world s; sync_lock := l;
                        async_lock := async_lock s;
                        callers := <[i := set_pc InBody c]> (callers s) |}
            | None => None
            end
      | HasAsyncLock =>
          match rlock_acquire i (sync_lock s) with
          | Some l =>
              Some {| world := world s; sync_lock := l;
                      async_lock := async_lock s;
                      callers := <[i := set_pc InBody c]> (callers s) |}
          | None => None
          end
      | InBody =>
          Some {| world := snd (body E (meth c) (world s));
                  sync_lock := rlock_release (sync_lock s);
                  async_lock := async_lock s;
                  callers := <[i := set_pc (if is_async (meth c)
                                            then BodyDone (fst (body E (meth c) (world s)))
                                            else Returned (fst (body E (meth c) (world s))))
                                      c]> (callers s) |}
      | BodyDone r =>
          Some {| world := world s; sync_lock := sync_lock s; async_lock := None;
                  callers := <[i := set_pc (Returned r) c]> (callers s) |}
      | Returned _ => None
      end
  end.

(** The calls scheduled in the order [sched]; a call that cannot move
    when its turn comes keeps waiting and the turn passes. *)
Fixpoint exec_schedule (E : Env) (sched : list nat) (s : Shared) : Shared :=
  match sched with
  | [] => s
  | i :: sched' =>
      match exec E i s with
      | Some s' => exec_schedule E sched' s'
      | None => exec_schedule E sched' s
      end
  end.

(** Every call in body position owns [_sync_lock] at depth one, and
    the lock is owned only by a call in body position. *)
Definition lock_invariant (s : Shared) : Prop :=
  (forall i c, callers s !! i = Some c -> pc c = InBody ->
               sync_lock s = Some (i, 1%nat)) /\
  (forall i n, sync_lock s = Some (i, n) ->
               exists c, callers s !! i = Some c /\ pc c = InBody).

Definition is_get (m : method) : bool :=
  match m with call_clear_cached_token => false | _ => true end.

(** ** A JSON decoder to run examples with

    The theorems below hold for whatever [json_loads] the environment
    has. To evaluate the methods on payload text, [Json.loads] decodes
    JSON documents made of objects, arrays, text without [\u] escapes,
    integers and the literals; it answers [None] on anything else. *)

Module Json.

Definition dquote : ascii := "034"%char.
Definition backslash : ascii := "092"%char.

Definition is_ws (c : ascii) : bool :=
  let n := nat_of_ascii c in
  ((n =? 32) || (n =? 9) || (n =? 10) || (n =? 13))%nat.

Definition is_digit (c : ascii) : bool :=
  let n := nat_of_ascii c in ((48 <=? n) && (n <=? 57))%nat.

Definition digit_value (c : ascii) : Z := Z.of_nat (nat_of_ascii c) - 48.

Fixpoint skip_ws (s : string) : string :=
  match s with
  | String c r => if is_ws c then skip_ws r else s
  | EmptyString => EmptyString
  end.

Definition unescape (c : ascii) : option ascii :=
  if Ascii.eqb c dquote then Some dquote
  else if Ascii.eqb c backslash then Some backslash
  else if Ascii.eqb c "/" then Some "/"%char
  else if Ascii.eqb c "b" then Some "008"%char
  else if Ascii.eqb c "f" then Some "012"%char
  else if Ascii.eqb c "n" then Some "010"%char
  else if Ascii.eqb c "r" then Some "013"%char
  else if Ascii.eqb c "t" then Some "009"%char
  else None.

(** The text after an opening quote, up to the closing one. *)
Fixpoint string_body (s : string) : option (string * string) :=
  match s with
  | EmptyString => None
  | String c r =>
      if Ascii.eqb c dquote then Some (EmptyString, r)
      else if Ascii.eqb c backslash then
        match r with
        | String e r' =>
            match unescape e, string_body r' with
            | Some c', Some (t, rest) => Some (String c' t, rest)
            | _, _ => None
            end
        | EmptyString => None
        end
      else if (nat_of_ascii c <? 32)%nat then None
      else
        match string_body r with
        | Some (t, rest) => Some (String c t, rest)
        | None => None
        end
  end.

Fixpoint digits (s : string) (acc : Z) : Z * string :=
  match s with
  | String c r => if is_digit c then digits r (10 * acc + digit_value c) else (acc, s)
  | EmptyString => (acc, s)
  end.

(** [0] or a digit string without a leading zero; fractions and
    exponents are outside the fragment. *)
Definition integer (s : string) : option (Z * string) :=
  match s with
  | String c r =>
      if is_digit c then
        let '(n, rest) := if Ascii.eqb c "0" then (0, r) else digits s 0 in
        match rest with
        | String d _ =>
            if Ascii.eqb d "." || Ascii.eqb d "e" || Ascii.eqb d "E"
            then None else Some (n, rest)
        | EmptyString => Some (n, rest)
        end
      else None
  | EmptyString => None
  end.

(** [s] with the prefix [p] removed. *)
Fixpoint strip_prefix (p s : string) : option string :=
  match p, s with
  | EmptyString, _ => Some s
  | String a p', String b s' => if Ascii.eqb a b then strip_prefix p' s' else None
  | _, _ => None
  end.

(** [d[k] = v] on a dict. *)
Fixpoint dict_set (k : string) (v : pyval) (d : list (string * pyval))
  : list (string * pyval) :=
  match d with
  | [] => [(k, v)]
  | (k', v') :: d' =>
      if String.eqb k k' then (k, v) :: d' else (k', v') :: dict_set k v d'
  end.

Fixpoint value (fuel : nat) (s : string) {struct fuel} : option (pyval * string) :=
  match fuel with
  | O => None
  | S n =>
      match s with
      | EmptyString => None
      | String c r =>
          if Ascii.eqb c dquote then
            match string_body r with
            | Some (t, rest) => Some (PStr t, rest)
            | None => None
            end
          else if Ascii.eqb c "{" then
            match skip_ws r with
            | String "}" rest => Some (PDict [], rest)
            | r' => members n r' []
            end
          else if Ascii.eqb c "[" then
            match skip_ws r with
            | String "]" rest => Some (PList [], rest)
            | r' => elements n r' []
            end
          else if Ascii.eqb c "-" then
            match integer r with
            | Some (z, rest) => Some (PInt (- z), rest)
            | None => None
            end
          else if is_digit c then
            match integer s with
            | Some (z, rest) => Some (PInt z, rest)
            | None => None
            end
          else
            match strip_prefix "true" s, strip_prefix "false" s, strip_prefix "null" s with
            | Some rest, _, _ => Some (PBool true, rest)
            | _, Some rest, _ => Some (PBool false, rest)
            | _, _, Some rest => Some (PNone, rest)
            | _, _, _ => None
            end
      end
  end
with members (fuel : nat) (s : string) (acc : list (string * pyval)) {struct fuel}
  : option (pyval * string) :=
  match fuel with
  | O => None
  | S n =>
      match s with
      | String c r =>
          if Ascii.eqb c dquote then
            match string_body r with
            | Some (k, rest) =>
                match skip_ws rest with
                | String ":" rest' =>
                    match value n (skip_ws rest') with
                    | Some (v, rest'') =>
                        match skip_ws rest'' with
                        | String "}" out => Some (PDict (dict_set k v acc), out)
                        | String "," more => members n (skip_ws more) (dict_set k v acc)
                        | _ => None
                        end
                    | None => None
                    end
                | _ => None
                end
            | None => None
            end
          else None
      | EmptyString => None
      end
  end
with elements (fuel : nat) (s : string) (acc : list pyval) {struct fuel}
  : option (pyval * string) :=
  match fuel with
  | O => None
  | S n =>
      match value n s with
      | Some (v, rest) =>
          match skip_ws rest with
          | String "]" out => Some (PList (acc ++ [v]), out)
          | String "," more => elements n (skip_ws more) (acc ++ [v])
          | _ => None
          end
      | None => None
      end
  end.

(** [json.loads(s)] on the fragment: one value, with white space
    allowed around it and nothing else after it. *)
Definition loads (s : string) : option pyval :=
  match value (2 * String.length s + 2) (skip_ws s) with
  | Some (v, rest) =>
      match skip_ws rest with
      | EmptyString => Some v
      | _ => None
      end
  | None => None
  end.

End Json.

(** [s] between double quotes. *)
Definition quoted (s : string) : string :=
  String Json.dquote s +:+ String Json.dquote EmptyString.

(** ** Environments to run examples in *)

(** The [n]-th token of the example issuer. *)
Definition example_token (n : nat) : pyval :=
  PStr ("token-" +:+ String.concat "" (repeat "i" n)).

(** A successful reply of the token-exchange endpoint. *)
Definition token_reply (tok : pyval) : Response :=
  {| status_code := 200; json := inr (PDict [("token", tok)]) |}.

Definition example_settings : IAPSettings :=
  {| enabled := true;
     client_id_gcp_secret_version := Some "projects/p/secrets/iap/versions/1";
     impersonate_service_account := Some "caller@p.iam.gserviceaccount.com";
     auth_header_name := "Authorization" |}.

(** An environment with the given settings, clock, secret payload,
    token-exchange endpoint and protected service; the ambient
    credentials are always valid. *)
Definition example_env (cfg : IAPSettings) (clock : list event -> Z)
    (secret : list event -> exn + string)
    (post : list event -> exn + Response)
    (service : list event -> exn + Response) : Env :=
  {| settings := cfg;
     json_loads := Json.loads;
     builtin_str := fun _ => "";
     time_time := clock;
     google_auth_default := fun _ => inr 0%nat;
     credentials_valid := fun _ _ => true;
     credentials_refresh := fun _ _ => inr tt;
     credentials_token := fun _ _ => "access";
     access_secret_version := fun _ => secret;
     httpx_post := fun _ _ _ => post;
     transport := fun _ => service |}.

(** The issuer that answers its [n+1]-th call with [example_token n]. *)
Definition counting_issuer (h : list event) : exn + Response :=
  inr (token_reply (example_token (count is_issuance h - 1))).

Definition reply (status : Z) : Response :=
  {| status_code := status; json := inr PNone |}.

(** The standard example: working settings, a clock stopped at 1000,
    a secret holding a bare client id, the counting issuer, and a
    service that accepts every request. *)
Definition env0 : Env :=
  example_env example_settings (fun _ => 1000) (fun _ => inr "client-1")
    counting_issuer (fun _ => inr (reply 200)).

Definition world0 : World :=
  {| self := IAPTokenManager_init; history := [] |}.

Definition empty_request : Request :=
  {| req_method := "GET"; req_url := "https://api.example/flows"; req_headers := [] |}.

(** [env0] with the token-exchange endpoint unreachable. *)
Definition env_outage : Env :=
  example_env example_settings (fun _ => 1000) (fun _ => inr "client-1")
    (fun _ => inl (ExternalError "connect")) (fun _ => inr (reply 200)).

(** [env0] with the impersonation setting left unset. *)
Definition settings_without_service_account : IAPSettings :=
  {| enabled := true;
     client_id_gcp_secret_version := Some "projects/p/secrets/iap/versions/1";
     impersonate_service_account := None;
     auth_header_name := "Authorization" |}.

Definition env_no_service_account : Env :=
  example_env settings_without_service_account (fun _ => 1000)
    (fun _ => inr "client-1") counting_issuer (fun _ => inr (reply 200)).

(** [env0] with an endpoint whose reply also carries an expiry. *)
Definition env_reply_with_expiry : Env :=
  example_env example_settings (fun _ => 1000) (fun _ => inr "client-1")
    (fun _ => inr {| status_code := 200;
                     json := inr (PDict [("token", PStr "t");
                                         ("expireTime", PInt 99)]) |})
    (fun _ => inr (reply 200)).

(** An endpoint that is down for its first call and up afterwards. *)
Definition env_recovering : Env :=
  example_env example_settings (fun _ => 1000) (fun _ => inr "client-1")
    (fun h => if (count is_issuance h <=? 1)%nat
              then inl (ExternalError "connect") else counting_issuer h)
    (fun _ => inr (reply 200)).

(** [env0] with the secret holding [payload]. *)
Definition env_secret (payload : string) : Env :=
  example_env example_settings (fun _ => 1000) (fun _ => inr payload)
    counting_issuer (fun _ => inr (reply 200)).

(** The JSON text of an object with the one member [k : v], [v] given
    as JSON text. *)
Definition json_object1 (k v : string) : string :=
  "{" +:+ quoted k +:+ ": " +:+ v +:+ "}".

Definition payload_client_id : string := json_object1 "client_id" (quoted "abc").
Definition payload_web : string :=
  json_object1 "web" (json_object1 "client_id" (quoted "xyz")).
Definition payload_installed : string :=
  json_object1 "installed" (json_object1 "client_id" (quoted "desk")).
Definition payload_padded : string :=
  " raw-id" +:+ String "010"%char EmptyString.

(** Successive calls on one manager. *)
Inductive operation : Type :=
| op_get_id_token (audience : pyval)
| op_clear_cached_token.

Definition run_operation (E : Env) (op : operation) (w : World) : World :=
  match op with
  | op_get_id_token audience => snd (get_id_token E audience w)
  | op_clear_cached_token => snd (clear_cached_token w)
  end.

Fixpoint run_operations (E : Env) (ops : list operation) (w : World) : World :=
  match ops with
  | [] => w
  | op :: ops' => run_operations E ops' (run_operation E op w)
  end.

(** ** Vocabulary of the statements *)

(** The world after one more call is recorded. *)
Definition logged (w : World) (e : event) : World :=
  {| self := self w; history := history w ++ [e] |}.

Definition is_cred_event (e : event) : bool :=
  match e with EvAuthDefault | EvCredRefresh _ => true | _ => false end.

(** The cached token and its expiry are the same in both worlds. *)
Definition same_cache (w w' : World) : Prop :=
  _cached_token (self w') = _cached_token (self w) /\
  _token_expiry (self w') = _token_expiry (self w).

(** The arguments of the token-exchange call of a refresh made for
    [audience] with the credentials [c], at history [h]. *)
Definition issuance_call (E : Env) (audience : pyval) (c : cred) (h : list event) : event :=
  EvPost (generateIdToken_url
            (default "" (PREFECT_API_IAP_IMPERSONATE_SERVICE_ACCOUNT E)))
         (generateIdToken_headers (credentials_token E c h))
         (generateIdToken_payload audience).

(** The answer of the token-exchange endpoint to that call. *)
Definition issuance_answer (E : Env) (audience : pyval) (c : cred) (h : list event)
  : exn + Response :=
  httpx_post E
    (generateIdToken_url (default "" (PREFECT_API_IAP_IMPERSONATE_SERVICE_ACCOUNT E)))
    (generateIdToken_headers (credentials_token E c h))
    (generateIdToken_payload audience)
    (h ++ [issuance_call E audience c h]).

(** The token a reply carries: [response.json()["token"]] after
    [raise_for_status]. *)
Definition token_of (resp : Response) : exn + pyval :=
  if is_success resp then
    match json resp with
    | inl e => inl e
    | inr token_data => subscript token_data "token"
    end
  else inl (HTTPStatusError (status_code resp)).

(** The client id a secret payload stands for: the parsing steps of
    [_get_client_id_from_secret] on their own. *)
Definition client_id_of_payload (E : Env) (payload : string) : exn + pyval :=
  let secret_data := strip payload in
  match json_loads E secret_data with
  | None => inr (PStr secret_data)
  | Some secret_json =>
      if isinstance_dict secret_json && py_in "client_id" secret_json then
        subscript secret_json "client_id"
      else if isinstance_dict secret_json && py_in "web" secret_json then
        match subscript secret_json "web" with
        | inl e => inl e
        | inr web => subscript web "client_id"
        end
      else if isinstance_dict secret_json && py_in "installed" secret_json then
        match subscript secret_json "installed" with
        | inl e => inl e
        | inr installed => subscript installed "client_id"
        end
      else inr (PStr secret_data)
  end.

(** The secret-store lookup of a resolution started at history [h]. *)
Definition resolution_call (E : Env) : event :=
  EvSecretAccess (default "" (PREFECT_API_IAP_CLIENT_ID_GCP_SECRET_VERSION E)).

Definition resolution_answer (E : Env) (h : list event) : exn + string :=
  access_secret_version E
    (default "" (PREFECT_API_IAP_CLIENT_ID_GCP_SECRET_VERSION E))
    (h ++ [resolution_call E]).

Definition with_client_id (v : pyval) (w : World) : World :=
  {| self := {| _cached_token := _cached_token (self w);
                _token_expiry := _token_expiry (self w);
                _credentials := _credentials (self w);
                _client_id := v |};
     history := history w |}.

Definition with_cache (tok : pyval) (expiry : Z) (w : World) : World :=
  {| self := {| _cached_token := tok;
                _token_expiry := expiry;
                _credentials := _credentials (self w);
                _client_id := _client_id (self w) |};
     history := history w |}.

(** The cache test of [get_id_token] when the clock reads [now]. *)
Definition cache_hit (now : Z) (s : IAPTokenManager) : bool :=
  truthy (_cached_token s) && negb (now >=? _token_expiry s - 300)%Z.

(** The three phases of [get_id_token] after its entry is recorded:
    settling the audience, the cache test, and the refresh. *)
Definition settle_audience (E : Env) (audience : pyval) (w : World)
  : (exn + pyval) * World :=
  if is_None audience then client_id E w else (inr audience, w).

Definition refresh (E : Env) (audience : pyval) (w : World)
  : (exn + pyval) * World :=
  match _generate_id_token E audience w with
  | (inl e, w') => (inl e, w')
  | (inr r, w') => (inr (fst r), with_cache (fst r) (snd r) w')
  end.

Definition cached_or_refresh (E : Env) (audience : pyval) (w : World)
  : (exn + pyval) * World :=
  if truthy (_cached_token (self w)) then
    let wt := logged w EvTime in
    if cache_hit (time_time E (history wt)) (self w)
    then (inr (_cached_token (self w)), wt)
    else refresh E audience wt
  else refresh E audience w.

(** The world in which a refresh starts when the cache test made in
    [w] fails: the clock has been read only if a token was there. *)
Definition after_cache_test (w : World) : World :=
  if truthy (_cached_token (self w)) then logged w EvTime else w.

(** The cache test made in [w] fails. *)
Definition cache_miss (E : Env) (w : World) : Prop :=
  truthy (_cached_token (self w)) = false \/
  cache_hit (time_time E (history w ++ [EvTime])) (self w) = false.

(** [_get_application_credentials] once the handle [c] is there. *)
Definition validate (E : Env) (c : cred) (w : World) : (exn + cred) * World :=
  if credentials_valid E c (history w) then (inr c, w)
  else
    match credentials_refresh E c (history w ++ [EvCredRefresh c]) with
    | inl e => (inl e, logged w (EvCredRefresh c))
    | inr _ => (inr c, logged w (EvCredRefresh c))
    end.

Definition with_credentials (c : cred) (w : World) : World :=
  {| self := {| _cached_token := _cached_token (self w);
                _token_expiry := _token_expiry (self w);
                _credentials := Some c;
                _client_id := _client_id (self w) |};
     history := history w |}.

(** Calls the manager makes on its collaborators while it serves a
    token: everything but dispatches and the entries of methods. *)
Definition is_collaborator_call (e : event) : bool :=
  match e with
  | EvTime | EvAuthDefault | EvCredRefresh _ | EvSecretAccess _ | EvPost _ _ _ => true
  | EvSend _ | EvGetIdToken _ | EvClearCachedToken => false
  end.

(** The request with the bearer header set from [tok]. *)
Definition with_bearer (E : Env) (auth : IAPAuth.t) (tok : pyval) (r : Request) : Request :=
  set_header (IAPAuth.auth_header_name auth) ("Bearer " +:+ py_str E tok) r.

(** A service that rejects every request. *)
Definition env_rejecting : Env :=
  example_env example_settings (fun _ => 1000) (fun _ => inr "client-1")
    counting_issuer (fun _ => inr (reply 401)).

(** A rejecting service, with an issuer that serves one token only. *)
Definition env_rejecting_one_token : Env :=
  example_env example_settings (fun _ => 1000) (fun _ => inr "client-1")
    (fun h => if (count is_issuance h <=? 1)%nat
              then counting_issuer h else inl (ExternalError "connect"))
    (fun _ => inr (reply 401)).

(** An environment in which every refresh goes through, with a clock
    that stays within 3300 seconds of [t0]. *)
Definition healthy (E : Env) (t0 : Z) : Prop :=
  setting_falsy (PREFECT_API_IAP_IMPERSONATE_SERVICE_ACCOUNT E) = false /\
  (forall a w, exists aud w1, settle_audience E a w = (inr aud, w1)) /\
  (forall w, exists c w1, _get_application_credentials E w = (inr c, w1)) /\
  (forall aud c h, exists resp tok,
      issuance_answer E aud c h = inr resp /\ token_of resp = inr tok /\
      truthy tok = true) /\
  (forall h, t0 <= time_time E h < t0 + 3300).

(** Three calls made at once on a new manager, two blocking and one
    cooperative, and an order in which they are given turns. *)
Definition three_calls : list method :=
  [call_get_id_token PNone; call_get_id_token_async PNone; call_get_id_token PNone].

Definition three_turns : list nat :=
  [1; 0; 2; 1; 0; 2; 1; 2; 1; 1; 1]%nat.

(** ** Construction of the manager

    [IAPTokenManager()] runs [__new__] and then [__init__]. The class
    attribute [_instance] is empty or holds the one object; the object
    has no attribute until [__init__] has run on it. *)

Module Singleton.

Inductive object : Type :=
| Bare                                   (* created, no attribute set *)
| Initialized (fields : IAPTokenManager).

(** [__new__]: the object in [_instance], created on first use. *)
Definition __new__ (_instance : option object) : option object * object :=
  match _instance with
  | None => (Some Bare, Bare)
  | Some o => (_instance, o)
  end.

(** [__init__]: returns at once when [_initialized] is there. *)
Definition __init__ (o : object) : object :=
  match o with
  | Initialized fields => o
  | Bare => Initialized IAPTokenManager_init
  end.

(** [IAPTokenManager()]: the class attribute afterwards (the object
    it holds is the one returned). *)
Definition construct (_instance : option object) : option object :=
  let '(_, o) := __new__ _instance in Some (__init__ o).

Fixpoint construct_times (n : nat) (_instance : option object) : option object :=
  match n with
  | O => _instance
  | S k => construct_times k (construct _instance)
  end.

End Singleton.

(** Calls on the ambient credentials. *)
Definition is_auth_default (e : event) : bool :=
  match e with EvAuthDefault => true | _ => false end.

(** A cooperative call that holds [_async_lock]. *)
Definition in_async_section (c : caller) : bool :=
  match pc c with
  | HasAsyncLock | BodyDone _ => true
  | InBody => is_async (meth c)
  | Pending | Returned _ => false
  end.

(** [_async_lock] is held exactly by the cooperative call inside
    [async with], and only cooperative calls are ever there. *)
Definition async_invariant (s : Shared) : Prop :=
  (forall i c, callers s !! i = Some c -> in_async_section c = true ->
               async_lock s = Some i /\ is_async (meth c) = true) /\
  (forall i, async_lock s = Some i ->
             exists c, callers s !! i = Some c /\ in_async_section c = true).

(** Steps a call still has to take before it has returned. *)
Definition stages_left (c : caller) : nat :=
  match pc c with
  | Pending => if is_async (meth c) then 4 else 2
  | HasAsyncLock => 3
  | InBody => if is_async (meth c) then 2 else 1
  | BodyDone _ => 1
  | Returned _ => 0
  end.

Definition work_left (s : Shared) : nat :=
  list_sum (map stages_left (callers s)).

(** An environment with the settings at their defaults. *)
Definition env_defaults : Env :=
  example_env IAPSettings_default (fun _ => 1000) (fun _ => inr "client-1")
    counting_issuer (fun _ => inr (reply 200)).

(** [env0] with the secret version path unset. *)
Definition settings_without_secret_version : IAPSettings :=
  {| enabled := true;
     client_id_gcp_secret_version := None;
     impersonate_service_account := Some "caller@p.iam.gserviceaccount.com";
     auth_header_name := "Authorization" |}.

Definition env_no_secret_version : Env :=
  example_env settings_without_secret_version (fun _ => 1000)
    (fun _ => inr "client-1") counting_issuer (fun _ => inr (reply 200)).

(** [env0] with credentials that are never valid and cannot be
    refreshed. *)
Definition env_stale_credentials : Env :=
  {| settings := example_settings;
     json_loads := Json.loads;
     builtin_str := fun _ => "";
     time_time := fun _ => 1000;
     google_auth_default := fun _ => inr 7%nat;
     credentials_valid := fun _ _ => false;
     credentials_refresh := fun _ _ => inl (ExternalError "refresh");
     credentials_token := fun _ _ => "access";
     access_secret_version := fun _ _ => inr "client-1";
     httpx_post := fun _ _ _ => counting_issuer;
     transport := fun _ _ => inr (reply 200) |}.

(** [env0] with an endpoint whose reply has no [token] member. *)
Definition env_reply_without_token : Env :=
  example_env example_settings (fun _ => 1000) (fun _ => inr "client-1")
    (fun _ => inr {| status_code := 200;
                     json := inr (PDict [("error", PStr "none")]) |})
    (fun _ => inr (reply 200)).

(** [env0] with a clock that advances one second per recorded call. *)
Definition env_ticking : Env :=
  example_env example_settings (fun h => Z.of_nat (length h))
    (fun _ => inr "client-1") counting_issuer (fun _ => inr (reply 200)).

(** An operation that does not need the memoized client id: a token
    request with its audience supplied, or an invalidation. *)
Definition supplies_audience (op : operation) : bool :=
  match op with
  | op_get_id_token audience => negb (is_None audience)
  | op_clear_cached_token => true
  end.

(** ** Calls that can be interrupted

    The concurrent model above lets a call run its body in one step.
    Here a body is cut into steps: a thread that is inside
    [with self._sync_lock] runs one step at a time and the threads may
    be switched between any two steps, so that what keeps the calls
    apart is the lock and nothing else. The model is given for every
    way of cutting the bodies into steps; [body_task] is the cut at the
    statements of the source. *)

(** What is left of a body: it has returned [v], or it has a statement
    to run, which raises or leaves the rest. *)
#[warnings="-register-all"]
Inductive task : Type :=
| Done (v : pyval)
| Next (k : M task).

(** A task run to its end without interruption. *)
Fixpoint run (t : task) (w : World) {struct t} : (exn + pyval) * World :=
  match t with
  | Done v => (inr v, w)
  | Next k =>
      match k w with
      | (inr t', w') => run t' w'
      | (inl e, w') => (inl e, w')
      end
  end.

(** The statements of [get_id_token], last first. *)

(** [return self._cached_token] *)
Definition return_cached_token : task :=
  Next (s' <- get_self ;; ret (Done (_cached_token s'))).

(** the second store of [self._cached_token, self._token_expiry = ...] *)
Definition store_token_expiry (expiry : Z) : task :=
  Next (set_token_expiry expiry ;; ret return_cached_token).

(** the first store of that assignment *)
Definition store_and_return (r : pyval * Z) : task :=
  Next (set_cached_token (fst r) ;; ret (store_token_expiry (snd r))).

(** the right-hand side [self._generate_id_token(audience)] *)
Definition refresh_task (E : Env) (audience : pyval) : task :=
  Next (r <- _generate_id_token E audience ;; ret (store_and_return r)).

(** [if self._cached_token and not self._is_token_expired(): return self._cached_token] *)
Definition cache_test_task (E : Env) (audience : pyval) : task :=
  Next (s <- get_self ;;
        hit <- (if truthy (_cached_token s)
                then expired <- _is_token_expired E ;; ret (negb expired)
                else ret false) ;;
        ret (if hit then Done (_cached_token s) else refresh_task E audience)).

(** [if audience is None: audience = self.client_id] *)
Definition get_id_token_task (E : Env) (audience : pyval) : task :=
  Next (log (EvGetIdToken audience) ;;
        audience <- (if is_None audience then client_id E else ret audience) ;;
        ret (cache_test_task E audience)).

(** The statements of [clear_cached_token]. *)

(** [self._token_expiry = 0] *)
Definition clear_token_expiry : task :=
  Next (set_token_expiry 0 ;; ret (Done PNone)).

(** [self._cached_token = None] *)
Definition clear_cached_token_task : task :=
  Next (log EvClearCachedToken ;; set_cached_token PNone ;; ret clear_token_expiry).

(** The body of a call, statement by statement. *)
Definition body_task (E : Env) (m : method) : task :=
  match m with
  | call_get_id_token a => get_id_token_task E a
  | call_get_id_token_async a => get_id_token_task E a
  | call_clear_cached_token => clear_cached_token_task
  end.

(** [cut] is a way of cutting the bodies into steps: run without
    interruption, the steps of a body do what the body does. *)
Definition cuts_bodies (E : Env) (cut : method -> task) : Prop :=
  forall m w, run (cut m) w = body E m w.

Module Threads.

Inductive progress : Type :=
| Pending                       (* not begun *)
| HasAsyncLock                  (* inside async with self._async_lock, job given to the executor *)
| InBody (rest : task)          (* inside with self._sync_lock, with [rest] still to run *)
| BodyDone (r : exn + pyval)    (* the worker has returned, the await has not resumed *)
| Returned (r : exn + pyval).

Record caller : Type := {
  meth : method;
  pc : progress;
}.

Record Shared : Type := {
  world : World;
  sync_lock : option (nat * nat);
  async_lock : option nat;
  callers : list caller;
}.

Definition set_pc (p : progress) (c : caller) : caller :=
  {| meth := meth c; pc := p |}.

(** Where a call stands when its body has ended with [r]. *)
Definition ended (m : method) (r : exn + pyval) : progress :=
  if is_async m then BodyDone r else Returned r.

Section Cut.
Variable cut : method -> task.

(** One step of one thread. A thread inside the body runs its next
    step on the manager as it finds it; the lock is consulted where
    the code consults it, on entering [with], and released on leaving
    it, by [return] or by an exception. *)
Inductive step : Shared -> Shared -> Prop :=
| step_enter i c l s :
    callers s !! i = Some c ->
    is_async (meth c) = false ->
    pc c = Pending ->
    rlock_acquire i (sync_lock s) = Some l ->
    step s {| world := world s; sync_lock := l; async_lock := async_lock s;
                callers := <[i := set_pc (InBody (cut (meth c))) c]> (callers s) |}
| step_async_acquire i c s :
    callers s !! i = Some c ->
    is_async (meth c) = true ->
    pc c = Pending ->
    async_lock s = None ->
    step s {| world := world s; sync_lock := sync_lock s; async_lock := Some i;
                callers := <[i := set_pc HasAsyncLock c]> (callers s) |}
| step_worker_enter i c l s :
    callers s !! i = Some c ->
    pc c = HasAsyncLock ->
    rlock_acquire i (sync_lock s) = Some l ->
    step s {| world := world s; sync_lock := l; async_lock := async_lock s;
                callers := <[i := set_pc (InBody (cut (meth c))) c]> (callers s) |}
| step_statement i c k t' w' s :
    callers s !! i = Some c ->
    pc c = InBody (Next k) ->
    k (world s) = (inr t', w') ->
    step s {| world := w'; sync_lock := sync_lock s; async_lock := async_lock s;
                callers := <[i := set_pc (InBody t') c]> (callers s) |}
| step_raise i c k e w' s :
    callers s !! i = Some c ->
    pc c = InBody (Next k) ->
    k (world s) = (inl e, w') ->
    step s {| world := w'; sync_lock := rlock_release (sync_lock s);
                async_lock := async_lock s;
                callers := <[i := set_pc (ended (meth c) (inl e)) c]> (callers s) |}
| step_leave i c v s :
    callers s !! i = Some c ->
    pc c = InBody (Done v) ->
    step s {| world := world s; sync_lock := rlock_release (sync_lock s);
                async_lock := async_lock s;
                callers := <[i := set_pc (ended (meth c) (inr v)) c]> (callers s) |}
| step_async_release i c r s :
    callers s !! i = Some c ->
    pc c = BodyDone r ->
    step s {| world := world s; sync_lock := sync_lock s; async_lock := None;
                callers := <[i := set_pc (Returned r) c]> (callers s) |}.

Inductive steps : Shared -> Shared -> Prop :=
| steps_refl s : steps s s
| steps_step s1 s2 s3 : steps s1 s2 -> step s2 s3 -> steps s1 s3.

Definition start (w : World) (ms : list method) : Shared :=
  {| world := w; sync_lock := None; async_lock := None;
     callers := map (fun m => {| meth := m; pc := Pending |}) ms |}.

Definition result_of (c : caller) : option (exn + pyval) :=
  match pc c with
  | BodyDone r | Returned r => Some r
  | _ => None
  end.

Definition in_body (c : caller) : bool :=
  match pc c with InBody _ => true | _ => false end.

(** The next step of thread [i], when it can take one. *)
Definition exec (i : nat) (s : Shared) : option Shared :=
  match callers s !! i with
  | None => None
  | Some c =>
      match pc c with
      | Pending =>
          if is_async (meth c) then
            match async_lock s with
            | None =>
                Some {| world := world s; sync_lock := sync_lock s;
                        async_lock := Some i;
                        callers := <[i := set_pc HasAsyncLock c]> (callers s) |}
            | Some _ => None
            end
          else
            match rlock_acquire i (sync_lock s) with
            | Some l =>
                Some {| world := world s; sync_lock := l;
                        async_lock := async_lock s;
                        callers := <[i := set_pc (InBody (cut (meth c))) c]>
                                     (callers s) |}
            | None => None
            end
      | HasAsyncLock =>
          match rlock_acquire i (sync_lock s) with
          | Some l =>
              Some {| world := world s; sync_lock := l;
                      async_lock := async_lock s;
                      callers := <[i := set_pc (InBody (cut (meth c))) c]>
                                   (callers s) |}
          | None => None
          end
      | InBody (Next k) =>
          match k (world s) with
          | (inr t', w') =>
              Some {| world := w'; sync_lock := sync_lock s;
                      async_lock := async_lock s;
                      callers := <[i := set_pc (InBody t') c]> (callers s) |}
          | (inl e, w') =>
              Some {| world := w'; sync_lock := rlock_release (sync_lock s);
                      async_lock := async_lock s;
                      callers := <[i := set_pc (ended (meth c) (inl e)) c]> (callers s) |}
          end
      | InBody (Done v) =>
          Some {| world := world s; sync_lock := rlock_release (sync_lock s);
                  async_lock := async_lock s;
                  callers := <[i := set_pc (ended (meth c) (inr v)) c]> (callers s) |}
      | BodyDone r =>
          Some {| world := world s; sync_lock := sync_lock s; async_lock := None;
                  callers := <[i := set_pc (Returned r) c]> (callers s) |}
      | Returned _ => None
      end
  end.

(** The threads given turns in the order [sched]; a thread that cannot
    move when its turn comes keeps waiting and the turn passes. *)
Fixpoint exec_schedule (sched : list nat) (s : Shared) : Shared :=
  match sched with
  | [] => s
  | i :: sched' =>
      match exec i s with
      | Some s' => exec_schedule sched' s'
      | None => exec_schedule sched' s
      end
  end.

End Cut.

End Threads.

(** What the first model sees of a state of the second: a call that
    is part-way through its body counts as not having run it. *)
Definition erase_pc (p : Threads.progress) : progress :=
  match p with
  | Threads.Pending => Pending
  | Threads.HasAsyncLock => HasAsyncLock
  | Threads.InBody _ => InBody
  | Threads.BodyDone r => BodyDone r
  | Threads.Returned r => Returned r
  end.

Definition erase_caller (c : Threads.caller) : caller :=
  {| meth := Threads.meth c; pc := erase_pc (Threads.pc c) |}.

(** [s] stands for [f]: same locks, same calls at the same places, and
    the manager of [s] is the one that the call inside, if there is
    one, found on entering: run to its end from where it is, that call
    gives what its whole body gives on the manager of [s]. *)
Definition abstracts (E : Env) (f : Threads.Shared) (s : Shared) : Prop :=
  sync_lock s = Threads.sync_lock f /\
  async_lock s = Threads.async_lock f /\
  callers s = map erase_caller (Threads.callers f) /\
  (forall i c t, Threads.callers f !! i = Some c -> Threads.pc c = Threads.InBody t ->
     run t (Threads.world f) = body E (Threads.meth c) (world s)) /\
  ((forall i c, Threads.callers f !! i = Some c -> Threads.in_body c = false) ->
   Threads.world f = world s).

(** The calls [order] of [ms] run one after another, each to its end,
    from [w]: the manager they leave. *)
Fixpoint run_in_order (E : Env) (ms : list method) (order : list nat) (w : World) : World :=
  match order with
  | [] => w
  | i :: rest =>
      match ms !! i with
      | Some m => run_in_order E ms rest (snd (body E m w))
      | None => run_in_order E ms rest w
      end
  end.

(** The manager that the call at place [k] of [order] finds. *)
Definition world_before (E : Env) (ms : list method) (order : list nat) (k : nat)
    (w : World) : World :=
  run_in_order E ms (take k order) w.

Definition audience_of (m : method) : option pyval :=
  match m with
  | call_get_id_token a | call_get_id_token_async a => Some a
  | call_clear_cached_token => None
  end.

(** No token that the calls of a healthy environment could reuse. *)
Definition unusable (t0 : Z) (s : IAPTokenManager) : Prop :=
  truthy (_cached_token s) = false \/ _token_expiry s - 300 <= t0.

(** The calls that have run their bodies did so one after another in
    the order [order]: each returned what its body returns on the
    manager its predecessors left, and the manager is as the last of
    them left it. *)
Definition serial (E : Env) (w : World) (ms : list method) (s : Shared)
    (order : list nat) : Prop :=
  NoDup order /\
  (forall i c, callers s !! i = Some c ->
     ms !! i = Some (meth c) /\ (i ∈ order <-> result_of c <> None)) /\
  (forall k i, order !! k = Some i ->
     exists c, callers s !! i = Some c /\
               result_of c
               = Some (fst (body E (meth c) (world_before E ms order k w)))) /\
  world s = run_in_order E ms order w.

(** Turns given to three threads in rotation. *)
Definition thirty_rounds : list nat :=
  List.concat (repeat [0; 1; 2]%nat 30).

(** A manager whose cached token has run out. *)
Definition world_stale : World :=
  {| self := {| _cached_token := PStr "old-token";
                _token_expiry := 900;
                _credentials := None;
                _client_id := PNone |};
     history := [] |}.

(** A state that the calls cannot reach: two token requests inside the
    body together, on a new manager. *)
Definition two_inside : Threads.Shared :=
  {| Threads.world := world0;
     Threads.sync_lock := None;
     Threads.async_lock := None;
     Threads.callers :=
       [ {| Threads.meth := call_get_id_token PNone;
            Threads.pc := Threads.InBody (get_id_token_task env0 PNone) |};
         {| Threads.meth := call_get_id_token PNone;
            Threads.pc := Threads.InBody (get_id_token_task env0 PNone) |} ] |}.

(** * Properties *)

(** ** Proof steps shared by the methods *)

Ltac unfold_monad :=
  cbv beta iota zeta delta [call log ask lift get_self put_self
    try_except_JSONDecodeError set_cached_token set_token_expiry
    set_credentials set_client_id bind ret raise logged with_client_id with_cache with_credentials
    self history _cached_token _token_expiry _credentials _client_id fst snd].

Ltac destruct_inner x :=
  lazymatch x with
  | context [match ?y with _ => _ end] => destruct_inner y
  | _ => destruct x eqn:?
  end.

Ltac destruct_pairs :=
  repeat match goal with p : (_ * _)%type |- _ => destruct p end.

Ltac case_step :=
  match goal with
  | |- context [match ?x with _ => _ end] => destruct_inner x
  end; unfold_monad.

Lemma since_app (w w' : World) (d : list event) :
  history w' = history w ++ d -> since w w' = d.
Proof.
  intros H. unfold since. rewrite H.
  rewrite skipn_app, skipn_all, Nat.sub_diag. reflexivity.
Qed.

Lemma count_app (p : event -> bool) (a b : list event) :
  count p (a ++ b) = (count p a + count p b)%nat.
Proof. unfold count. rewrite List.filter_app, List.length_app. reflexivity. Qed.

Lemma forallb_app_true (p : event -> bool) (a b : list event) :
  forallb p a = true -> forallb p b = true -> forallb p (a ++ b) = true.
Proof. intros Ha Hb. rewrite forallb_app, Ha, Hb. reflexivity. Qed.

Lemma forallb_weaken (p q : event -> bool) (d : list event) :
  (forall e, p e = true -> q e = true) ->
  forallb p d = true -> forallb q d = true.
Proof.
  intros Hpq. induction d as [|e d IH]; simpl; [reflexivity|].
  intros H. apply andb_prop in H as [He Hd]. rewrite (Hpq e He), (IH Hd). reflexivity.
Qed.

Lemma count_cons (p : event -> bool) (e : event) (d : list event) :
  count p (e :: d) = ((if p e then 1 else 0) + count p d)%nat.
Proof. unfold count. simpl. destruct (p e); reflexivity. Qed.

Lemma count_nil (p : event -> bool) : count p [] = 0%nat.
Proof. reflexivity. Qed.

Lemma count_zero (p q : event -> bool) (d : list event) :
  (forall e, q e = true -> p e = false) ->
  forallb q d = true -> count p d = 0%nat.
Proof.
  intros Hpq. unfold count. induction d as [|e d IH]; simpl; [reflexivity|].
  intros H. apply andb_prop in H as [He Hd].
  rewrite (Hpq e He). auto.
Qed.

Lemma local_not_resolution (e : event) : negb (is_remote e) = true -> is_resolution e = false.
Proof. destruct e; simpl; intros H; congruence. Qed.

Lemma local_not_issuance (e : event) : negb (is_remote e) = true -> is_issuance e = false.
Proof. destruct e; simpl; intros H; congruence. Qed.

Lemma local_not_remote (e : event) : negb (is_remote e) = true -> is_remote e = false.
Proof. destruct (is_remote e); simpl; intros H; congruence. Qed.

(** ** The methods, written out on worlds *)

Lemma _get_application_credentials_frame (E : Env) (w : World) :
  let w' := snd (_get_application_credentials E w) in
  same_cache w w' /\ _client_id (self w') = _client_id (self w) /\
  exists d, history w' = history w ++ d /\ forallb is_cred_event d = true.
Proof.
  destruct w as [[tok ex cr cid] h].
  unfold _get_application_credentials, same_cache. unfold_monad.
  repeat case_step; repeat split; try reflexivity.
  all: eexists; split;
    [ rewrite <- ?app_assoc; try reflexivity; symmetry; apply app_nil_r
    | reflexivity ].
Qed.

Lemma _generate_id_token_unfold (E : Env) (audience : pyval) (w : World) :
  _generate_id_token E audience w =
  if setting_falsy (PREFECT_API_IAP_IMPERSONATE_SERVICE_ACCOUNT E)
  then (inl (ValueError msg_service_account), w)
  else
    match _get_application_credentials E w with
    | (inl e, w1) => (inl e, w1)
    | (inr c, w1) =>
        let wp := logged w1 (issuance_call E audience c (history w1)) in
        match issuance_answer E audience c (history w1) with
        | inl e => (inl e, wp)
        | inr resp =>
            match token_of resp with
            | inl e => (inl e, wp)
            | inr id_token =>
                (inr (id_token, time_time E (history wp ++ [EvTime]) + 3600),
                 logged wp EvTime)
            end
        end
    end.
Proof.
  unfold _generate_id_token, issuance_answer, issuance_call, token_of, raise_for_status.
  destruct (setting_falsy _); [reflexivity|].
  unfold bind at 1.
  destruct (_get_application_credentials E w) as [[e|c] w1]; [reflexivity|].
  unfold_monad.
  repeat case_step; reflexivity.
Qed.

Lemma subscript_not_decode_error (v : pyval) (k : string) :
  subscript v k <> inl JSONDecodeError.
Proof.
  destruct v; simpl; try discriminate.
  destruct (dict_get k d); discriminate.
Qed.

Lemma _get_client_id_from_secret_unfold (E : Env) (w : World) :
  _get_client_id_from_secret E w =
  if truthy (_client_id (self w)) then (inr (_client_id (self w)), w)
  else if setting_falsy (PREFECT_API_IAP_CLIENT_ID_GCP_SECRET_VERSION E)
  then (inl (ValueError msg_secret_version), w)
  else
    let wl := logged w (resolution_call E) in
    match resolution_answer E (history w) with
    | inl e => (inl e, wl)
    | inr payload => (client_id_of_payload E payload, wl)
    end.
Proof.
  unfold _get_client_id_from_secret, resolution_answer, resolution_call,
    client_id_of_payload.
  unfold_monad.
  destruct (truthy _); [reflexivity|].
  destruct (setting_falsy _); [reflexivity|].
  destruct (access_secret_version _ _ _) as [e|payload]; [reflexivity|].
  destruct (json_loads E (strip payload)) as [secret_json|]; [|reflexivity].
  destruct (isinstance_dict secret_json && py_in "client_id" secret_json).
  { pose proof (subscript_not_decode_error secret_json "client_id") as Hn.
    destruct (subscript secret_json "client_id") as [[]|v]; congruence. }
  destruct (isinstance_dict secret_json && py_in "web" secret_json).
  { pose proof (subscript_not_decode_error secret_json "web") as Hn.
    destruct (subscript secret_json "web") as [[]|web]; try congruence.
    pose proof (subscript_not_decode_error web "client_id") as Hn'.
    destruct (subscript web "client_id") as [[]|v]; congruence. }
  destruct (isinstance_dict secret_json && py_in "installed" secret_json).
  { pose proof (subscript_not_decode_error secret_json "installed") as Hn.
    destruct (subscript secret_json "installed") as [[]|inst]; try congruence.
    pose proof (subscript_not_decode_error inst "client_id") as Hn'.
    destruct (subscript inst "client_id") as [[]|v]; congruence. }
  reflexivity.
Qed.

Lemma client_id_unfold (E : Env) (w : World) :
  client_id E w =
  if truthy (_client_id (self w)) then (inr (_client_id (self w)), w)
  else
    match _get_client_id_from_secret E w with
    | (inl e, w1) => (inl e, w1)
    | (inr v, w1) => (inr v, with_client_id v w1)
    end.
Proof.
  unfold client_id. unfold_monad.
  destruct (truthy _); [reflexivity|].
  destruct (_get_client_id_from_secret E w) as [[e|v] w1]; reflexivity.
Qed.

Lemma get_id_token_unfold (E : Env) (audience : pyval) (w : World) :
  get_id_token E audience w =
  let w0 := logged w (EvGetIdToken audience) in
  match (if is_None audience then client_id E w0 else (inr audience, w0)) with
  | (inl e, w1) => (inl e, w1)
  | (inr aud, w1) =>
      if truthy (_cached_token (self w1)) then
        let wt := logged w1 EvTime in
        if cache_hit (time_time E (history wt)) (self w1)
        then (inr (_cached_token (self w1)), wt)
        else
          match _generate_id_token E aud wt with
          | (inl e, w2) => (inl e, w2)
          | (inr r, w2) => (inr (fst r), with_cache (fst r) (snd r) w2)
          end
      else
        match _generate_id_token E aud w1 with
        | (inl e, w2) => (inl e, w2)
        | (inr r, w2) => (inr (fst r), with_cache (fst r) (snd r) w2)
        end
  end.
Proof.
  unfold get_id_token, _is_token_expired, cache_hit.
  unfold bind at 1. unfold log at 1. cbv beta iota.
  unfold bind at 1.
  change {| self := self w; history := history w ++ [EvGetIdToken audience] |}
    with (logged w (EvGetIdToken audience)).
  set (w0 := logged w (EvGetIdToken audience)). cbv zeta.
  destruct (is_None audience).
  - destruct (client_id E w0) as [[e|aud] w1]; [reflexivity|].
    unfold_monad.
    destruct (truthy _) eqn:Ht.
    + cbn [andb negb]. destruct (_ >=? _)%Z; cbn [andb negb].
      * destruct (_generate_id_token _ _ _) as [[e|r] w2]; destruct_pairs; reflexivity.
      * reflexivity.
    + destruct (_generate_id_token _ _ _) as [[e|r] w2]; destruct_pairs; reflexivity.
  - unfold_monad.
    destruct (truthy _) eqn:Ht.
    + cbn [andb negb]. destruct (_ >=? _)%Z; cbn [andb negb].
      * destruct (_generate_id_token _ _ _) as [[e|r] w2]; destruct_pairs; reflexivity.
      * reflexivity.
    + destruct (_generate_id_token _ _ _) as [[e|r] w2]; destruct_pairs; reflexivity.
Qed.

(** ** What each method may touch *)

Lemma _get_client_id_from_secret_frame (E : Env) (w : World) :
  let w' := snd (_get_client_id_from_secret E w) in
  self w' = self w /\
  exists d, history w' = history w ++ d /\ forallb is_resolution d = true /\
            (length d <= 1)%nat.
Proof.
  rewrite _get_client_id_from_secret_unfold.
  destruct (truthy _); [|destruct (setting_falsy _)];
    try (simpl; split; [reflexivity|exists []; rewrite app_nil_r; auto]).
  cbv zeta.
  destruct (resolution_answer E (history w)); simpl;
    (split; [reflexivity|eexists; split; [reflexivity|split; [reflexivity|simpl; lia]]]).
Qed.

Lemma client_id_frame (E : Env) (w : World) :
  let w' := snd (client_id E w) in
  same_cache w w' /\ _credentials (self w') = _credentials (self w) /\
  exists d, history w' = history w ++ d /\ forallb is_resolution d = true /\
            (length d <= 1)%nat.
Proof.
  rewrite client_id_unfold.
  destruct (truthy _).
  { simpl. repeat split. exists []. rewrite app_nil_r. auto. }
  pose proof (_get_client_id_from_secret_frame E w) as Hf. cbv zeta in Hf.
  destruct (_get_client_id_from_secret E w) as [[e|v] w1];
    simpl in *; destruct Hf as [Hs Hd]; unfold same_cache; simpl; rewrite Hs; auto.
Qed.

Lemma _generate_id_token_frame (E : Env) (audience : pyval) (w : World) :
  let r := fst (_generate_id_token E audience w) in
  let w' := snd (_generate_id_token E audience w) in
  same_cache w w' /\ _client_id (self w') = _client_id (self w) /\
  exists d, history w' = history w ++ d /\
            count is_resolution d = 0%nat /\
            (count is_issuance d <= 1)%nat /\
            (forall v, r = inr v -> count is_issuance d = 1%nat) /\
            (setting_falsy (PREFECT_API_IAP_IMPERSONATE_SERVICE_ACCOUNT E) = true ->
             d = [] /\ r = inl (ValueError msg_service_account)).
Proof.
  rewrite _generate_id_token_unfold.
  destruct (setting_falsy _) eqn:Hs.
  { simpl. repeat split. exists []. rewrite app_nil_r. repeat split; auto.
    intros v Hv; discriminate. }
  pose proof (_get_application_credentials_frame E w) as Hf. cbv zeta in Hf.
  destruct (_get_application_credentials E w) as [[e|c] w1]; simpl in Hf.
  { simpl. destruct Hf as (Hc & Hid & d & Hd & Hall). repeat split; try apply Hc; auto.
    exists d. split; [exact Hd|].
    rewrite (count_zero is_resolution is_cred_event d), (count_zero is_issuance is_cred_event d);
      try (intros []; simpl; congruence); auto.
    repeat split; try lia; intros; discriminate. }
  destruct Hf as (Hc & Hid & d & Hd & Hall).
  assert (Hr : count is_resolution d = 0%nat)
    by (apply (count_zero _ is_cred_event); auto; intros []; simpl; congruence).
  assert (Hi : count is_issuance d = 0%nat)
    by (apply (count_zero _ is_cred_event); auto; intros []; simpl; congruence).
  cbv zeta.
  destruct (issuance_answer E audience c (history w1)) as [e|resp];
    [|destruct (token_of resp) as [e|tok]]; simpl; unfold logged; simpl;
    (split; [exact Hc|split; [exact Hid|]]); rewrite Hd, <- ?app_assoc;
    (eexists; split; [reflexivity|]); rewrite !count_app, Hr, Hi;
    repeat split; simpl; try lia; try (intros; discriminate); auto.
Qed.

(** ** Invalidation *)

(** C9. [clear_cached_token] always succeeds and leaves the cache in
    the empty state of a new manager (no token, expiry 0); a second
    call changes no field; it makes no remote call and no issuance
    call, and leaves the memoized client id and the credential handle
    as they were. *)
Theorem clear_cached_token_clears_and_is_idempotent (w : World) :
  let w1 := snd (clear_cached_token w) in
  let w2 := snd (clear_cached_token w1) in
  fst (clear_cached_token w) = inr tt /\
  _cached_token (self w1) = _cached_token IAPTokenManager_init /\
  _token_expiry (self w1) = _token_expiry IAPTokenManager_init /\
  self w2 = self w1 /\
  history w1 = history w ++ [EvClearCachedToken] /\
  count is_remote (since w w1) = 0%nat /\
  count is_issuance (since w w1) = 0%nat /\
  _client_id (self w1) = _client_id (self w) /\
  _credentials (self w1) = _credentials (self w).
Proof.
  destruct w as [[tok ex cr cid] h].
  unfold clear_cached_token. unfold_monad. cbv zeta.
  assert (Hs : since {| self := {| _cached_token := tok; _token_expiry := ex;
                                   _credentials := cr; _client_id := cid |};
                        history := h |}
                 {| self := {| _cached_token := PNone; _token_expiry := 0;
                               _credentials := cr; _client_id := cid |};
                    history := h ++ [EvClearCachedToken] |}
               = [EvClearCachedToken])
    by (apply since_app; reflexivity).
  rewrite Hs. repeat split.
Qed.

(** ** Cache hits *)

Lemma get_id_token_hit (E : Env) (audience : pyval) (w : World) :
  is_None audience = false \/ truthy (_client_id (self w)) = true ->
  cache_hit (time_time E (history w ++ [EvGetIdToken audience; EvTime])) (self w) = true ->
  get_id_token E audience w =
  (inr (_cached_token (self w)),
   {| self := self w; history := history w ++ [EvGetIdToken audience; EvTime] |}).
Proof.
  intros Ha Hhit. rewrite get_id_token_unfold. cbv zeta.
  assert (Hstep : (if is_None audience
                   then client_id E (logged w (EvGetIdToken audience))
                   else (inr audience, logged w (EvGetIdToken audience)))
                  = (inr (if is_None audience then _client_id (self w) else audience),
                     logged w (EvGetIdToken audience))).
  { destruct (is_None audience) eqn:Hn; [|reflexivity].
    destruct Ha as [Ha|Ha]; [discriminate|].
    rewrite client_id_unfold. simpl. rewrite Ha. reflexivity. }
  rewrite Hstep. simpl self. simpl history.
  rewrite <- app_assoc. simpl app.
  pose proof Hhit as Hhit'. unfold cache_hit in Hhit'.
  apply andb_prop in Hhit' as [Ht _]. rewrite Ht, Hhit.
  unfold logged. simpl. rewrite <- app_assoc. reflexivity.
Qed.

(** C10. With an audience supplied and a cached token that exists (is
    truthy, the test the code makes) and is not expired (the clock read
    by the call is before the expiry less 300 seconds), the cached
    token is returned whatever the supplied audience is: the outcome
    does not mention the audience, the manager's fields are untouched
    and nothing but the clock is consulted. *)
Theorem get_id_token_hit_ignores_audience (E : Env) (audience : pyval) (w : World) :
  is_None audience = false ->
  cache_hit (time_time E (history w ++ [EvGetIdToken audience; EvTime])) (self w) = true ->
  let w' := snd (get_id_token E audience w) in
  fst (get_id_token E audience w) = inr (_cached_token (self w)) /\
  self w' = self w /\
  count is_remote (since w w') = 0%nat /\
  count is_issuance (since w w') = 0%nat.
Proof.
  intros Ha Hhit. rewrite (get_id_token_hit E audience w (or_introl Ha) Hhit).
  cbv zeta. simpl fst. simpl snd.
  rewrite (since_app w _ [EvGetIdToken audience; EvTime]) by reflexivity.
  repeat split.
Qed.

(** A token issued for one audience is served to a call that names
    another: in [env0], after a call for [aud-A] a call for [aud-B]
    gets the same token. *)
Lemma get_id_token_hit_ignores_audience_witness :
  let w := snd (get_id_token env0 (PStr "aud-A") world0) in
  let w' := snd (get_id_token env0 (PStr "aud-B") w) in
  fst (get_id_token env0 (PStr "aud-A") world0) = inr (example_token 0) /\
  (fst (get_id_token env0 (PStr "aud-B") w) = inr (_cached_token (self w)) /\
   self w' = self w /\
   count is_remote (since w w') = 0%nat /\
   count is_issuance (since w w') = 0%nat).
Proof.
  split; [vm_compute; reflexivity|].
  apply (get_id_token_hit_ignores_audience env0 (PStr "aud-B")
           (snd (get_id_token env0 (PStr "aud-A") world0)));
    vm_compute; reflexivity.
Defined.


(** ** The phases of [get_id_token] *)

Lemma get_id_token_phases (E : Env) (audience : pyval) (w : World) :
  get_id_token E audience w =
  match settle_audience E audience (logged w (EvGetIdToken audience)) with
  | (inl e, w1) => (inl e, w1)
  | (inr aud, w1) => cached_or_refresh E aud w1
  end.
Proof. rewrite get_id_token_unfold. reflexivity. Qed.

Lemma _get_application_credentials_unfold (E : Env) (w : World) :
  _get_application_credentials E w =
  match _credentials (self w) with
  | Some c => validate E c w
  | None =>
      match google_auth_default E (history w ++ [EvAuthDefault]) with
      | inl e => (inl e, logged w EvAuthDefault)
      | inr c => validate E c (with_credentials c (logged w EvAuthDefault))
      end
  end.
Proof.
  destruct w as [[tok ex cr cid] h].
  unfold _get_application_credentials, validate. unfold_monad.
  repeat case_step; try reflexivity; cbn [negb] in *; discriminate.
Qed.

Lemma settle_audience_frame (E : Env) (audience : pyval) (w : World) :
  let r := fst (settle_audience E audience w) in
  let w' := snd (settle_audience E audience w) in
  same_cache w w' /\ _credentials (self w') = _credentials (self w) /\
  (exists d, history w' = history w ++ d /\ forallb is_resolution d = true /\
             (length d <= 1)%nat) /\
  (is_None audience = false \/ truthy (_client_id (self w)) = true ->
   w' = w /\ r = inr (if is_None audience then _client_id (self w) else audience)).
Proof.
  unfold settle_audience. destruct (is_None audience) eqn:Hn.
  - pose proof (client_id_frame E w) as Hf. cbv zeta in *.
    destruct Hf as (Hc & Hcr & Hd).
    split; [exact Hc|]. split; [exact Hcr|]. split; [exact Hd|].
    intros [Ha|Ha]; [discriminate|]. rewrite client_id_unfold, Ha. split; reflexivity.
  - simpl. split; [split; reflexivity|]. split; [reflexivity|].
    split; [|intros _; split; reflexivity].
    exists []. rewrite app_nil_r. auto.
Qed.

Lemma refresh_frame (E : Env) (audience : pyval) (w : World) :
  let r := fst (refresh E audience w) in
  let w' := snd (refresh E audience w) in
  _client_id (self w') = _client_id (self w) /\
  (exists d, history w' = history w ++ d /\
             count is_resolution d = 0%nat /\
             (count is_issuance d <= 1)%nat /\
             (forall tok, r = inr tok -> count is_issuance d = 1%nat) /\
             (setting_falsy (PREFECT_API_IAP_IMPERSONATE_SERVICE_ACCOUNT E) = true ->
              d = [] /\ r = inl (ValueError msg_service_account))) /\
  (forall e, r = inl e -> same_cache w w') /\
  (forall tok, r = inr tok -> _cached_token (self w') = tok).
Proof.
  unfold refresh.
  pose proof (_generate_id_token_frame E audience w) as Hf. cbv zeta in Hf.
  destruct (_generate_id_token E audience w) as [[e|[tok ex]] w1]; simpl in *;
    destruct Hf as (Hc & Hid & d & Hd & Hr & Hi & Hok & Hcfg).
  - split; [exact Hid|]. split; [|split; [intros _ _; exact Hc|intros; discriminate]].
    exists d. split; [exact Hd|]. split; [exact Hr|]. split; [exact Hi|].
    split; [intros; discriminate|].
    intros Hs. destruct (Hcfg Hs) as [Hnil Hval]. split; [exact Hnil|congruence].
  - split; [exact Hid|]. split; [|split; [intros; discriminate|intros t Ht; congruence]].
    exists d. split; [exact Hd|]. split; [exact Hr|]. split; [exact Hi|].
    split; [intros t Ht; eapply Hok; reflexivity|].
    intros Hs. destruct (Hcfg Hs) as [_ Habs]. discriminate.
Qed.

Lemma refresh_cases (E : Env) (audience : pyval) (w : World) :
  refresh E audience w =
  if setting_falsy (PREFECT_API_IAP_IMPERSONATE_SERVICE_ACCOUNT E)
  then (inl (ValueError msg_service_account), w)
  else
    match _get_application_credentials E w with
    | (inl e, w1) => (inl e, w1)
    | (inr c, w1) =>
        let wp := logged w1 (issuance_call E audience c (history w1)) in
        match issuance_answer E audience c (history w1) with
        | inl e => (inl e, wp)
        | inr resp =>
            match token_of resp with
            | inl e => (inl e, wp)
            | inr tok =>
                (inr tok,
                 with_cache tok (time_time E (history wp ++ [EvTime]) + 3600)
                   (logged wp EvTime))
            end
        end
    end.
Proof.
  unfold refresh. rewrite _generate_id_token_unfold.
  destruct (setting_falsy _); [reflexivity|].
  destruct (_get_application_credentials E w) as [[e|c] w1]; [reflexivity|].
  cbv zeta.
  destruct (issuance_answer E audience c (history w1)) as [e|resp]; [reflexivity|].
  destruct (token_of resp); reflexivity.
Qed.

Lemma cached_or_refresh_hit (E : Env) (audience : pyval) (w : World) :
  cache_hit (time_time E (history w ++ [EvTime])) (self w) = true ->
  cached_or_refresh E audience w = (inr (_cached_token (self w)), logged w EvTime).
Proof.
  intros H. unfold cached_or_refresh. cbv zeta.
  pose proof H as H'. unfold cache_hit in H'. apply andb_prop in H' as [Ht _].
  rewrite Ht. unfold logged at 1. simpl history. rewrite H. reflexivity.
Qed.

Lemma cached_or_refresh_miss (E : Env) (audience : pyval) (w : World) :
  cache_hit (time_time E (history w ++ [EvTime])) (self w) = false ->
  cached_or_refresh E audience w = refresh E audience (after_cache_test w).
Proof.
  intros H. unfold cached_or_refresh, after_cache_test. cbv zeta.
  destruct (truthy _); [|reflexivity].
  unfold logged at 1. simpl history. rewrite H. reflexivity.
Qed.

Lemma after_cache_test_frame (w : World) :
  self (after_cache_test w) = self w /\
  exists d, history (after_cache_test w) = history w ++ d /\
            forallb (fun e => negb (is_remote e)) d = true.
Proof.
  unfold after_cache_test. destruct (truthy _); simpl.
  - split; [reflexivity|]. exists [EvTime]. auto.
  - split; [reflexivity|]. exists []. rewrite app_nil_r. auto.
Qed.

(** What a successful refresh leaves behind. *)
Lemma refresh_success (E : Env) (audience : pyval) (w : World) (tok : pyval) (w' : World) :
  refresh E audience w = (inr tok, w') ->
  exists c w1 resp,
    _get_application_credentials E w = (inr c, w1) /\
    issuance_answer E audience c (history w1) = inr resp /\
    token_of resp = inr tok /\
    history w' = history w1 ++ [issuance_call E audience c (history w1); EvTime] /\
    _cached_token (self w') = tok /\
    _token_expiry (self w') = time_time E (history w') + 3600.
Proof.
  rewrite refresh_cases.
  destruct (setting_falsy _); [discriminate|].
  destruct (_get_application_credentials E w) as [[e|c] w1]; [discriminate|].
  cbv zeta.
  destruct (issuance_answer E audience c (history w1)) as [e|resp] eqn:Hans; [discriminate|].
  destruct (token_of resp) as [e|t] eqn:Htok; [discriminate|].
  intros H. inversion H; subst; clear H.
  exists c, w1, resp. simpl. rewrite <- app_assoc. simpl. repeat split; auto.
Qed.

Lemma cached_or_refresh_frame (E : Env) (audience : pyval) (w : World) :
  let r := fst (cached_or_refresh E audience w) in
  let w' := snd (cached_or_refresh E audience w) in
  _client_id (self w') = _client_id (self w) /\
  (exists d, history w' = history w ++ d /\
             count is_resolution d = 0%nat /\
             (count is_issuance d <= 1)%nat) /\
  (forall e, r = inl e -> same_cache w w') /\
  (forall tok, r = inr tok -> _cached_token (self w') = tok).
Proof.
  cbv zeta.
  destruct (cache_hit (time_time E (history w ++ [EvTime])) (self w)) eqn:Hhit.
  - rewrite (cached_or_refresh_hit _ _ _ Hhit). simpl.
    split; [reflexivity|]. split; [exists [EvTime]; auto|].
    split; [intros; discriminate|intros t Ht; congruence].
  - rewrite (cached_or_refresh_miss _ _ _ Hhit).
    pose proof (refresh_frame E audience (after_cache_test w)) as Hf. cbv zeta in Hf.
    destruct (after_cache_test_frame w) as (Hs & d0 & Hd0 & Hall0).
    destruct Hf as (Hid & (d & Hd & Hr & Hi & _) & Herr & Hok).
    rewrite Hs in Hid. split; [exact Hid|].
    split.
    + exists (d0 ++ d). rewrite Hd, Hd0, app_assoc. split; [reflexivity|].
      rewrite !count_app, Hr.
      rewrite (count_zero is_resolution _ d0 local_not_resolution Hall0).
      rewrite (count_zero is_issuance _ d0 local_not_issuance Hall0).
      split; [reflexivity|lia].
    + split; [|exact Hok].
      intros e He. specialize (Herr e He). unfold same_cache in *. rewrite Hs in Herr. exact Herr.
Qed.

Lemma count_le_length (p : event -> bool) (d : list event) :
  (count p d <= length d)%nat.
Proof.
  unfold count. induction d as [|e d IH]; simpl; [lia|].
  destruct (p e); simpl; lia.
Qed.

Lemma resolution_not_issuance (e : event) : is_resolution e = true -> is_issuance e = false.
Proof. destruct e; simpl; intros H; congruence. Qed.

Lemma get_id_token_frame (E : Env) (audience : pyval) (w : World) :
  let r := fst (get_id_token E audience w) in
  let w' := snd (get_id_token E audience w) in
  (exists d, history w' = history w ++ EvGetIdToken audience :: d /\
             (count is_resolution d <= 1)%nat /\
             (count is_issuance d <= 1)%nat) /\
  (forall e, r = inl e -> same_cache w w') /\
  (forall tok, r = inr tok -> _cached_token (self w') = tok).
Proof.
  cbv zeta. rewrite get_id_token_phases.
  pose proof (settle_audience_frame E audience (logged w (EvGetIdToken audience))) as Hs.
  cbv zeta in Hs.
  destruct (settle_audience E audience (logged w (EvGetIdToken audience)))
    as [[e|aud] w1]; simpl in Hs;
    destruct Hs as (Hc & _ & (d1 & Hd1 & Hall1 & Hlen1) & _).
  - simpl. split; [|split; [intros _ _; exact Hc|intros; discriminate]].
    exists d1. rewrite Hd1, <- app_assoc. split; [reflexivity|].
    pose proof (count_le_length is_resolution d1).
    rewrite (count_zero is_issuance _ d1 resolution_not_issuance Hall1). lia.
  - pose proof (cached_or_refresh_frame E aud w1) as Hf. cbv zeta in Hf.
    destruct Hf as (_ & (d & Hd & Hr & Hi) & Herr & Hok).
    split; [|split; [|exact Hok]].
    + exists (d1 ++ d). rewrite Hd, Hd1, <- !app_assoc. split; [reflexivity|].
      rewrite !count_app, Hr.
      pose proof (count_le_length is_resolution d1).
      rewrite (count_zero is_issuance _ d1 resolution_not_issuance Hall1). lia.
    + intros e He. specialize (Herr e He). unfold same_cache in *.
      destruct Hc as [Hc1 Hc2]. simpl in Hc1, Hc2. rewrite <- Hc1, <- Hc2. exact Herr.
Qed.

Lemma cache_hit_true (now : Z) (s : IAPTokenManager) :
  cache_hit now s = true <->
  truthy (_cached_token s) = true /\ now < _token_expiry s - 300.
Proof.
  unfold cache_hit. rewrite andb_true_iff, negb_true_iff.
  rewrite Z.geb_leb, Z.leb_gt. reflexivity.
Qed.

Lemma cache_hit_false (now : Z) (s : IAPTokenManager) :
  cache_hit now s = false <->
  truthy (_cached_token s) = false \/ _token_expiry s - 300 <= now.
Proof.
  unfold cache_hit. rewrite andb_false_iff, negb_false_iff, Z.geb_leb, Z.leb_le.
  reflexivity.
Qed.

Lemma get_id_token_miss (E : Env) (audience : pyval) (w : World) :
  is_None audience = false \/ truthy (_client_id (self w)) = true ->
  cache_hit (time_time E (history w ++ [EvGetIdToken audience; EvTime])) (self w) = false ->
  get_id_token E audience w =
  refresh E (if is_None audience then _client_id (self w) else audience)
    (after_cache_test (logged w (EvGetIdToken audience))).
Proof.
  intros Ha Hmiss. rewrite get_id_token_phases.
  pose proof (settle_audience_frame E audience (logged w (EvGetIdToken audience))) as Hs.
  cbv zeta in Hs. destruct Hs as (_ & _ & _ & Hs). specialize (Hs Ha).
  destruct (settle_audience E audience (logged w (EvGetIdToken audience))) as [r w1].
  simpl in Hs. destruct Hs as [-> ->].
  apply cached_or_refresh_miss. simpl. rewrite <- app_assoc. exact Hmiss.
Qed.

Lemma count_local (p : event -> bool) (d : list event) :
  (forall e, negb (is_remote e) = true -> p e = false) ->
  forallb (fun e => negb (is_remote e)) d = true -> count p d = 0%nat.
Proof. intros Hp Hd. exact (count_zero p _ d Hp Hd). Qed.

(** ** Reuse and refresh *)

Lemma count_all (p : event -> bool) (d : list event) :
  forallb p d = true -> count p d = length d.
Proof.
  unfold count. induction d as [|e d IH]; simpl; [reflexivity|].
  intros H. apply andb_prop in H as [He Hd]. rewrite He. simpl. rewrite (IH Hd). reflexivity.
Qed.

Lemma resolution_is_remote (e : event) : is_resolution e = true -> is_remote e = true.
Proof. destruct e; simpl; congruence. Qed.

(** What settling the audience does, in each of its three cases. *)
Lemma settle_audience_cases (E : Env) (audience : pyval) (w : World) :
  (is_None audience = false \/ truthy (_client_id (self w)) = true ->
   settle_audience E audience w
   = (inr (if is_None audience then _client_id (self w) else audience), w)) /\
  (forall e w1, settle_audience E audience w = (inl e, w1) ->
     is_None audience = true /\ truthy (_client_id (self w)) = false /\
     self w1 = self w /\
     exists d, history w1 = history w ++ d /\ forallb is_resolution d = true /\
               (length d <= 1)%nat) /\
  (forall aud w1, settle_audience E audience w = (inr aud, w1) ->
     same_cache w w1 /\ _credentials (self w1) = _credentials (self w) /\
     (is_None audience = true -> _client_id (self w1) = aud) /\
     exists d, history w1 = history w ++ d /\ forallb is_resolution d = true /\
               (length d <= 1)%nat /\
               (is_None audience = true -> truthy (_client_id (self w)) = false ->
                d = [resolution_call E])).
Proof.
  pose proof (settle_audience_frame E audience w) as Hf. cbv zeta in Hf.
  destruct Hf as (Hc & Hcr & Hd & Hdirect).
  split; [|split].
  - intros Ha. destruct (Hdirect Ha) as [H1 H2].
    destruct (settle_audience E audience w) as [r w1]. simpl in H1, H2. congruence.
  - intros e w1 Hs. rewrite Hs in Hd. cbn [snd] in Hd.
    unfold settle_audience in Hs.
    destruct (is_None audience) eqn:Hn; [|discriminate].
    rewrite client_id_unfold in Hs.
    destruct (truthy (_client_id (self w))) eqn:Hm; [discriminate|].
    pose proof (_get_client_id_from_secret_frame E w) as Hg. cbv zeta in Hg.
    destruct (_get_client_id_from_secret E w) as [[e'|v] w1'] eqn:Hg'; [|discriminate].
    inversion Hs; subst e' w1'. cbn [snd] in Hg. destruct Hg as [Hself _].
    auto.
  - intros aud w1 Hs. rewrite Hs in Hc, Hcr, Hd. cbn [snd] in Hc, Hcr, Hd.
    split; [exact Hc|]. split; [exact Hcr|].
    unfold settle_audience in Hs. destruct (is_None audience) eqn:Hn.
    + rewrite client_id_unfold in Hs.
      destruct (truthy (_client_id (self w))) eqn:Hm.
      * inversion Hs; subst aud w1. split; [reflexivity|].
        exists []. rewrite app_nil_r. repeat split; auto. intros; discriminate.
      * rewrite _get_client_id_from_secret_unfold, Hm in Hs.
        destruct (setting_falsy _); [discriminate|]. cbv zeta in Hs.
        destruct (resolution_answer E (history w)) as [e|payload]; [discriminate|].
        destruct (client_id_of_payload E payload) as [e|v]; [discriminate|].
        inversion Hs; subst aud w1. split; [reflexivity|].
        exists [resolution_call E]. repeat split; auto.
    + inversion Hs; subst aud w1. split; [intros; discriminate|].
      exists []. rewrite app_nil_r. repeat split; auto. intros; discriminate.
Qed.

(** The refresh of a call whose audience is settled and whose cache
    test has failed. *)
Lemma get_id_token_settled_miss (E : Env) (audience aud : pyval) (w w1 : World) :
  settle_audience E audience (logged w (EvGetIdToken audience)) = (inr aud, w1) ->
  cache_miss E w1 ->
  get_id_token E audience w = refresh E aud (after_cache_test w1).
Proof.
  intros Hs Hmiss. rewrite get_id_token_phases, Hs.
  apply cached_or_refresh_miss. destruct Hmiss as [Ht|Hh]; [|exact Hh].
  unfold cache_hit. rewrite Ht. reflexivity.
Qed.

Lemma settled_history (E : Env) (audience aud : pyval) (w w1 : World) :
  settle_audience E audience (logged w (EvGetIdToken audience)) = (inr aud, w1) ->
  same_cache w w1 /\ _credentials (self w1) = _credentials (self w) /\
  exists d0, history (after_cache_test w1) = history w ++ d0 /\
             count is_issuance d0 = 0%nat /\ count is_auth_default d0 = 0%nat /\
             self (after_cache_test w1) = self w1.
Proof.
  intros Hs.
  destruct (settle_audience_cases E audience (logged w (EvGetIdToken audience)))
    as (_ & _ & Hok).
  destruct (Hok aud w1 Hs) as (Hc & Hcr & _ & d & Hd & Hall & _).
  cbn [logged self history] in Hc, Hcr, Hd.
  split; [exact Hc|]. split; [exact Hcr|].
  destruct (after_cache_test_frame w1) as (Hself & d' & Hd' & Hall').
  exists (([EvGetIdToken audience] ++ d) ++ d').
  split; [rewrite Hd', Hd, <- !app_assoc; reflexivity|].
  rewrite !count_app.
  rewrite (count_zero is_issuance _ d resolution_not_issuance Hall).
  rewrite (count_local is_issuance d' local_not_issuance Hall').
  rewrite (count_zero is_auth_default is_resolution d) by (auto; intros []; simpl; congruence).
  rewrite (count_local is_auth_default d') by (auto; intros []; simpl; congruence).
  auto.
Qed.

(** C3, as the code has it. Every call settles its audience first:
    at no cost when the audience is supplied or already memoized, and
    by one secret-store lookup otherwise; when the audience cannot be
    settled (the secret version is not configured, the lookup fails,
    or its payload cannot be read), the call fails with that error
    after at most that one remote call, no issuance call is made and
    no field changes. Once the audience is
    settled, with [now] the clock the call reads next: if a cached
    token exists (is truthy) and [now < expiry - 300], the cached token
    is returned, no field changes, and no issuance call and no remote
    call other than that lookup is made; otherwise at most one issuance
    call is made, and when the call succeeds exactly one was made and
    the token of that call's reply is stored and returned. *)
Theorem get_id_token_reuse_or_refresh (E : Env) (audience : pyval) (w : World) :
  let w0 := logged w (EvGetIdToken audience) in
  let r := fst (get_id_token E audience w) in
  let w' := snd (get_id_token E audience w) in
  (is_None audience = false \/ truthy (_client_id (self w)) = true ->
   settle_audience E audience w0
   = (inr (if is_None audience then _client_id (self w) else audience), w0)) /\
  (forall e w1, settle_audience E audience w0 = (inl e, w1) ->
     is_None audience = true /\ truthy (_client_id (self w)) = false /\
     r = inl e /\ w' = w1 /\ self w' = self w /\
     count is_issuance (since w w') = 0%nat /\
     (count is_remote (since w w') <= 1)%nat) /\
  (forall aud w1, settle_audience E audience w0 = (inr aud, w1) ->
     let now := time_time E (history w1 ++ [EvTime]) in
     same_cache w w1 /\
     count is_issuance (since w w1) = 0%nat /\
     count is_remote (since w w1) = count is_resolution (since w w1) /\
     (count is_resolution (since w w1) <= 1)%nat /\
     (is_None audience = false \/ truthy (_client_id (self w)) = true ->
      count is_remote (since w w1) = 0%nat) /\
     (is_None audience = true -> truthy (_client_id (self w)) = false ->
      since w w1 = [EvGetIdToken audience; resolution_call E]) /\
     (truthy (_cached_token (self w)) = true /\ now < _token_expiry (self w) - 300 ->
      r = inr (_cached_token (self w)) /\ w' = logged w1 EvTime /\
      count is_issuance (since w w') = 0%nat /\
      count is_remote (since w w') = count is_resolution (since w w1)) /\
     (truthy (_cached_token (self w)) = false \/ _token_expiry (self w) - 300 <= now ->
      (count is_issuance (since w w') <= 1)%nat /\
      forall tok, r = inr tok ->
        count is_issuance (since w w') = 1%nat /\
        _cached_token (self w') = tok /\
        exists c h resp,
          history w' = h ++ [issuance_call E aud c h; EvTime] /\
          issuance_answer E aud c h = inr resp /\
          token_of resp = inr tok)).
Proof.
  cbv zeta.
  destruct (settle_audience_cases E audience (logged w (EvGetIdToken audience)))
    as (Hdirect & Hfail & Hok).
  split; [exact Hdirect|]. split.
  - intros e w1 Hs. destruct (Hfail e w1 Hs) as (Hn & Hm & Hself & d & Hd & Hall & Hlen).
    rewrite get_id_token_phases, Hs. cbn [fst snd].
    cbn [logged self history] in Hm, Hself, Hd.
    split; [exact Hn|]. split; [exact Hm|]. split; [reflexivity|]. split; [reflexivity|].
    split; [exact Hself|].
    rewrite (since_app w w1 ([EvGetIdToken audience] ++ d))
      by (rewrite Hd, <- app_assoc; reflexivity).
    rewrite !count_app, (count_zero is_issuance _ d resolution_not_issuance Hall).
    split; [reflexivity|].
    pose proof (count_le_length is_remote d). simpl. lia.
  - intros aud w1 Hs.
    destruct (Hok aud w1 Hs) as (Hc & _ & _ & d & Hd & Hall & Hlen & Hlook).
    cbn [logged self history] in Hc, Hd, Hlook.
    assert (Hsince : since w w1 = [EvGetIdToken audience] ++ d).
    { apply since_app. rewrite Hd, <- app_assoc. reflexivity. }
    assert (Hrem : count is_remote d = count is_resolution d).
    { rewrite (count_all is_resolution d Hall).
      apply count_all. apply (forallb_weaken is_resolution); [|exact Hall].
      exact resolution_is_remote. }
    assert (Hiss : count is_issuance d = 0%nat)
      by exact (count_zero is_issuance _ d resolution_not_issuance Hall).
    destruct Hc as [Hc1 Hc2]. cbn [logged self] in Hc1, Hc2.
    split; [split; assumption|].
    rewrite Hsince, !count_app, Hiss, Hrem.
    split; [reflexivity|]. split; [reflexivity|].
    split; [rewrite (count_all is_resolution d Hall); simpl; lia|].
    split.
    { intros Ha. rewrite (Hdirect Ha) in Hs. inversion Hs as [[Ha1 Ha2]].
      rewrite <- Ha2 in Hd. cbn [logged history] in Hd.
      rewrite <- (app_nil_r (history w ++ [EvGetIdToken audience])) in Hd at 1.
      apply app_inv_head in Hd. subst d. reflexivity. }
    split.
    { intros Hn Hm. rewrite (Hlook Hn Hm). reflexivity. }
    rewrite get_id_token_phases, Hs.
    split.
    + intros [Ht Hnow].
      assert (Hhit : cache_hit (time_time E (history w1 ++ [EvTime])) (self w1) = true).
      { apply cache_hit_true. rewrite Hc1, Hc2. auto. }
      rewrite (cached_or_refresh_hit _ _ _ Hhit). cbn [fst snd].
      split; [rewrite Hc1; reflexivity|]. split; [reflexivity|].
      rewrite (since_app w (logged w1 EvTime) (([EvGetIdToken audience] ++ d) ++ [EvTime]))
        by (cbn [logged history]; rewrite Hd, <- !app_assoc; reflexivity).
      rewrite !count_app, Hiss, Hrem, !count_cons, !count_nil. cbn [is_remote is_resolution is_issuance]. split; lia.
    + intros Hmiss.
      assert (Hhit : cache_hit (time_time E (history w1 ++ [EvTime])) (self w1) = false).
      { apply cache_hit_false. rewrite Hc1, Hc2. exact Hmiss. }
      rewrite (cached_or_refresh_miss _ _ _ Hhit).
      destruct (after_cache_test_frame w1) as (Hs0 & d0 & Hd0 & Hall0).
      set (wt := after_cache_test w1) in *.
      pose proof (refresh_frame E aud wt) as Hf. cbv zeta in Hf.
      destruct Hf as (_ & (d' & Hd' & _ & Hi & Hone & _) & _ & Hstored).
      assert (Hsince' : since w (snd (refresh E aud wt))
                        = (([EvGetIdToken audience] ++ d) ++ d0) ++ d').
      { apply since_app. rewrite Hd', Hd0, Hd, <- !app_assoc. reflexivity. }
      rewrite Hsince', !count_app, Hiss.
      rewrite (count_local is_issuance d0 local_not_issuance Hall0).
      split; [simpl; exact Hi|].
      intros tok Htok. split; [simpl; exact (Hone tok Htok)|].
      split; [exact (Hstored tok Htok)|].
      destruct (refresh E aud wt) as [r' w''] eqn:Hr. cbn [fst] in Htok. subst r'.
      destruct (refresh_success E aud wt tok w'' Hr)
        as (c & w2 & resp & _ & Hans & Htk & Hh & _).
      exists c, (history w2), resp. cbn [snd]. auto.
Qed.

Lemma get_id_token_reuse_or_refresh_witness :
  fst (get_id_token env0 (PStr "aud-A") world0) = inr (example_token 0) /\
  count is_issuance
    (since world0 (snd (get_id_token env0 (PStr "aud-A") world0))) = 1%nat.
Proof.
  destruct (get_id_token_reuse_or_refresh env0 (PStr "aud-A") world0) as (_ & _ & H).
  destruct (H (PStr "aud-A") (logged world0 (EvGetIdToken (PStr "aud-A"))) eq_refl)
    as (_ & _ & _ & _ & _ & _ & _ & Hmiss).
  destruct (Hmiss (or_introl eq_refl)) as [_ Hok].
  assert (Hr : fst (get_id_token env0 (PStr "aud-A") world0) = inr (example_token 0))
    by (vm_compute; reflexivity).
  destruct (Hok (example_token 0) Hr) as [Hone _].
  split; [exact Hr|exact Hone].
Defined.

(** The claim as worded fails in two places. A call that omits the
    audience while none is memoized looks the audience up remotely
    before it returns the still-valid cached token; and a call that
    finds no usable token may make no issuance call and return no
    token (here: the impersonation setting is unset). *)
Lemma get_id_token_reuse_or_refresh_counterexample :
  (let w := snd (get_id_token env0 (PStr "aud-A") world0) in
   let w' := snd (get_id_token env0 PNone w) in
   truthy (_cached_token (self w)) = true /\
   time_time env0 (history w') < _token_expiry (self w) - 300 /\
   fst (get_id_token env0 PNone w) = inr (_cached_token (self w)) /\
   count is_remote (since w w') = 1%nat) /\
  (let w' := snd (get_id_token env_no_service_account (PStr "aud-A") world0) in
   truthy (_cached_token (self world0)) = false /\
   fst (get_id_token env_no_service_account (PStr "aud-A") world0)
     = inl (ValueError msg_service_account) /\
   count is_issuance (since world0 w') = 0%nat).
Proof. vm_compute. repeat split. Qed.

(** ** Failures *)

Lemma cache_hit_later (now1 now2 : Z) (s : IAPTokenManager) :
  cache_hit now1 s = false -> now1 <= now2 -> cache_hit now2 s = false.
Proof.
  rewrite !cache_hit_false. intros [H|H] Hle; [left; exact H|right; lia].
Qed.

Lemma same_cache_hit (w w' : World) (now : Z) :
  same_cache w w' -> cache_hit now (self w') = cache_hit now (self w).
Proof. intros [H1 H2]. unfold cache_hit. rewrite H1, H2. reflexivity. Qed.

(** C4. Whatever makes [get_id_token] fail, the cached token and its
    expiry are what they were before the call, so the cache test of a
    later call reads the same; a failure to obtain credentials, a
    failed credential refresh, a transport failure of the issuance call
    and a non-success status of its reply each become the call's own
    error; and a later call made after a failed refresh, at a clock
    not earlier than the failed call's, attempts the refresh again. *)
Theorem get_id_token_failure_propagates_and_keeps_cache
    (E : Env) (audience : pyval) (w : World) :
  let r := fst (get_id_token E audience w) in
  let w' := snd (get_id_token E audience w) in
  (forall e, r = inl e ->
     same_cache w w' /\ forall now, cache_hit now (self w') = cache_hit now (self w)) /\
  (forall aud w1,
     settle_audience E audience (logged w (EvGetIdToken audience)) = (inr aud, w1) ->
     cache_hit (time_time E (history w1 ++ [EvTime])) (self w1) = false ->
     setting_falsy (PREFECT_API_IAP_IMPERSONATE_SERVICE_ACCOUNT E) = false ->
     let wm := after_cache_test w1 in
     (forall e w2, _get_application_credentials E wm = (inl e, w2) -> r = inl e) /\
     (forall c e, _credentials (self wm) = Some c ->
        credentials_valid E c (history wm) = false ->
        credentials_refresh E c (history wm ++ [EvCredRefresh c]) = inl e ->
        r = inl e) /\
     (forall c w2, _get_application_credentials E wm = (inr c, w2) ->
        (forall e, issuance_answer E aud c (history w2) = inl e -> r = inl e) /\
        (forall resp, issuance_answer E aud c (history w2) = inr resp ->
           is_success resp = false ->
           r = inl (HTTPStatusError (status_code resp))))) /\
  (forall e now1 audience2,
     r = inl e ->
     cache_hit now1 (self w) = false ->
     is_None audience2 = false \/ truthy (_client_id (self w')) = true ->
     now1 <= time_time E (history w' ++ [EvGetIdToken audience2; EvTime]) ->
     get_id_token E audience2 w' =
     refresh E (if is_None audience2 then _client_id (self w') else audience2)
       (after_cache_test (logged w' (EvGetIdToken audience2)))).
Proof.
  cbv zeta.
  pose proof (get_id_token_frame E audience w) as Hf. cbv zeta in Hf.
  destruct Hf as (_ & Herr & _).
  split; [|split].
  - intros e He. split; [exact (Herr e He)|].
    intros now. apply same_cache_hit. exact (Herr e He).
  - intros aud w1 Hset Hmiss Hcfg.
    rewrite get_id_token_phases, Hset, (cached_or_refresh_miss _ _ _ Hmiss), refresh_cases, Hcfg.
    split; [|split].
    + intros e w2 Hc. rewrite Hc. reflexivity.
    + intros c e Hsome Hvalid Hfail.
      rewrite _get_application_credentials_unfold, Hsome. unfold validate.
      rewrite Hvalid, Hfail. reflexivity.
    + intros c w2 Hc. rewrite Hc. cbv zeta. split.
      * intros e Hans. rewrite Hans. reflexivity.
      * intros resp Hans Hstatus. rewrite Hans. unfold token_of. rewrite Hstatus. reflexivity.
  - intros e now1 audience2 He Hmiss Ha Hle.
    apply get_id_token_miss; [exact Ha|].
    rewrite (same_cache_hit w _ _ (Herr e He)).
    exact (cache_hit_later _ _ _ Hmiss Hle).
Qed.

(** In [env_recovering] the first call fails with the endpoint's error
    and leaves the cache as it was; the next call is served a token. *)
Lemma get_id_token_failure_propagates_and_keeps_cache_witness :
  let w' := snd (get_id_token env_recovering (PStr "aud-A") world0) in
  fst (get_id_token env_recovering (PStr "aud-A") world0)
    = inl (ExternalError "connect") /\
  same_cache world0 w' /\
  fst (get_id_token env_recovering (PStr "aud-A") w') = inr (example_token 1).
Proof.
  destruct (get_id_token_failure_propagates_and_keeps_cache
              env_recovering (PStr "aud-A") world0) as (Hkeep & _ & _).
  cbv zeta.
  assert (Hr : fst (get_id_token env_recovering (PStr "aud-A") world0)
               = inl (ExternalError "connect")) by (vm_compute; reflexivity).
  split; [exact Hr|]. split; [exact (proj1 (Hkeep _ Hr))|].
  vm_compute; reflexivity.
Defined.

(** ** The impersonation setting *)

(** C5, as the code has it. With the impersonation setting unset (or
    empty) a call makes no issuance call and neither obtains nor
    refreshes credentials; it can only succeed by returning the token
    already cached; once the audience is settled and the cache test
    fails, the call fails with the configuration error that names the
    setting, before anything else is done; and when the audience is
    supplied or memoized that failing call makes no remote call at all
    and changes no field. *)
Theorem get_id_token_without_service_account (E : Env) (audience : pyval) (w : World) :
  setting_falsy (PREFECT_API_IAP_IMPERSONATE_SERVICE_ACCOUNT E) = true ->
  let r := fst (get_id_token E audience w) in
  let w' := snd (get_id_token E audience w) in
  (count is_issuance (since w w') = 0%nat /\
   count is_cred_event (since w w') = 0%nat) /\
  (forall tok, r = inr tok ->
     tok = _cached_token (self w) /\ truthy (_cached_token (self w)) = true) /\
  (forall aud w1,
     settle_audience E audience (logged w (EvGetIdToken audience)) = (inr aud, w1) ->
     cache_hit (time_time E (history w1 ++ [EvTime])) (self w1) = false ->
     r = inl (ValueError msg_service_account) /\ w' = after_cache_test w1) /\
  (is_None audience = false \/ truthy (_client_id (self w)) = true ->
   cache_hit (time_time E (history w ++ [EvGetIdToken audience; EvTime])) (self w) = false ->
   r = inl (ValueError msg_service_account) /\
   self w' = self w /\
   count is_remote (since w w') = 0%nat).
Proof.
  intros Hcfg. cbv zeta.
  assert (Hrefresh : forall aud w0,
            refresh E aud w0 = (inl (ValueError msg_service_account), w0)).
  { intros aud w0. rewrite refresh_cases, Hcfg. reflexivity. }
  split; [|split; [|split]].
  - rewrite get_id_token_phases.
    pose proof (settle_audience_frame E audience (logged w (EvGetIdToken audience))) as Hs.
    cbv zeta in Hs. destruct Hs as (_ & _ & (d1 & Hd1 & Hall1 & _) & _).
    simpl in Hd1. rewrite <- app_assoc in Hd1. simpl in Hd1.
    assert (Hi1 : count is_issuance (EvGetIdToken audience :: d1) = 0%nat).
    { change (count is_issuance ([EvGetIdToken audience] ++ d1) = 0%nat).
      rewrite count_app, (count_zero is_issuance _ d1 resolution_not_issuance Hall1).
      reflexivity. }
    assert (Hc1 : count is_cred_event (EvGetIdToken audience :: d1) = 0%nat).
    { change (count is_cred_event ([EvGetIdToken audience] ++ d1) = 0%nat).
      rewrite count_app, (count_zero is_cred_event is_resolution d1); auto.
      intros []; simpl; congruence. }
    destruct (settle_audience E audience (logged w (EvGetIdToken audience)))
      as [[e|aud] w1]; simpl in Hd1.
    + simpl snd. rewrite (since_app w w1 _ Hd1). auto.
    + destruct (cache_hit (time_time E (history w1 ++ [EvTime])) (self w1)) eqn:Hhit.
      * rewrite (cached_or_refresh_hit _ _ _ Hhit). simpl snd.
        rewrite (since_app w (logged w1 EvTime) ((EvGetIdToken audience :: d1) ++ [EvTime])).
        2:{ simpl. rewrite Hd1, <- app_assoc. reflexivity. }
        rewrite !count_app, Hi1, Hc1. auto.
      * rewrite (cached_or_refresh_miss _ _ _ Hhit), Hrefresh. simpl snd.
        destruct (after_cache_test_frame w1) as (_ & d0 & Hd0 & Hall0).
        rewrite (since_app w (after_cache_test w1) ((EvGetIdToken audience :: d1) ++ d0)).
        2:{ rewrite Hd0, Hd1, <- app_assoc. reflexivity. }
        rewrite !count_app, Hi1, Hc1.
        rewrite (count_local is_issuance d0 local_not_issuance Hall0).
        rewrite (count_local is_cred_event d0); auto.
        intros []; simpl; congruence.
  - intros tok. rewrite get_id_token_phases.
    pose proof (settle_audience_frame E audience (logged w (EvGetIdToken audience))) as Hs.
    cbv zeta in Hs. destruct Hs as ([Hc1 Hc2] & _).
    destruct (settle_audience E audience (logged w (EvGetIdToken audience)))
      as [[e|aud] w1]; simpl in Hc1, Hc2; [discriminate|].
    destruct (cache_hit (time_time E (history w1 ++ [EvTime])) (self w1)) eqn:Hhit.
    + rewrite (cached_or_refresh_hit _ _ _ Hhit). simpl. intros Htok.
      apply cache_hit_true in Hhit. destruct Hhit as [Ht _].
      rewrite <- Hc1. split; [congruence|exact Ht].
    + rewrite (cached_or_refresh_miss _ _ _ Hhit), Hrefresh. discriminate.
  - intros aud w1 Hset Hmiss.
    rewrite get_id_token_phases, Hset, (cached_or_refresh_miss _ _ _ Hmiss), Hrefresh.
    split; reflexivity.
  - intros Ha Hmiss. rewrite (get_id_token_miss E audience w Ha Hmiss), Hrefresh.
    simpl fst. simpl snd.
    destruct (after_cache_test_frame (logged w (EvGetIdToken audience)))
      as (Hs0 & d0 & Hd0 & Hall0). simpl in Hd0, Hs0.
    split; [reflexivity|]. split; [exact Hs0|].
    rewrite (since_app w _ ([EvGetIdToken audience] ++ d0)).
    2:{ rewrite Hd0, <- app_assoc. reflexivity. }
    rewrite count_app, (count_local is_remote d0 local_not_remote Hall0). reflexivity.
Qed.

Lemma get_id_token_without_service_account_witness :
  fst (get_id_token env_no_service_account (PStr "aud-A") world0)
    = inl (ValueError msg_service_account) /\
  count is_remote
    (since world0 (snd (get_id_token env_no_service_account (PStr "aud-A") world0)))
    = 0%nat.
Proof.
  destruct (get_id_token_without_service_account env_no_service_account
              (PStr "aud-A") world0 eq_refl) as (_ & _ & _ & H).
  destruct (H (or_introl eq_refl) eq_refl) as (Hr & _ & Hn).
  split; [exact Hr|exact Hn].
Defined.

(** With the setting unset, a call that omits the audience on a new
    manager looks the audience up in the secret store (one remote
    call) before it fails with the configuration error. *)
Lemma get_id_token_without_service_account_counterexample :
  let w' := snd (get_id_token env_no_service_account PNone world0) in
  setting_falsy (PREFECT_API_IAP_IMPERSONATE_SERVICE_ACCOUNT env_no_service_account) = true /\
  fst (get_id_token env_no_service_account PNone world0)
    = inl (ValueError msg_service_account) /\
  count is_resolution (since world0 w') = 1%nat /\
  count is_remote (since world0 w') = 1%nat.
Proof. vm_compute. repeat split. Qed.

(** ** The validity window *)

(** C8. When a call to [get_id_token] succeeds by a refresh (it made
    an issuance call), the stored expiry is the clock read right after
    the reply, plus 3600: the history ends with that clock reading, and
    the expiry is computed from it alone, whatever the reply [resp]
    carries beside its token. *)
Theorem get_id_token_refresh_sets_expiry (E : Env) (audience : pyval) (w : World)
    (tok : pyval) (w' : World) :
  get_id_token E audience w = (inr tok, w') ->
  count is_issuance (since w w') = 1%nat ->
  _token_expiry (self w') = time_time E (history w') + 3600 /\
  _cached_token (self w') = tok /\
  exists aud c h resp,
    history w' = h ++ [issuance_call E aud c h; EvTime] /\
    issuance_answer E aud c h = inr resp /\
    token_of resp = inr tok.
Proof.
  rewrite get_id_token_phases.
  pose proof (settle_audience_frame E audience (logged w (EvGetIdToken audience))) as Hs.
  cbv zeta in Hs. destruct Hs as (_ & _ & (d1 & Hd1 & Hall1 & _) & _).
  simpl in Hd1. rewrite <- app_assoc in Hd1. simpl in Hd1.
  destruct (settle_audience E audience (logged w (EvGetIdToken audience)))
    as [[e|aud] w1]; [discriminate|]. simpl in Hd1.
  destruct (cache_hit (time_time E (history w1 ++ [EvTime])) (self w1)) eqn:Hhit.
  - rewrite (cached_or_refresh_hit _ _ _ Hhit). intros H. inversion H; subst; clear H.
    rewrite (since_app w (logged w1 EvTime) (([EvGetIdToken audience] ++ d1) ++ [EvTime])).
    2:{ simpl. rewrite Hd1, <- app_assoc. reflexivity. }
    rewrite !count_app, (count_zero is_issuance _ d1 resolution_not_issuance Hall1).
    simpl. discriminate.
  - rewrite (cached_or_refresh_miss _ _ _ Hhit). intros Hr _.
    destruct (refresh_success E aud _ tok w' Hr)
      as (c & w2 & resp & _ & Hans & Htk & Hh & Hc & He).
    split; [exact He|]. split; [exact Hc|].
    exists aud, c, (history w2), resp. auto.
Qed.

(** In [env_reply_with_expiry] the reply carries [expireTime = 99];
    the stored expiry is the clock (1000) plus 3600. *)
Lemma get_id_token_refresh_sets_expiry_witness :
  _token_expiry
    (self (snd (get_id_token env_reply_with_expiry (PStr "aud-A") world0))) = 4600.
Proof.
  destruct (get_id_token_refresh_sets_expiry env_reply_with_expiry (PStr "aud-A") world0
              (PStr "t") (snd (get_id_token env_reply_with_expiry (PStr "aud-A") world0)))
    as (He & _).
  - vm_compute; reflexivity.
  - vm_compute; reflexivity.
  - rewrite He. vm_compute; reflexivity.
Defined.

(** ** Audience resolution *)

(** C6, as the code has it. The payload is stripped of surrounding
    white space before anything else. The stripped text stands for: the
    value under [client_id] when it is a JSON object with that key;
    else the value under [web.client_id] when it is an object with key
    [web] holding an object with key [client_id]; else the same under
    [installed]; and the stripped text itself when it is not JSON, is
    JSON but not an object, or is an object with none of the three
    keys. One secret-store lookup is made and no field changes. *)
Theorem _get_client_id_from_secret_parses_payload (E : Env) (w : World) (payload : string) :
  truthy (_client_id (self w)) = false ->
  setting_falsy (PREFECT_API_IAP_CLIENT_ID_GCP_SECRET_VERSION E) = false ->
  resolution_answer E (history w) = inr payload ->
  let secret_data := strip payload in
  let r := fst (_get_client_id_from_secret E w) in
  let w' := snd (_get_client_id_from_secret E w) in
  (forall o v, json_loads E secret_data = Some (PDict o) ->
     dict_get "client_id" o = Some v -> r = inr v) /\
  (forall o o' v, json_loads E secret_data = Some (PDict o) ->
     dict_get "client_id" o = None ->
     dict_get "web" o = Some (PDict o') ->
     dict_get "client_id" o' = Some v -> r = inr v) /\
  (forall o o' v, json_loads E secret_data = Some (PDict o) ->
     dict_get "client_id" o = None ->
     dict_get "web" o = None ->
     dict_get "installed" o = Some (PDict o') ->
     dict_get "client_id" o' = Some v -> r = inr v) /\
  (json_loads E secret_data = None -> r = inr (PStr secret_data)) /\
  (forall j, json_loads E secret_data = Some j ->
     isinstance_dict j = false -> r = inr (PStr secret_data)) /\
  (forall o, json_loads E secret_data = Some (PDict o) ->
     dict_get "client_id" o = None ->
     dict_get "web" o = None ->
     dict_get "installed" o = None -> r = inr (PStr secret_data)) /\
  w' = logged w (resolution_call E).
Proof.
  intros Hmemo Hcfg Hans. cbv zeta.
  rewrite _get_client_id_from_secret_unfold, Hmemo, Hcfg. cbv zeta. rewrite Hans.
  simpl fst. simpl snd. unfold client_id_of_payload. cbv zeta.
  repeat split; intros;
    repeat match goal with
           | H : json_loads _ _ = _ |- _ => rewrite H; clear H
           end;
    unfold py_in, subscript;
    repeat (cbn [andb isinstance_dict];
            match goal with
            | H : dict_get _ _ = _ |- _ => rewrite H
            | H : isinstance_dict _ = _ |- _ => rewrite H
            end);
    reflexivity.
Qed.

(** The payloads of the specification, decoded by [Json.loads]:
    [{"client_id": "abc"}] gives [abc], and so do the [web] and
    [installed] variants and a bare client id. *)
Lemma _get_client_id_from_secret_parses_payload_witness :
  fst (_get_client_id_from_secret (env_secret payload_client_id) world0) = inr (PStr "abc") /\
  fst (_get_client_id_from_secret (env_secret payload_web) world0) = inr (PStr "xyz") /\
  fst (_get_client_id_from_secret (env_secret payload_installed) world0) = inr (PStr "desk") /\
  fst (_get_client_id_from_secret (env_secret "raw-id") world0) = inr (PStr "raw-id").
Proof.
  split; [|vm_compute; repeat split].
  destruct (_get_client_id_from_secret_parses_payload (env_secret payload_client_id)
              world0 payload_client_id eq_refl eq_refl eq_refl) as (H & _).
  apply (H [("client_id", PStr "abc")] (PStr "abc")); vm_compute; reflexivity.
Defined.

(** A payload is not used verbatim: white space around it is dropped,
    so a bare client id followed by a line break resolves to the id
    without it. *)
Lemma _get_client_id_from_secret_parses_payload_counterexample :
  fst (_get_client_id_from_secret (env_secret payload_padded) world0) = inr (PStr "raw-id") /\
  PStr "raw-id" <> PStr payload_padded.
Proof. split; [vm_compute; reflexivity|vm_compute; discriminate]. Qed.

(** ** Memoization of the client id *)

Lemma get_id_token_keeps_memo (E : Env) (audience : pyval) (w : World) :
  is_None audience = false \/ truthy (_client_id (self w)) = true ->
  let w' := snd (get_id_token E audience w) in
  _client_id (self w') = _client_id (self w) /\
  exists d, history w' = history w ++ d /\ count is_resolution d = 0%nat.
Proof.
  intros Ha. cbv zeta. rewrite get_id_token_phases.
  pose proof (settle_audience_frame E audience (logged w (EvGetIdToken audience))) as Hs.
  cbv zeta in Hs. destruct Hs as (_ & _ & _ & Hs). specialize (Hs Ha).
  destruct (settle_audience E audience (logged w (EvGetIdToken audience))) as [r w1].
  simpl in Hs. destruct Hs as [-> ->].
  pose proof (cached_or_refresh_frame E
                (if is_None audience then _client_id (self w) else audience)
                (logged w (EvGetIdToken audience))) as Hf.
  cbv zeta in Hf. destruct Hf as (Hid & (d & Hd & Hr & _) & _).
  split; [exact Hid|].
  exists ([EvGetIdToken audience] ++ d). simpl in Hd. rewrite <- app_assoc in Hd.
  split; [exact Hd|]. rewrite count_app, Hr. reflexivity.
Qed.

Lemma clear_cached_token_keeps_memo (w : World) :
  _client_id (self (snd (clear_cached_token w))) = _client_id (self w) /\
  exists d, history (snd (clear_cached_token w)) = history w ++ d /\
            count is_resolution d = 0%nat.
Proof.
  destruct w as [[tok ex cr cid] h]. unfold clear_cached_token. unfold_monad.
  split; [reflexivity|]. exists [EvClearCachedToken]. split; reflexivity.
Qed.

Lemma run_operation_keeps_memo (E : Env) (op : operation) (w : World) :
  truthy (_client_id (self w)) = true ->
  let w' := run_operation E op w in
  _client_id (self w') = _client_id (self w) /\
  exists d, history w' = history w ++ d /\ count is_resolution d = 0%nat.
Proof.
  intros Hm. destruct op as [audience|]; cbv zeta; simpl.
  - apply get_id_token_keeps_memo. right. exact Hm.
  - pose proof (clear_cached_token_keeps_memo w) as H.
    exact H.
Qed.

Lemma run_operations_keep_memo (E : Env) (ops : list operation) (w : World) :
  truthy (_client_id (self w)) = true ->
  let w' := run_operations E ops w in
  _client_id (self w') = _client_id (self w) /\
  exists d, history w' = history w ++ d /\ count is_resolution d = 0%nat.
Proof.
  revert w. induction ops as [|op ops IH]; intros w Hm; cbv zeta; simpl.
  - split; [reflexivity|]. exists []. rewrite app_nil_r. auto.
  - destruct (run_operation_keeps_memo E op w Hm) as (Hid & d1 & Hd1 & Hr1).
    assert (Hm' : truthy (_client_id (self (run_operation E op w))) = true)
      by (rewrite Hid; exact Hm).
    destruct (IH _ Hm') as (Hid' & d2 & Hd2 & Hr2).
    split; [congruence|].
    exists (d1 ++ d2). rewrite Hd2, Hd1, <- app_assoc. split; [reflexivity|].
    rewrite count_app, Hr1, Hr2. reflexivity.
Qed.

Lemma get_id_token_resolves_once (E : Env) (w : World) :
  truthy (_client_id (self w)) = false ->
  setting_falsy (PREFECT_API_IAP_CLIENT_ID_GCP_SECRET_VERSION E) = false ->
  count is_resolution (since w (snd (get_id_token E PNone w))) = 1%nat.
Proof.
  intros Hm Hcfg. rewrite get_id_token_phases.
  unfold settle_audience. simpl is_None. cbv iota.
  rewrite client_id_unfold. simpl self. rewrite Hm.
  rewrite _get_client_id_from_secret_unfold. simpl self. rewrite Hm, Hcfg. cbv zeta.
  set (w0 := logged w (EvGetIdToken PNone)).
  destruct (resolution_answer E (history w0)) as [e|payload].
  - simpl snd. rewrite (since_app w _ [EvGetIdToken PNone; resolution_call E]).
    + reflexivity.
    + simpl. rewrite <- app_assoc. reflexivity.
  - destruct (client_id_of_payload E payload) as [e|v].
    + simpl snd. rewrite (since_app w _ [EvGetIdToken PNone; resolution_call E]).
      * reflexivity.
      * simpl. rewrite <- app_assoc. reflexivity.
    + pose proof (cached_or_refresh_frame E v
                    (with_client_id v (logged w0 (resolution_call E)))) as Hf.
      cbv zeta in Hf. destruct Hf as (_ & (d & Hd & Hr & _) & _).
      rewrite (since_app w _ ([EvGetIdToken PNone; resolution_call E] ++ d)).
      * rewrite count_app, Hr. reflexivity.
      * rewrite Hd. simpl. rewrite <- !app_assoc. reflexivity.
Qed.

Lemma run_operations_supplied_keep_memo (E : Env) (ops : list operation) (w : World) :
  forallb supplies_audience ops = true ->
  let w' := run_operations E ops w in
  _client_id (self w') = _client_id (self w) /\
  exists d, history w' = history w ++ d /\ count is_resolution d = 0%nat.
Proof.
  revert w. induction ops as [|op ops IH]; intros w Hall; cbv zeta; simpl.
  - split; [reflexivity|]. exists []. rewrite app_nil_r. auto.
  - simpl in Hall. apply andb_prop in Hall as [Hop Hall].
    assert (H1 : _client_id (self (run_operation E op w)) = _client_id (self w) /\
                 exists d, history (run_operation E op w) = history w ++ d /\
                           count is_resolution d = 0%nat).
    { destruct op as [audience|]; simpl in *.
      - apply get_id_token_keeps_memo. left. apply negb_true_iff. exact Hop.
      - exact (clear_cached_token_keeps_memo w). }
    destruct H1 as (Hid & d1 & Hd1 & Hr1).
    destruct (IH (run_operation E op w) Hall) as (Hid' & d2 & Hd2 & Hr2).
    split; [congruence|].
    exists (d1 ++ d2). rewrite Hd2, Hd1, <- app_assoc. split; [reflexivity|].
    rewrite count_app, Hr1, Hr2. reflexivity.
Qed.

(** C7, as the code has it. Once the memoized client id is truthy, no
    sequence of later calls ([get_id_token] with or without an
    audience, [clear_cached_token]) changes it or looks it up again. A
    call that omits the audience while none is memoized makes exactly
    one lookup when the secret version is configured, and when the
    resolution succeeds it stores the resolved value, whether or not
    the rest of the call succeeds. A truthy value stored so is never
    looked up again. A falsy value (the empty text, say) is stored but
    does not count as memoized: calls that supply their audience and
    invalidations leave it alone, and the next call that omits the
    audience makes the lookup again. When the resolution fails, the
    call fails with that error, no field of the manager changes, and
    the next call that omits the audience makes the lookup again. *)
Theorem client_id_is_memoized (E : Env) (w : World) :
  (forall ops, truthy (_client_id (self w)) = true ->
     let w' := run_operations E ops w in
     _client_id (self w') = _client_id (self w) /\
     count is_resolution (since w w') = 0%nat) /\
  (truthy (_client_id (self w)) = false ->
   setting_falsy (PREFECT_API_IAP_CLIENT_ID_GCP_SECRET_VERSION E) = false ->
   count is_resolution (since w (snd (get_id_token E PNone w))) = 1%nat) /\
  (forall v w1, truthy (_client_id (self w)) = false ->
     _get_client_id_from_secret E (logged w (EvGetIdToken PNone)) = (inr v, w1) ->
     let w' := snd (get_id_token E PNone w) in
     _client_id (self w') = v /\
     count is_resolution (since w w') = 1%nat /\
     (truthy v = true ->
      forall ops,
        let w'' := run_operations E ops w' in
        _client_id (self w'') = v /\
        count is_resolution (since w' w'') = 0%nat) /\
     (truthy v = false ->
      forall ops, forallb supplies_audience ops = true ->
        let w'' := run_operations E ops w' in
        _client_id (self w'') = v /\
        count is_resolution (since w' w'') = 0%nat /\
        count is_resolution (since w'' (snd (get_id_token E PNone w''))) = 1%nat)) /\
  (forall e w1, truthy (_client_id (self w)) = false ->
     _get_client_id_from_secret E (logged w (EvGetIdToken PNone)) = (inl e, w1) ->
     get_id_token E PNone w = (inl e, w1) /\
     self w1 = self w /\
     (setting_falsy (PREFECT_API_IAP_CLIENT_ID_GCP_SECRET_VERSION E) = false ->
      count is_resolution (since w1 (snd (get_id_token E PNone w1))) = 1%nat)).
Proof.
  split; [|split; [|split]].
  - intros ops Hm. cbv zeta.
    destruct (run_operations_keep_memo E ops w Hm) as (Hid & d & Hd & Hr).
    split; [exact Hid|]. rewrite (since_app _ _ _ Hd). exact Hr.
  - intros Hm Hcfg. exact (get_id_token_resolves_once E w Hm Hcfg).
  - intros v w1 Hm Hres. cbv zeta.
    assert (Hcfg : setting_falsy (PREFECT_API_IAP_CLIENT_ID_GCP_SECRET_VERSION E) = false).
    { rewrite _get_client_id_from_secret_unfold in Hres. cbn [logged self] in Hres.
      rewrite Hm in Hres. destruct (setting_falsy _); [discriminate|reflexivity]. }
    assert (Hid : _client_id (self (snd (get_id_token E PNone w))) = v).
    { rewrite get_id_token_phases.
      unfold settle_audience. simpl is_None. cbv iota.
      rewrite client_id_unfold. simpl self. rewrite Hm, Hres.
      pose proof (cached_or_refresh_frame E v (with_client_id v w1)) as Hf.
      cbv zeta in Hf. destruct Hf as (Hid & _). rewrite Hid. reflexivity. }
    split; [exact Hid|].
    split; [exact (get_id_token_resolves_once E w Hm Hcfg)|].
    split.
    + intros Hv ops. cbv zeta.
      assert (Hm' : truthy (_client_id (self (snd (get_id_token E PNone w)))) = true)
        by (rewrite Hid; exact Hv).
      destruct (run_operations_keep_memo E ops _ Hm') as (Hid' & d & Hd & Hr).
      split; [congruence|]. rewrite (since_app _ _ _ Hd). exact Hr.
    + intros Hv ops Hall. cbv zeta.
      destruct (run_operations_supplied_keep_memo E ops (snd (get_id_token E PNone w)) Hall)
        as (Hid' & d & Hd & Hr).
      split; [congruence|]. split; [rewrite (since_app _ _ _ Hd); exact Hr|].
      apply get_id_token_resolves_once; [|exact Hcfg].
      rewrite Hid', Hid. exact Hv.
  - intros e w1 Hm Hres.
    pose proof (_get_client_id_from_secret_frame E (logged w (EvGetIdToken PNone))) as Hf.
    cbv zeta in Hf. rewrite Hres in Hf. simpl in Hf. destruct Hf as (Hs & _).
    split; [|split; [exact Hs|]].
    + rewrite get_id_token_phases. unfold settle_audience. simpl is_None. cbv iota.
      rewrite client_id_unfold. simpl self. rewrite Hm, Hres. reflexivity.
    + intros Hcfg. apply get_id_token_resolves_once; [|exact Hcfg].
      rewrite Hs. exact Hm.
Qed.

(** After a first call has resolved [client-1], four more calls make
    no lookup. *)
Lemma client_id_is_memoized_witness :
  let w := snd (get_id_token env0 PNone world0) in
  let w' := run_operations env0
              [op_get_id_token PNone; op_clear_cached_token;
               op_get_id_token PNone; op_get_id_token (PStr "aud-B")] w in
  count is_resolution (since world0 w) = 1%nat /\
  _client_id (self w') = PStr "client-1" /\
  count is_resolution (since w w') = 0%nat.
Proof.
  cbv zeta. split; [vm_compute; reflexivity|].
  destruct (client_id_is_memoized env0 (snd (get_id_token env0 PNone world0)))
    as (H & _).
  destruct (H [op_get_id_token PNone; op_clear_cached_token;
               op_get_id_token PNone; op_get_id_token (PStr "aud-B")] eq_refl)
    as (Hid & Hr).
  split; [rewrite Hid; vm_compute; reflexivity|exact Hr].
Defined.

(** A resolution that succeeds with an empty client id is not
    remembered: with an empty secret the first call resolves the empty
    text and is served a token, and the second call makes the lookup
    again. *)
Lemma client_id_is_memoized_counterexample :
  let w1 := snd (get_id_token (env_secret "") PNone world0) in
  let w2 := snd (get_id_token (env_secret "") PNone w1) in
  fst (_get_client_id_from_secret (env_secret "") world0) = inr (PStr "") /\
  fst (get_id_token (env_secret "") PNone world0) = inr (example_token 0) /\
  _client_id (self w1) = PStr "" /\
  count is_resolution (since world0 w1) = 1%nat /\
  count is_resolution (since w1 w2) = 1%nat.
Proof. vm_compute. repeat split. Qed.

(** ** The request flow *)

Lemma same_name_refl (a : string) : same_name a a = true.
Proof. unfold same_name. apply String.eqb_refl. Qed.

Lemma same_name_trans (a b c : string) :
  same_name a b = true -> same_name b c = true -> same_name a c = true.
Proof.
  unfold same_name. rewrite !String.eqb_eq. congruence.
Qed.

Lemma same_name_sym (a b : string) : same_name a b = same_name b a.
Proof. unfold same_name. apply String.eqb_sym. Qed.

Lemma header_values_other_names (name : string) (hs : list (string * string)) :
  header_values name (other_names name hs) = [].
Proof.
  unfold header_values, other_names.
  induction hs as [|[k v] hs IH]; simpl; [reflexivity|].
  destruct (same_name k name) eqn:Hk; simpl; [exact IH|].
  rewrite Hk. exact IH.
Qed.

Lemma other_names_idem (name : string) (hs : list (string * string)) :
  other_names name (other_names name hs) = other_names name hs.
Proof.
  unfold other_names.
  induction hs as [|[k v] hs IH]; simpl; [reflexivity|].
  destruct (same_name k name) eqn:Hk; simpl; [exact IH|].
  rewrite Hk. simpl. rewrite IH. reflexivity.
Qed.

(** After [headers[name] = value] the name has the one value. *)
Lemma header_values_setitem (name value : string) (hs : list (string * string)) :
  header_values name (headers_setitem name value hs) = [value].
Proof.
  induction hs as [|[k v] hs IH]; simpl.
  - unfold header_values. simpl. rewrite same_name_refl. reflexivity.
  - destruct (same_name k name) eqn:Hk.
    + unfold header_values. simpl. rewrite same_name_refl. simpl.
      f_equal. exact (header_values_other_names name hs).
    + unfold header_values in *. simpl. rewrite Hk. exact IH.
Qed.

(** The entries of every other name are kept, in their order. *)
Lemma other_names_setitem (name value : string) (hs : list (string * string)) :
  other_names name (headers_setitem name value hs) = other_names name hs.
Proof.
  induction hs as [|[k v] hs IH]; simpl.
  - unfold other_names. simpl. rewrite same_name_refl. reflexivity.
  - destruct (same_name k name) eqn:Hk.
    + unfold other_names at 1. simpl. rewrite same_name_refl. simpl.
      fold (other_names name (other_names name hs)). apply other_names_idem.
    + unfold other_names in *. simpl. rewrite Hk. simpl. rewrite IH. reflexivity.
Qed.

Lemma header_values_of_other_names (k name : string) (hs : list (string * string)) :
  same_name k name = false ->
  header_values k (other_names name hs) = header_values k hs.
Proof.
  intros Hk. unfold header_values, other_names.
  induction hs as [|[k' v] hs IH]; simpl; [reflexivity|].
  destruct (same_name k' name) eqn:Hn; simpl.
  - destruct (same_name k' k) eqn:Hkk; [|exact IH].
    rewrite same_name_sym in Hkk.
    rewrite (same_name_trans k k' name Hkk Hn) in Hk. discriminate.
  - destruct (same_name k' k); simpl; rewrite IH; reflexivity.
Qed.

Lemma get_header_set_header (name value : string) (r : Request) :
  get_header name (set_header name value r) = Some value.
Proof.
  unfold get_header, set_header. simpl. rewrite header_values_setitem.
  simpl. reflexivity.
Qed.

Lemma get_header_set_header_other (k name value : string) (r : Request) :
  same_name k name = false ->
  get_header k (set_header name value r) = get_header k r.
Proof.
  intros Hk. unfold get_header, set_header. simpl.
  rewrite <- (header_values_of_other_names k name (headers_setitem _ _ _) Hk).
  rewrite other_names_setitem.
  rewrite (header_values_of_other_names k name _ Hk). reflexivity.
Qed.

Lemma refresh_calls (E : Env) (audience : pyval) (w : World) :
  exists d, history (snd (refresh E audience w)) = history w ++ d /\
            forallb is_collaborator_call d = true.
Proof.
  rewrite refresh_cases.
  destruct (setting_falsy _).
  { exists []. rewrite app_nil_r. auto. }
  pose proof (_get_application_credentials_frame E w) as Hf. cbv zeta in Hf.
  destruct Hf as (_ & _ & d & Hd & Hall).
  assert (Hall' : forallb is_collaborator_call d = true).
  { apply (forallb_weaken is_cred_event); [|exact Hall]. intros []; simpl; congruence. }
  destruct (_get_application_credentials E w) as [[e|c] w1]; simpl in Hd.
  { exists d. auto. }
  cbv zeta.
  destruct (issuance_answer E audience c (history w1)) as [e|resp];
    [|destruct (token_of resp) as [e|tok]]; simpl; rewrite Hd, <- ?app_assoc;
    (eexists; split; [reflexivity|]); apply forallb_app_true; auto.
Qed.

Lemma get_id_token_calls (E : Env) (audience : pyval) (w : World) :
  exists d, history (snd (get_id_token E audience w))
            = history w ++ EvGetIdToken audience :: d /\
            forallb is_collaborator_call d = true.
Proof.
  rewrite get_id_token_phases.
  pose proof (settle_audience_frame E audience (logged w (EvGetIdToken audience))) as Hs.
  cbv zeta in Hs. destruct Hs as (_ & _ & (d1 & Hd1 & Hall1 & _) & _).
  simpl in Hd1. rewrite <- app_assoc in Hd1. simpl in Hd1.
  assert (Hall1' : forallb is_collaborator_call d1 = true).
  { apply (forallb_weaken is_resolution); [|exact Hall1]. intros []; simpl; congruence. }
  destruct (settle_audience E audience (logged w (EvGetIdToken audience)))
    as [[e|aud] w1]; simpl in Hd1.
  { exists d1. auto. }
  destruct (cache_hit (time_time E (history w1 ++ [EvTime])) (self w1)) eqn:Hhit.
  - rewrite (cached_or_refresh_hit _ _ _ Hhit). simpl.
    exists (d1 ++ [EvTime]). rewrite Hd1, <- app_assoc. split; [reflexivity|].
    apply forallb_app_true; auto.
  - rewrite (cached_or_refresh_miss _ _ _ Hhit).
    destruct (refresh_calls E aud (after_cache_test w1)) as (d & Hd & Hall).
    destruct (after_cache_test_frame w1) as (_ & d0 & Hd0 & Hall0).
    assert (Hall0' : forallb is_collaborator_call d0 = true).
    { unfold after_cache_test in Hd0. destruct (truthy _); simpl in Hd0.
      - apply app_inv_head in Hd0. subst d0. reflexivity.
      - rewrite <- (app_nil_r (history w1)) in Hd0 at 1.
        apply app_inv_head in Hd0. subst d0. reflexivity. }
    exists (d1 ++ d0 ++ d). rewrite Hd, Hd0, Hd1, <- !app_assoc. split; [reflexivity|].
    repeat apply forallb_app_true; auto.
Qed.

Lemma get_id_token_from_empty_cache (E : Env) (audience : pyval) (w : World)
    (tok : pyval) (w' : World) :
  truthy (_cached_token (self w)) = false ->
  get_id_token E audience w = (inr tok, w') ->
  count is_issuance (since w w') = 1%nat.
Proof.
  intros Hempty. rewrite get_id_token_phases.
  pose proof (settle_audience_frame E audience (logged w (EvGetIdToken audience))) as Hs.
  cbv zeta in Hs. destruct Hs as ([Hc _] & _ & (d1 & Hd1 & Hall1 & _) & _).
  simpl in Hd1. rewrite <- app_assoc in Hd1. simpl in Hd1.
  destruct (settle_audience E audience (logged w (EvGetIdToken audience)))
    as [[e|aud] w1]; [discriminate|]. simpl in Hd1, Hc.
  assert (Hmiss : cache_hit (time_time E (history w1 ++ [EvTime])) (self w1) = false).
  { apply cache_hit_false. left. rewrite Hc. exact Hempty. }
  rewrite (cached_or_refresh_miss _ _ _ Hmiss).
  unfold after_cache_test. rewrite Hc, Hempty.
  intros Hr.
  pose proof (refresh_frame E aud w1) as Hf. cbv zeta in Hf. rewrite Hr in Hf.
  simpl in Hf. destruct Hf as (_ & (d & Hd & _ & _ & Hone & _) & _).
  rewrite (since_app w w' (([EvGetIdToken audience] ++ d1) ++ d)).
  2:{ rewrite Hd, Hd1, <- !app_assoc. reflexivity. }
  rewrite !count_app, (count_zero is_issuance _ d1 resolution_not_issuance Hall1).
  simpl. apply (Hone tok). reflexivity.
Qed.

Lemma async_auth_flow_is_sync (E : Env) (auth : IAPAuth.t) :
  IAPAuth.async_auth_flow E auth = IAPAuth.sync_auth_flow E auth.
Proof. reflexivity. Qed.

Lemma sync_auth_flow_start (E : Env) (auth : IAPAuth.t) (request : Request) (w : World) :
  IAPAuth.sync_auth_flow E auth (IAPAuth.new_generator request) None w =
  match get_id_token E PNone w with
  | (inl e, w1) => (inl e, w1)
  | (inr tok, w1) =>
      (inr (IAPAuth.Yield (with_bearer E auth tok request),
            {| IAPAuth.at_ := IAPAuth.AtFirstYield;
               IAPAuth.request := with_bearer E auth tok request |}), w1)
  end.
Proof.
  unfold IAPAuth.sync_auth_flow, IAPAuth.new_generator, with_bearer. simpl.
  unfold bind, ret. destruct (get_id_token E PNone w) as [[e|tok] w1]; reflexivity.
Qed.

Lemma sync_auth_flow_first_response (E : Env) (auth : IAPAuth.t) (request : Request)
    (response : Response) (w : World) :
  IAPAuth.sync_auth_flow E auth
    {| IAPAuth.at_ := IAPAuth.AtFirstYield; IAPAuth.request := request |}
    (Some response) w =
  if (status_code response =? 401)%Z then
    match get_id_token E PNone (snd (clear_cached_token w)) with
    | (inl e, w1) => (inl e, w1)
    | (inr tok, w1) =>
        (inr (IAPAuth.Yield (with_bearer E auth tok request),
              {| IAPAuth.at_ := IAPAuth.AtSecondYield;
                 IAPAuth.request := with_bearer E auth tok request |}), w1)
    end
  else
    (inr (IAPAuth.StopIteration,
          {| IAPAuth.at_ := IAPAuth.Exhausted; IAPAuth.request := request |}), w).
Proof.
  unfold IAPAuth.sync_auth_flow, with_bearer. cbn [IAPAuth.at_ IAPAuth.request].
  destruct (status_code response =? 401)%Z; [|reflexivity].
  destruct w as [[tok ex cr cid] h].
  unfold clear_cached_token. unfold_monad.
  destruct (get_id_token E PNone _) as [[e|tok'] w1]; reflexivity.
Qed.

Lemma sync_auth_flow_second_response (E : Env) (auth : IAPAuth.t) (request : Request)
    (sent : option Response) (w : World) :
  IAPAuth.sync_auth_flow E auth
    {| IAPAuth.at_ := IAPAuth.AtSecondYield; IAPAuth.request := request |} sent w =
  (inr (IAPAuth.StopIteration,
        {| IAPAuth.at_ := IAPAuth.Exhausted; IAPAuth.request := request |}), w).
Proof. reflexivity. Qed.

Lemma send_loop_step (E : Env)
    (flow : IAPAuth.generator -> option Response -> M (IAPAuth.resumed * IAPAuth.generator))
    (fuel : nat) (g : IAPAuth.generator) (request : Request) (w : World) :
  IAPAuth.send_loop E flow (S fuel) g request w =
  match transport E request (history w ++ [EvSend request]) with
  | inl e => (inl e, logged w (EvSend request))
  | inr response =>
      match flow g (Some response) (logged w (EvSend request)) with
      | (inl e, w') => (inl e, w')
      | (inr (IAPAuth.StopIteration, _), w') => (inr (Some response), w')
      | (inr (IAPAuth.Yield next_request, g'), w') =>
          IAPAuth.send_loop E flow fuel g' next_request w'
      end
  end.
Proof.
  destruct w as [s h]. cbn [IAPAuth.send_loop]. unfold_monad.
  destruct (transport E request (h ++ [EvSend request])) as [e|response];
    [reflexivity|].
  destruct (flow g (Some response) _) as [[e|[[nr|] g']] w']; reflexivity.
Qed.

(** The whole exchange for one request, given two dispatches of fuel
    or more. *)
Lemma send_handling_auth_unfold (E : Env) (auth : IAPAuth.t) (fuel : nat)
    (request : Request) (w : World) :
  IAPAuth.send_handling_auth E (IAPAuth.sync_auth_flow E auth) (S (S fuel)) request w =
  match get_id_token E PNone w with
  | (inl e, w1) => (inl e, w1)
  | (inr tok1, w1) =>
      let req1 := with_bearer E auth tok1 request in
      let wa := logged w1 (EvSend req1) in
      match transport E req1 (history w1 ++ [EvSend req1]) with
      | inl e => (inl e, wa)
      | inr resp1 =>
          if (status_code resp1 =? 401)%Z then
            match get_id_token E PNone (snd (clear_cached_token wa)) with
            | (inl e, wc) => (inl e, wc)
            | (inr tok2, wc) =>
                let req2 := with_bearer E auth tok2 req1 in
                match transport E req2 (history wc ++ [EvSend req2]) with
                | inl e => (inl e, logged wc (EvSend req2))
                | inr resp2 => (inr (Some resp2), logged wc (EvSend req2))
                end
            end
          else (inr (Some resp1), wa)
      end
  end.
Proof.
  unfold IAPAuth.send_handling_auth. unfold bind at 1.
  rewrite sync_auth_flow_start.
  destruct (get_id_token E PNone w) as [[e|tok1] w1]; [reflexivity|].
  cbn [fst snd]. cbv zeta. rewrite send_loop_step.
  destruct (transport E _ (history w1 ++ _)) as [e|resp1]; [reflexivity|].
  rewrite sync_auth_flow_first_response.
  destruct (status_code resp1 =? 401)%Z; [|reflexivity].
  destruct (get_id_token E PNone _) as [[e|tok2] wc]; [reflexivity|].
  rewrite send_loop_step.
  destruct (transport E _ (history wc ++ _)) as [e|resp2]; [reflexivity|].
  rewrite sync_auth_flow_second_response. reflexivity.
Qed.

Lemma collaborator_calls_not_counted (d : list event) :
  forallb is_collaborator_call d = true ->
  count is_dispatch d = 0%nat /\ count is_invalidation d = 0%nat /\
  count is_acquisition d = 0%nat.
Proof.
  intros H. repeat split; apply (count_zero _ is_collaborator_call); auto;
    intros []; simpl; congruence.
Qed.

Lemma clear_cached_token_history (w : World) :
  history (snd (clear_cached_token w)) = history w ++ [EvClearCachedToken] /\
  truthy (_cached_token (self (snd (clear_cached_token w)))) = false.
Proof. destruct w as [[tok ex cr cid] h]. split; reflexivity. Qed.

Ltac count_flow :=
  rewrite ?count_app;
  repeat match goal with
         | H : forallb is_collaborator_call ?d = true |- _ =>
             destruct (collaborator_calls_not_counted d H) as (? & ? & ?); clear H
         end;
  repeat match goal with
         | H : count _ _ = 0%nat |- _ => rewrite H
         end;
  reflexivity.

(** C2, as the code has it. A request whose first acquisition
    succeeded is dispatched with the bearer header. If the first
    response is not a 401 it is returned, with no invalidation, no
    second acquisition and no second dispatch. If it is a 401, the
    cache is invalidated exactly once and [get_id_token] is called
    exactly once more; when that call fails its error is the outcome
    and nothing is dispatched again; when it succeeds (by exactly one
    issuance call) the header is set from the new token, the request is
    dispatched exactly once more, and the second response is the
    outcome whatever its status. Two dispatches of fuel are enough for
    every run, and the blocking and cooperative flows agree. *)
Theorem auth_flow_retries_once (E : Env) (auth : IAPAuth.t)
    (flow : IAPAuth.generator -> option Response -> M (IAPAuth.resumed * IAPAuth.generator))
    (fuel : nat) (request : Request) (w : World)
    (tok1 : pyval) (w1 : World) (resp1 : Response) :
  flow = IAPAuth.sync_auth_flow E auth \/ flow = IAPAuth.async_auth_flow E auth ->
  get_id_token E PNone w = (inr tok1, w1) ->
  let req1 := with_bearer E auth tok1 request in
  let wa := logged w1 (EvSend req1) in
  transport E req1 (history w1 ++ [EvSend req1]) = inr resp1 ->
  let run := IAPAuth.send_handling_auth E flow (S (S fuel)) request w in
  (status_code resp1 <> 401 ->
   run = (inr (Some resp1), wa) /\
   count is_invalidation (since w wa) = 0%nat /\
   count is_acquisition (since w wa) = 1%nat /\
   count is_dispatch (since w wa) = 1%nat) /\
  (status_code resp1 = 401 ->
   let wb := snd (clear_cached_token wa) in
   count is_invalidation (since w (snd run)) = 1%nat /\
   count is_acquisition (since w (snd run)) = 2%nat /\
   (forall e wc, get_id_token E PNone wb = (inl e, wc) ->
      run = (inl e, wc) /\ count is_dispatch (since w wc) = 1%nat) /\
   (forall tok2 wc, get_id_token E PNone wb = (inr tok2, wc) ->
      let req2 := with_bearer E auth tok2 req1 in
      let wd := logged wc (EvSend req2) in
      snd run = wd /\
      count is_dispatch (since w wd) = 2%nat /\
      count is_issuance (since wb wc) = 1%nat /\
      get_header (IAPAuth.auth_header_name auth) req2
        = Some ("Bearer " +:+ py_str E tok2) /\
      (forall resp2, transport E req2 (history wc ++ [EvSend req2]) = inr resp2 ->
         fst run = inr (Some resp2)) /\
      (forall e, transport E req2 (history wc ++ [EvSend req2]) = inl e ->
         fst run = inl e))).
Proof.
  intros Hflow H1 req1 wa Ht run.
  assert (Hrun : run = IAPAuth.send_handling_auth E (IAPAuth.sync_auth_flow E auth)
                         (S (S fuel)) request w).
  { unfold run. destruct Hflow as [-> | ->]; [reflexivity|].
    rewrite async_auth_flow_is_sync. reflexivity. }
  rewrite send_handling_auth_unfold, H1 in Hrun. cbv zeta in Hrun.
  fold req1 in Hrun. rewrite Ht in Hrun. fold wa in Hrun.
  clearbody run.
  destruct (get_id_token_calls E PNone w) as (da & Hda & Halla).
  rewrite H1 in Hda. simpl in Hda.
  assert (Hwa : history wa = history w ++ ([EvGetIdToken PNone] ++ da) ++ [EvSend req1]).
  { unfold wa. simpl. rewrite Hda, <- !app_assoc. reflexivity. }
  split.
  - intros Hstatus. apply Z.eqb_neq in Hstatus. rewrite Hstatus in Hrun.
    split; [exact Hrun|].
    rewrite (since_app w wa _ Hwa).
    repeat split; count_flow.
  - intros Hstatus. apply Z.eqb_eq in Hstatus. rewrite Hstatus in Hrun.
    cbv zeta.
    destruct (clear_cached_token_history wa) as [Hwb Hempty].
    remember (snd (clear_cached_token wa)) as wb eqn:Ewb.
    destruct (get_id_token_calls E PNone wb) as (db & Hdb & Hallb).
    destruct (get_id_token E PNone wb) as [[e|tok2] wc] eqn:H2; simpl in Hdb.
    + subst run. simpl snd.
      assert (Hwc : history wc = history w ++ ([EvGetIdToken PNone] ++ da) ++
                    [EvSend req1] ++ [EvClearCachedToken] ++ [EvGetIdToken PNone] ++ db).
      { rewrite Hdb, Hwb, Hwa, <- !app_assoc. reflexivity. }
      rewrite (since_app w wc _ Hwc).
      split; [count_flow|]. split; [count_flow|].
      split.
      * intros e' wc' He. inversion He; subst. split; [reflexivity|].
        rewrite (since_app w wc' _ Hwc). count_flow.
      * intros tok2 wc' He. discriminate.
    + assert (Hwd : forall x, history (logged wc x) =
                    history w ++ ([EvGetIdToken PNone] ++ da) ++
                    [EvSend req1] ++ [EvClearCachedToken] ++
                    ([EvGetIdToken PNone] ++ db) ++ [x]).
      { intros x. simpl. rewrite Hdb, Hwb, Hwa, <- !app_assoc. reflexivity. }
      assert (Hsnd : snd run = logged wc (EvSend (with_bearer E auth tok2 req1))).
      { subst run. destruct (transport E _ (history wc ++ _)); reflexivity. }
      rewrite Hsnd, (since_app w _ _ (Hwd _)).
      split; [count_flow|]. split; [count_flow|].
      split.
      * intros e wc' He. discriminate.
      * intros tok2' wc' He. inversion He; subst tok2' wc'. cbv zeta.
        split; [reflexivity|].
        rewrite (since_app w _ _ (Hwd _)).
        split; [count_flow|].
        split; [exact (get_id_token_from_empty_cache E PNone wb tok2 wc Hempty H2)|].
        split; [unfold with_bearer; apply get_header_set_header|].
        split.
        -- intros resp2 Hresp. subst run. rewrite Hresp. reflexivity.
        -- intros e Hresp. subst run. rewrite Hresp. reflexivity.
Qed.

(** Against a service that rejects every request, the second 401 is
    returned after exactly two dispatches, one invalidation and two
    acquisitions. *)
Lemma auth_flow_retries_once_witness :
  let auth := IAPAuth.init env_rejecting None in
  let run := IAPAuth.send_handling_auth env_rejecting
               (IAPAuth.sync_auth_flow env_rejecting auth) 2 empty_request world0 in
  fst run = inr (Some (reply 401)) /\
  count is_dispatch (since world0 (snd run)) = 2%nat /\
  count is_invalidation (since world0 (snd run)) = 1%nat /\
  count is_acquisition (since world0 (snd run)) = 2%nat.
Proof.
  cbv zeta.
  destruct (auth_flow_retries_once env_rejecting (IAPAuth.init env_rejecting None)
              (IAPAuth.sync_auth_flow env_rejecting (IAPAuth.init env_rejecting None))
              0 empty_request world0 (example_token 0)
              (snd (get_id_token env_rejecting PNone world0)) (reply 401))
    as [_ H].
  - left. reflexivity.
  - vm_compute. reflexivity.
  - vm_compute. reflexivity.
  - destruct (H eq_refl) as (Hinv & Hacq & _ & Hok).
    split; [vm_compute; reflexivity|].
    split; [vm_compute; reflexivity|].
    split; [exact Hinv|exact Hacq].
Defined.

(** When the re-acquisition fails, the request is not dispatched a
    second time: with an issuer that serves one token only, a 401 is
    followed by one invalidation and one failed acquisition, and the
    caller gets the issuer's error after a single dispatch. *)
Lemma auth_flow_retries_once_counterexample :
  let auth := IAPAuth.init env_rejecting_one_token None in
  let run := IAPAuth.send_handling_auth env_rejecting_one_token
               (IAPAuth.sync_auth_flow env_rejecting_one_token auth) 2
               empty_request world0 in
  fst run = inl (ExternalError "connect") /\
  count is_invalidation (since world0 (snd run)) = 1%nat /\
  count is_acquisition (since world0 (snd run)) = 2%nat /\
  count is_dispatch (since world0 (snd run)) = 1%nat.
Proof. vm_compute. repeat split. Qed.

(** ** Concurrent callers *)

Lemma lookup_updated_caller (l : list caller) (i j : nat) (c c' cj : caller) :
  l !! i = Some c ->
  <[i := c']> l !! j = Some cj ->
  (j = i /\ cj = c') \/ (j <> i /\ l !! j = Some cj).
Proof.
  intros Hi Hj. destruct (decide (j = i)) as [->|Hne].
  - left. split; [reflexivity|].
    rewrite list_lookup_insert_eq in Hj by (eapply lookup_lt_Some; exact Hi).
    congruence.
  - right. split; [exact Hne|].
    rewrite list_lookup_insert_ne in Hj by congruence. exact Hj.
Qed.

Lemma lookup_start (w : World) (ms : list method) (i : nat) (c : caller) :
  callers (start w ms) !! i = Some c -> pc c = Pending.
Proof.
  unfold start. simpl. revert i. induction ms as [|m ms IH]; intros i H.
  - destruct i; discriminate.
  - destruct i as [|i]; simpl in H.
    + inversion H. reflexivity.
    + exact (IH i H).
Qed.

Lemma lock_invariant_start (w : World) (ms : list method) :
  lock_invariant (start w ms).
Proof.
  split.
  - intros i c Hc Hpc. rewrite (lookup_start w ms i c Hc) in Hpc. discriminate.
  - intros i n H. discriminate.
Qed.

Lemma rlock_acquire_free (s : Shared) (i : nat) (c : caller) (l : option (nat * nat)) :
  lock_invariant s ->
  callers s !! i = Some c -> pc c <> InBody ->
  rlock_acquire i (sync_lock s) = Some l ->
  sync_lock s = None /\ l = Some (i, 1%nat).
Proof.
  intros [_ Hown] Hc Hpc Hacq. unfold rlock_acquire in Hacq.
  destruct (sync_lock s) as [[o n]|] eqn:Hl.
  - destruct (Nat.eqb o i) eqn:Ho; [|discriminate].
    apply Nat.eqb_eq in Ho. subst o.
    destruct (Hown i n eq_refl) as (c' & Hc' & Hpc'). congruence.
  - inversion Hacq. auto.
Qed.

Lemma lock_invariant_enter (s : Shared) (i : nat) (c : caller) (w : World)
    (a : option nat) :
  lock_invariant s ->
  callers s !! i = Some c -> pc c <> InBody -> sync_lock s = None ->
  lock_invariant {| world := w; sync_lock := Some (i, 1%nat); async_lock := a;
                    callers := <[i := set_pc InBody c]> (callers s) |}.
Proof.
  intros [Hin Hown] Hc Hpc Hfree. split; simpl.
  - intros j cj Hj Hpcj.
    destruct (lookup_updated_caller _ _ _ _ _ _ Hc Hj) as [[-> _]|[Hne Hj']].
    + reflexivity.
    + rewrite (Hin j cj Hj' Hpcj) in Hfree. discriminate.
  - intros j n H. inversion H; subst j n.
    exists (set_pc InBody c). split; [|reflexivity].
    apply list_lookup_insert_eq. eapply lookup_lt_Some. exact Hc.
Qed.

Lemma lock_invariant_bystander (s : Shared) (i : nat) (c : caller) (p : progress)
    (w : World) (a : option nat) :
  lock_invariant s ->
  callers s !! i = Some c -> pc c <> InBody -> p <> InBody ->
  lock_invariant {| world := w; sync_lock := sync_lock s; async_lock := a;
                    callers := <[i := set_pc p c]> (callers s) |}.
Proof.
  intros [Hin Hown] Hc Hpc Hp. split; simpl.
  - intros j cj Hj Hpcj.
    destruct (lookup_updated_caller _ _ _ _ _ _ Hc Hj) as [[-> ->]|[Hne Hj']].
    + simpl in Hpcj. congruence.
    + exact (Hin j cj Hj' Hpcj).
  - intros j n H. destruct (Hown j n H) as (cj & Hj & Hpcj).
    exists cj. split; [|exact Hpcj].
    rewrite list_lookup_insert_ne; [exact Hj|]. intros ->. congruence.
Qed.

Lemma lock_invariant_leave (s : Shared) (i : nat) (c : caller) (p : progress)
    (w : World) (a : option nat) :
  lock_invariant s ->
  callers s !! i = Some c -> pc c = InBody -> p <> InBody ->
  lock_invariant {| world := w; sync_lock := rlock_release (sync_lock s);
                    async_lock := a;
                    callers := <[i := set_pc p c]> (callers s) |}.
Proof.
  intros [Hin Hown] Hc Hpc Hp. rewrite (Hin i c Hc Hpc). simpl. split; simpl.
  - intros j cj Hj Hpcj.
    destruct (lookup_updated_caller _ _ _ _ _ _ Hc Hj) as [[-> ->]|[Hne Hj']].
    + simpl in Hpcj. congruence.
    + pose proof (Hin j cj Hj' Hpcj) as H1. pose proof (Hin i c Hc Hpc) as H2.
      congruence.
  - intros j n H. discriminate.
Qed.

Lemma lock_invariant_step (E : Env) (s s' : Shared) :
  lock_invariant s -> step E s s' -> lock_invariant s'.
Proof.
  intros Hinv Hstep. destruct Hstep as
    [i c l s Hc Hk Hpc Hacq | i c s Hc Hk Hpc Hfree | i c l s Hc Hpc Hacq
    | i c r w' s Hc Hpc Hbody | i c r s Hc Hpc].
  - assert (Hn : pc c <> InBody) by congruence.
    destruct (rlock_acquire_free s i c l Hinv Hc Hn Hacq) as [Hfree ->].
    apply lock_invariant_enter; assumption.
  - apply lock_invariant_bystander; try assumption; congruence.
  - assert (Hn : pc c <> InBody) by congruence.
    destruct (rlock_acquire_free s i c l Hinv Hc Hn Hacq) as [Hfree ->].
    apply lock_invariant_enter; assumption.
  - apply lock_invariant_leave; try assumption. destruct (is_async (meth c)); discriminate.
  - apply lock_invariant_bystander; try assumption; congruence.
Qed.

Lemma lock_invariant_steps (E : Env) (s s' : Shared) :
  lock_invariant s -> steps E s s' -> lock_invariant s'.
Proof.
  intros Hinv Hsteps. induction Hsteps as [s|s1 s2 s3 _ IH Hstep]; [exact Hinv|].
  exact (lock_invariant_step E s2 s3 (IH Hinv) Hstep).
Qed.

Lemma at_most_one_in_body (s : Shared) (i j : nat) (ci cj : caller) :
  lock_invariant s ->
  callers s !! i = Some ci -> callers s !! j = Some cj ->
  pc ci = InBody -> pc cj = InBody -> i = j.
Proof.
  intros [Hin _] Hi Hj Hpi Hpj.
  pose proof (Hin i ci Hi Hpi) as H1. pose proof (Hin j cj Hj Hpj) as H2.
  congruence.
Qed.

Lemma body_is_get_id_token (E : Env) (m : method) :
  is_get m = true -> exists a, body E m = get_id_token E a.
Proof. destruct m as [a|a|]; simpl; intros H; [exists a|exists a|discriminate]; reflexivity. Qed.

Lemma exec_step (E : Env) (i : nat) (s s' : Shared) :
  exec E i s = Some s' -> step E s s'.
Proof.
  unfold exec. destruct (callers s !! i) as [c|] eqn:Hc; [|discriminate].
  destruct (pc c) as [| | |r|r] eqn:Hpc.
  - destruct (is_async (meth c)) eqn:Hk.
    + destruct (async_lock s) eqn:Ha; [discriminate|].
      intros H. inversion H. apply step_async_acquire; assumption.
    + destruct (rlock_acquire i (sync_lock s)) as [l|] eqn:Hl; [|discriminate].
      intros H. inversion H. apply step_enter; assumption.
  - destruct (rlock_acquire i (sync_lock s)) as [l|] eqn:Hl; [|discriminate].
    intros H. inversion H. apply step_worker_enter; assumption.
  - intros H. inversion H. apply step_body; [assumption|assumption|].
    destruct (body E (meth c) (world s)); reflexivity.
  - intros H. inversion H. apply (step_async_release E i c r); assumption.
  - discriminate.
Qed.

Lemma exec_schedule_steps (E : Env) (sched : list nat) (s0 s : Shared) :
  steps E s0 s -> steps E s0 (exec_schedule E sched s).
Proof.
  revert s. induction sched as [|i sched IH]; intros s Hs; simpl; [exact Hs|].
  destruct (exec E i s) as [s'|] eqn:He.
  - apply IH. eapply steps_step; [exact Hs|]. exact (exec_step E i s s' He).
  - apply IH. exact Hs.
Qed.

Lemma env0_healthy : healthy env0 1000.
Proof.
  unfold healthy. split; [reflexivity|]. split; [|split; [|split]].
  - intros a w. unfold settle_audience. destruct (is_None a); [|eauto].
    rewrite client_id_unfold. destruct (truthy (_client_id (self w))) eqn:Hm; [eauto|].
    rewrite _get_client_id_from_secret_unfold, Hm. eexists. eexists. reflexivity.
  - intros w. rewrite _get_application_credentials_unfold.
    destruct (_credentials (self w)); eexists; eexists; reflexivity.
  - intros aud c h. eexists. eexists. split; [reflexivity|]. split; reflexivity.
  - intros h. simpl. lia.
Qed.

(** ** Interrupted calls *)

Lemma run_refresh_task (E : Env) (aud : pyval) (w : World) :
  run (refresh_task E aud) w = refresh E aud w.
Proof.
  unfold refresh_task, refresh. cbn [run]. unfold_monad.
  destruct (_generate_id_token E aud w) as [[e|[tok ex]] [s h]]; [reflexivity|].
  unfold store_and_return, store_token_expiry, return_cached_token.
  cbn [run]. unfold_monad. reflexivity.
Qed.

Lemma run_cache_test_task (E : Env) (aud : pyval) (w : World) :
  run (cache_test_task E aud) w = cached_or_refresh E aud w.
Proof.
  destruct w as [[tok ex cr cid] h].
  unfold cache_test_task, cached_or_refresh, _is_token_expired, cache_hit.
  cbn [run]. unfold_monad.
  destruct (truthy tok); cbn [andb].
  - destruct (_ >=? _)%Z; cbn [negb].
    + apply run_refresh_task.
    + reflexivity.
  - apply run_refresh_task.
Qed.

Lemma run_get_id_token_task (E : Env) (a : pyval) (w : World) :
  run (get_id_token_task E a) w = get_id_token E a w.
Proof.
  rewrite get_id_token_phases. unfold get_id_token_task, settle_audience.
  cbn [run]. unfold_monad.
  change {| self := self w; history := history w ++ [EvGetIdToken a] |}
    with (logged w (EvGetIdToken a)).
  destruct (is_None a).
  - destruct (client_id E _) as [[e|aud] w1]; [reflexivity|]. apply run_cache_test_task.
  - apply run_cache_test_task.
Qed.

(** Run without interruption, the statements of a body are the body. *)
Lemma run_body_task (E : Env) : cuts_bodies E (body_task E).
Proof.
  intros m w. destruct m as [a|a|]; cbn [body_task body].
  - apply run_get_id_token_task.
  - apply run_get_id_token_task.
  - destruct w as [[tok ex cr cid] h].
    unfold clear_cached_token_task, clear_token_expiry, clear_cached_token.
    cbn [run]. unfold_monad. reflexivity.
Qed.

Lemma lookup_erased (f : Threads.Shared) (s : Shared) (i : nat) :
  callers s = map erase_caller (Threads.callers f) ->
  callers s !! i = erase_caller <$> (Threads.callers f !! i).
Proof.
  intros ->. revert i. induction (Threads.callers f) as [|c l IH]; intros [|i]; simpl; auto.
Qed.

Lemma map_insert_erased (l : list Threads.caller) (i : nat) (c : Threads.caller) :
  map erase_caller (<[i := c]> l) = <[i := erase_caller c]> (map erase_caller l).
Proof.
  revert i. induction l as [|x l IH]; intros [|i]; simpl; auto.
  rewrite IH. reflexivity.
Qed.

Lemma insert_same (l : list caller) (i : nat) (c : caller) :
  l !! i = Some c -> <[i := c]> l = l.
Proof.
  revert i. induction l as [|x l IH]; intros [|i] H; simpl in *; auto.
  - inversion H. reflexivity.
  - rewrite (IH i H). reflexivity.
Qed.

Lemma erased_in_body (c : Threads.caller) :
  pc (erase_caller c) = InBody <-> Threads.in_body c = true.
Proof.
  unfold Threads.in_body, erase_caller. simpl.
  destruct (Threads.pc c); simpl; split; intros H; congruence.
Qed.

Lemma threads_lookup_updated (l : list Threads.caller) (i j : nat)
    (c c' cj : Threads.caller) :
  l !! i = Some c ->
  <[i := c']> l !! j = Some cj ->
  (j = i /\ cj = c') \/ (j <> i /\ l !! j = Some cj).
Proof.
  intros Hi Hj. destruct (decide (j = i)) as [->|Hne].
  - left. split; [reflexivity|].
    rewrite list_lookup_insert_eq in Hj by (eapply lookup_lt_Some; exact Hi).
    congruence.
  - right. split; [exact Hne|].
    rewrite list_lookup_insert_ne in Hj by congruence. exact Hj.
Qed.

(** With the lock free, no call is inside. *)
Lemma nobody_inside (E : Env) (f : Threads.Shared) (s : Shared) :
  abstracts E f s -> lock_invariant s -> sync_lock s = None ->
  forall i c, Threads.callers f !! i = Some c -> Threads.in_body c = false.
Proof.
  intros (_ & _ & Hcs & _) [Hin _] Hfree i c Hc.
  destruct (Threads.in_body c) eqn:Hb; [|reflexivity].
  pose proof (lookup_erased f s i Hcs) as Hl. rewrite Hc in Hl. simpl in Hl.
  rewrite (Hin i (erase_caller c) Hl (proj2 (erased_in_body c) Hb)) in Hfree.
  discriminate.
Qed.

(** With a call inside, no other call is. *)
Lemma only_one_inside (E : Env) (f : Threads.Shared) (s : Shared) (i j : nat)
    (ci cj : Threads.caller) :
  abstracts E f s -> lock_invariant s ->
  Threads.callers f !! i = Some ci -> Threads.callers f !! j = Some cj ->
  Threads.in_body ci = true -> Threads.in_body cj = true -> i = j.
Proof.
  intros (_ & _ & Hcs & _) Hinv Hi Hj Hbi Hbj.
  pose proof (lookup_erased f s i Hcs) as Hli. rewrite Hi in Hli.
  pose proof (lookup_erased f s j Hcs) as Hlj. rewrite Hj in Hlj.
  exact (at_most_one_in_body s i j _ _ Hinv Hli Hlj
           (proj2 (erased_in_body ci) Hbi) (proj2 (erased_in_body cj) Hbj)).
Qed.

Lemma abstracts_start (E : Env) (w : World) (ms : list method) :
  abstracts E (Threads.start w ms) (start w ms).
Proof.
  unfold abstracts, Threads.start, start. simpl.
  split; [reflexivity|]. split; [reflexivity|]. split.
  - induction ms as [|m ms IH]; simpl; [reflexivity|]. rewrite IH. reflexivity.
  - split; [|reflexivity].
    intros i c t Hc Hpc. exfalso. revert i Hc.
    induction ms as [|m ms IH]; intros [|i] Hc; simpl in Hc; try discriminate.
    + inversion Hc; subst c. discriminate.
    + exact (IH i Hc).
Qed.

(** A call enters the body: both models take the step. *)
Lemma abstracts_enter (E : Env) (cut : method -> task) (f : Threads.Shared) (s : Shared)
    (i : nat) (c : Threads.caller) (l : option (nat * nat)) :
  cuts_bodies E cut ->
  abstracts E f s -> lock_invariant s ->
  Threads.callers f !! i = Some c ->
  Threads.in_body c = false ->
  rlock_acquire i (Threads.sync_lock f) = Some l ->
  abstracts E
    {| Threads.world := Threads.world f; Threads.sync_lock := l;
       Threads.async_lock := Threads.async_lock f;
       Threads.callers :=
         <[i := Threads.set_pc (Threads.InBody (cut (Threads.meth c))) c]>
           (Threads.callers f) |}
    {| world := world s; sync_lock := l; async_lock := async_lock s;
       callers := <[i := set_pc InBody (erase_caller c)]> (callers s) |}.
Proof.
  intros Hcut Habs Hinv Hc Hout Hacq.
  pose proof Habs as (Hl & Ha & Hcs & Hrun & Hquiet).
  pose proof (lookup_erased f s i Hcs) as Hec. rewrite Hc in Hec. simpl in Hec.
  assert (Hn : pc (erase_caller c) <> InBody).
  { intros H. apply erased_in_body in H. congruence. }
  rewrite <- Hl in Hacq.
  destruct (rlock_acquire_free s i _ l Hinv Hec Hn Hacq) as [Hfree _].
  pose proof (nobody_inside E f s Habs Hinv Hfree) as Hnobody.
  unfold abstracts. cbn [Threads.world Threads.sync_lock Threads.async_lock Threads.callers
                         world sync_lock async_lock callers].
  split; [reflexivity|]. split; [exact Ha|]. split.
  { rewrite map_insert_erased, Hcs. reflexivity. }
  split.
  - intros j cj t Hj Hpc.
    destruct (threads_lookup_updated _ _ _ _ _ _ Hc Hj) as [[-> ->]|[_ Hj']].
    + cbn [Threads.set_pc Threads.pc Threads.meth] in *. inversion Hpc; subst t.
      rewrite Hcut, (Hquiet Hnobody). reflexivity.
    + specialize (Hnobody j cj Hj'). unfold Threads.in_body in Hnobody.
      rewrite Hpc in Hnobody. discriminate.
  - intros Hq. exfalso.
    specialize (Hq i _ (list_lookup_insert_eq _ _ _ (lookup_lt_Some _ _ _ Hc))).
    discriminate.
Qed.

(** A step outside the body that leaves the lock alone. *)
Lemma abstracts_bystander (E : Env) (f : Threads.Shared) (s : Shared) (i : nat)
    (c : Threads.caller) (p : Threads.progress) (a : option nat) :
  abstracts E f s ->
  Threads.callers f !! i = Some c ->
  Threads.in_body c = false ->
  (forall t, p <> Threads.InBody t) ->
  abstracts E
    {| Threads.world := Threads.world f; Threads.sync_lock := Threads.sync_lock f;
       Threads.async_lock := a;
       Threads.callers := <[i := Threads.set_pc p c]> (Threads.callers f) |}
    {| world := world s; sync_lock := sync_lock s; async_lock := a;
       callers := <[i := set_pc (erase_pc p) (erase_caller c)]> (callers s) |}.
Proof.
  intros (Hl & Ha & Hcs & Hrun & Hquiet) Hc Hout Hp.
  unfold abstracts. cbn [Threads.world Threads.sync_lock Threads.async_lock Threads.callers
                         world sync_lock async_lock callers].
  split; [exact Hl|]. split; [reflexivity|]. split.
  { rewrite map_insert_erased, Hcs. reflexivity. }
  split.
  - intros j cj t Hj Hpc.
    destruct (threads_lookup_updated _ _ _ _ _ _ Hc Hj) as [[-> ->]|[_ Hj']].
    + cbn [Threads.set_pc Threads.pc] in Hpc. destruct (Hp t Hpc).
    + exact (Hrun j cj t Hj' Hpc).
  - intros Hq. apply Hquiet. intros j cj Hj.
    destruct (decide (j = i)) as [->|Hne].
    + congruence.
    + apply (Hq j). rewrite list_lookup_insert_ne by congruence. exact Hj.
Qed.

(** The call inside ends its body with [r], leaving [w']. *)
Lemma abstracts_leave (E : Env) (f : Threads.Shared) (s : Shared) (i : nat)
    (c : Threads.caller) (r : exn + pyval) (w' : World) :
  abstracts E f s -> lock_invariant s ->
  Threads.callers f !! i = Some c ->
  Threads.in_body c = true ->
  abstracts E
    {| Threads.world := w'; Threads.sync_lock := rlock_release (Threads.sync_lock f);
       Threads.async_lock := Threads.async_lock f;
       Threads.callers :=
         <[i := Threads.set_pc (Threads.ended (Threads.meth c) r) c]> (Threads.callers f) |}
    {| world := w'; sync_lock := rlock_release (sync_lock s); async_lock := async_lock s;
       callers := <[i := set_pc (if is_async (meth (erase_caller c)) then BodyDone r
                                 else Returned r) (erase_caller c)]> (callers s) |}.
Proof.
  intros Habs Hinv Hc Hin.
  pose proof Habs as (Hl & Ha & Hcs & Hrun & Hquiet).
  unfold abstracts. cbn [Threads.world Threads.sync_lock Threads.async_lock Threads.callers
                         world sync_lock async_lock callers].
  split; [rewrite Hl; reflexivity|]. split; [exact Ha|]. split.
  { rewrite map_insert_erased, Hcs. f_equal.
    unfold erase_caller, Threads.set_pc, Threads.ended, set_pc. simpl.
    destruct (is_async (Threads.meth c)); reflexivity. }
  split; [|reflexivity].
  intros j cj t Hj Hpc. exfalso.
  destruct (threads_lookup_updated _ _ _ _ _ _ Hc Hj) as [[-> ->]|[Hne Hj']].
  - cbn [Threads.set_pc Threads.pc] in Hpc. unfold Threads.ended in Hpc.
    destruct (is_async (Threads.meth c)); discriminate.
  - apply Hne. apply (only_one_inside E f s j i cj c Habs Hinv Hj' Hc); [|exact Hin].
    unfold Threads.in_body. rewrite Hpc. reflexivity.
Qed.

(** Every step of the threads is a step of the first model, or none. *)
Lemma step_abstracts (E : Env) (cut : method -> task) (f f' : Threads.Shared)
    (s : Shared) :
  cuts_bodies E cut ->
  abstracts E f s -> lock_invariant s -> Threads.step cut f f' ->
  exists s', (s' = s \/ step E s s') /\ abstracts E f' s'.
Proof.
  intros Hcut Habs Hinv Hstep.
  pose proof Habs as (Hl & Ha & Hcs & Hrun & Hquiet).
  destruct Hstep as
    [i c l f Hc Hk Hpc Hacq | i c f Hc Hk Hpc Hfree | i c l f Hc Hpc Hacq
    | i c k t' w' f Hc Hpc Hstmt | i c k e w' f Hc Hpc Hstmt | i c v f Hc Hpc
    | i c r f Hc Hpc];
    pose proof (lookup_erased f s i Hcs) as Hec; rewrite Hc in Hec; simpl in Hec.
  - eexists. split.
    + right. apply (step_enter E i (erase_caller c) l s Hec Hk).
      * unfold erase_caller. simpl. rewrite Hpc. reflexivity.
      * rewrite Hl. exact Hacq.
    + apply abstracts_enter; auto. unfold Threads.in_body. rewrite Hpc. reflexivity.
  - eexists. split.
    + right. apply (step_async_acquire E i (erase_caller c) s Hec Hk).
      * unfold erase_caller. simpl. rewrite Hpc. reflexivity.
      * rewrite Ha. exact Hfree.
    + pose proof (abstracts_bystander E f s i c Threads.HasAsyncLock (Some i) Habs Hc) as H.
      apply H; [unfold Threads.in_body; rewrite Hpc; reflexivity|discriminate].
  - eexists. split.
    + right. apply (step_worker_enter E i (erase_caller c) l s Hec).
      * unfold erase_caller. simpl. rewrite Hpc. reflexivity.
      * rewrite Hl. exact Hacq.
    + apply abstracts_enter; auto. unfold Threads.in_body. rewrite Hpc. reflexivity.
  - exists s. split; [left; reflexivity|].
    assert (Hin : Threads.in_body c = true)
      by (unfold Threads.in_body; rewrite Hpc; reflexivity).
    unfold abstracts.
    cbn [Threads.world Threads.sync_lock Threads.async_lock Threads.callers].
    split; [exact Hl|]. split; [exact Ha|]. split.
    { rewrite map_insert_erased, <- Hcs. symmetry. apply insert_same.
      rewrite Hec. unfold erase_caller. simpl. rewrite Hpc. reflexivity. }
    split.
    + intros j cj t Hj Hpcj.
      destruct (threads_lookup_updated _ _ _ _ _ _ Hc Hj) as [[-> ->]|[Hne Hj']].
      * cbn [Threads.set_pc Threads.pc Threads.meth] in *. inversion Hpcj; subst t.
        rewrite <- (Hrun i c (Next k) Hc Hpc). cbn [run]. rewrite Hstmt. reflexivity.
      * exfalso. apply Hne.
        apply (only_one_inside E f s j i cj c Habs Hinv Hj' Hc); [|exact Hin].
        unfold Threads.in_body. rewrite Hpcj. reflexivity.
    + intros Hq. exfalso.
      specialize (Hq i _ (list_lookup_insert_eq _ _ _ (lookup_lt_Some _ _ _ Hc))).
      discriminate.
  - assert (Hin : Threads.in_body c = true)
      by (unfold Threads.in_body; rewrite Hpc; reflexivity).
    eexists. split.
    + right. apply (step_body E i (erase_caller c) (inl e) w' s Hec).
      * unfold erase_caller. simpl. rewrite Hpc. reflexivity.
      * cbn [erase_caller meth]. rewrite <- (Hrun i c (Next k) Hc Hpc). cbn [run].
        rewrite Hstmt. reflexivity.
    + apply abstracts_leave; auto.
  - assert (Hin : Threads.in_body c = true)
      by (unfold Threads.in_body; rewrite Hpc; reflexivity).
    eexists. split.
    + right. apply (step_body E i (erase_caller c) (inr v) (Threads.world f) s Hec).
      * unfold erase_caller. simpl. rewrite Hpc. reflexivity.
      * cbn [erase_caller meth]. rewrite <- (Hrun i c (Done v) Hc Hpc). reflexivity.
    + apply abstracts_leave; auto.
  - eexists. split.
    + right. apply (step_async_release E i (erase_caller c) r s Hec).
      unfold erase_caller. simpl. rewrite Hpc. reflexivity.
    + pose proof (abstracts_bystander E f s i c (Threads.Returned r) None Habs Hc) as H.
      apply H; [unfold Threads.in_body; rewrite Hpc; reflexivity|discriminate].
Qed.

Lemma steps_abstracts (E : Env) (cut : method -> task) (w : World) (ms : list method)
    (f : Threads.Shared) :
  cuts_bodies E cut ->
  Threads.steps cut (Threads.start w ms) f ->
  exists s, steps E (start w ms) s /\ abstracts E f s.
Proof.
  intros Hcut Hsteps. remember (Threads.start w ms) as f0 eqn:Hf0.
  induction Hsteps as [f|f1 f2 f3 _ IH Hstep].
  - subst f. exists (start w ms). split; [apply steps_refl|apply abstracts_start].
  - destruct (IH Hf0) as (s & Hs & Habs).
    pose proof (lock_invariant_steps E _ s (lock_invariant_start w ms) Hs) as Hinv.
    destruct (step_abstracts E cut f2 f3 s Hcut Habs Hinv Hstep) as (s' & [->|Hs'] & Habs').
    + exists s. auto.
    + exists s'. split; [|exact Habs']. eapply steps_step; eauto.
Qed.

(** ** One call after another *)

Lemma run_in_order_app (E : Env) (ms : list method) (o1 o2 : list nat) (w : World) :
  run_in_order E ms (o1 ++ o2) w = run_in_order E ms o2 (run_in_order E ms o1 w).
Proof.
  revert w. induction o1 as [|i o1 IH]; intros w; simpl; [reflexivity|].
  destruct (ms !! i); apply IH.
Qed.

Lemma world_before_next (E : Env) (ms : list method) (order : list nat) (k i : nat)
    (m : method) (w : World) :
  order !! k = Some i -> ms !! i = Some m ->
  world_before E ms order (S k) w = snd (body E m (world_before E ms order k w)).
Proof.
  intros Hk Hm. unfold world_before. rewrite (take_S_r _ _ _ Hk), run_in_order_app.
  simpl. rewrite Hm. reflexivity.
Qed.

Lemma start_methods (w : World) (ms : list method) (i : nat) (c : caller) :
  callers (start w ms) !! i = Some c -> ms !! i = Some (meth c).
Proof.
  unfold start. simpl. revert i. induction ms as [|m ms IH]; intros [|i] H;
    simpl in *; try discriminate.
  - inversion H. reflexivity.
  - exact (IH i H).
Qed.

Lemma serial_start (E : Env) (w : World) (ms : list method) :
  serial E w ms (start w ms) [].
Proof.
  split; [constructor|]. split; [|split; [|reflexivity]].
  - intros i c Hc. split; [exact (start_methods w ms i c Hc)|].
    unfold result_of. rewrite (lookup_start w ms i c Hc).
    split; [intros H; inversion H|congruence].
  - intros k i H. destruct k; discriminate.
Qed.

(** A step that leaves the manager alone and gives no call a new
    result keeps the order. *)
Lemma serial_quiet (E : Env) (w : World) (ms : list method) (s : Shared)
    (order : list nat) (k : nat) (c : caller) (p : progress)
    (l : option (nat * nat)) (a : option nat) :
  callers s !! k = Some c ->
  result_of (set_pc p c) = result_of c ->
  serial E w ms s order ->
  serial E w ms {| world := world s; sync_lock := l; async_lock := a;
                   callers := <[k := set_pc p c]> (callers s) |} order.
Proof.
  intros Hc Hres (Hnd & Hcs & Hord & Hw).
  split; [exact Hnd|]. split; [|split; [|exact Hw]]; cbn [callers].
  - intros j cj Hj.
    destruct (lookup_updated_caller _ _ _ _ _ _ Hc Hj) as [[-> ->]|[_ Hj']].
    + rewrite Hres. exact (Hcs k c Hc).
    + exact (Hcs j cj Hj').
  - intros n j Hn. destruct (Hord n j Hn) as (cj & Hj & Hr).
    destruct (decide (j = k)) as [->|Hne].
    + exists (set_pc p c). split.
      * apply list_lookup_insert_eq. eapply lookup_lt_Some. exact Hc.
      * assert (cj = c) by congruence. subst cj. rewrite Hres. exact Hr.
    + exists cj. split; [|exact Hr].
      rewrite list_lookup_insert_ne by congruence. exact Hj.
Qed.

(** The call inside runs its body: it comes last in the order. *)
Lemma serial_body (E : Env) (w : World) (ms : list method) (s : Shared)
    (order : list nat) (i : nat) (c : caller) (r : exn + pyval) (w' : World)
    (p : progress) (l : option (nat * nat)) (a : option nat) :
  callers s !! i = Some c -> pc c = InBody ->
  body E (meth c) (world s) = (r, w') ->
  result_of (set_pc p c) = Some r ->
  serial E w ms s order ->
  serial E w ms {| world := w'; sync_lock := l; async_lock := a;
                   callers := <[i := set_pc p c]> (callers s) |} (order ++ [i]).
Proof.
  intros Hc Hpc Hbody Hres (Hnd & Hcs & Hord & Hw).
  destruct (Hcs i c Hc) as [Hm Hin].
  assert (Hnotin : i ∉ order).
  { intros H. apply Hin in H. unfold result_of in H. rewrite Hpc in H. congruence. }
  split; [|split; [|split]]; cbn [callers world].
  - apply NoDup_app. split; [exact Hnd|]. split; [|apply NoDup_singleton].
    intros x Hx Hx'. apply list_elem_of_singleton in Hx'. subst x. exact (Hnotin Hx).
  - intros j cj Hj.
    destruct (lookup_updated_caller _ _ _ _ _ _ Hc Hj) as [[-> ->]|[Hne Hj']].
    + split; [exact Hm|]. rewrite Hres. split; [congruence|].
      intros _. apply elem_of_app. right. apply list_elem_of_singleton. reflexivity.
    + destruct (Hcs j cj Hj') as [Hmj Hinj]. split; [exact Hmj|].
      rewrite elem_of_app, list_elem_of_singleton. rewrite <- Hinj.
      split; [intros [H|H]; [exact H|congruence]|auto].
  - intros n j Hn. apply lookup_app_Some in Hn.
    destruct Hn as [Hn|[Hlen Hn]].
    + destruct (Hord n j Hn) as (cj & Hj & Hr).
      assert (Hne : j <> i).
      { intros ->. apply Hnotin. apply list_elem_of_lookup. eauto. }
      exists cj. split; [rewrite list_lookup_insert_ne by congruence; exact Hj|].
      rewrite Hr. unfold world_before.
      rewrite take_app_le by (apply Nat.lt_le_incl; eapply lookup_lt_Some; exact Hn).
      reflexivity.
    + destruct (n - length order)%nat as [|n'] eqn:Hsub; [|destruct n'; discriminate].
      simpl in Hn. inversion Hn; subst j.
      assert (n = length order) by lia. subst n.
      exists (set_pc p c). split.
      * apply list_lookup_insert_eq. eapply lookup_lt_Some. exact Hc.
      * rewrite Hres. unfold world_before. rewrite take_app_length.
        rewrite <- Hw. cbn [set_pc meth]. rewrite Hbody. reflexivity.
  - rewrite run_in_order_app, <- Hw. simpl. rewrite Hm, Hbody. reflexivity.
Qed.

Lemma serial_step (E : Env) (w : World) (ms : list method) (s s' : Shared)
    (order : list nat) :
  serial E w ms s order -> step E s s' ->
  exists order', serial E w ms s' order'.
Proof.
  intros Hser Hstep.
  destruct Hstep as
    [k c l s Hc Hk Hpc Hacq | k c s Hc Hk Hpc Hfree | k c l s Hc Hpc Hacq
    | k c r w' s Hc Hpc Hbody | k c r s Hc Hpc].
  - exists order. apply serial_quiet; auto. unfold result_of. simpl. rewrite Hpc. reflexivity.
  - exists order. apply serial_quiet; auto. unfold result_of. simpl. rewrite Hpc. reflexivity.
  - exists order. apply serial_quiet; auto. unfold result_of. simpl. rewrite Hpc. reflexivity.
  - exists (order ++ [k]). eapply serial_body; eauto.
    unfold result_of. simpl. destruct (is_async (meth c)); reflexivity.
  - exists order. apply serial_quiet; auto. unfold result_of. simpl. rewrite Hpc. reflexivity.
Qed.

Lemma serial_steps (E : Env) (w : World) (ms : list method) (s : Shared) :
  steps E (start w ms) s -> exists order, serial E w ms s order.
Proof.
  intros Hsteps. remember (start w ms) as s0 eqn:Hs0.
  induction Hsteps as [s|s1 s2 s3 _ IH Hstep].
  - subst s. exists []. apply serial_start.
  - destruct (IH Hs0) as (order & Hser). exact (serial_step E w ms s2 s3 order Hser Hstep).
Qed.

(** ** What a call finds after another *)

(** A call that follows a successful one is served its token, without
    an issuance call, if its clock reads early enough. *)
Lemma served_after (E : Env) (ai aj : pyval) (w wi : World) (tok aud : pyval)
    (ws : World) :
  get_id_token E ai w = (inr tok, wi) ->
  truthy tok = true ->
  settle_audience E aj (logged wi (EvGetIdToken aj)) = (inr aud, ws) ->
  time_time E (history ws ++ [EvTime]) < _token_expiry (self wi) - 300 ->
  get_id_token E aj wi = (inr tok, logged ws EvTime) /\
  count is_issuance (since wi (logged ws EvTime)) = 0%nat.
Proof.
  intros Hi Htok Hs Hnow.
  pose proof (get_id_token_frame E ai w) as Hf. cbv zeta in Hf. rewrite Hi in Hf.
  cbn [fst snd] in Hf. destruct Hf as (_ & _ & Hstored).
  specialize (Hstored tok eq_refl).
  destruct (settle_audience_cases E aj (logged wi (EvGetIdToken aj))) as (_ & _ & Hok).
  destruct (Hok aud ws Hs) as ([Hc1 Hc2] & _ & _ & d & Hd & Hall & _).
  cbn [logged self history] in Hc1, Hc2, Hd.
  assert (Hhit : cache_hit (time_time E (history ws ++ [EvTime])) (self ws) = true).
  { apply cache_hit_true. rewrite Hc1, Hc2, Hstored. auto. }
  split.
  - rewrite get_id_token_phases, Hs, (cached_or_refresh_hit _ _ _ Hhit), Hc1, Hstored.
    reflexivity.
  - rewrite (since_app wi _ (([EvGetIdToken aj] ++ d) ++ [EvTime]))
      by (cbn [logged history]; rewrite Hd, <- !app_assoc; reflexivity).
    rewrite !count_app, (count_zero is_issuance _ d resolution_not_issuance Hall).
    reflexivity.
Qed.

(** A call that finds no token it can use starts a refresh of its
    own. *)
Lemma own_refresh (E : Env) (aj aud : pyval) (wi ws : World) :
  settle_audience E aj (logged wi (EvGetIdToken aj)) = (inr aud, ws) ->
  cache_miss E ws ->
  let r := fst (get_id_token E aj wi) in
  let wj := snd (get_id_token E aj wi) in
  get_id_token E aj wi = refresh E aud (after_cache_test ws) /\
  (count is_issuance (since wi wj) <= 1)%nat /\
  forall tok, r = inr tok ->
    count is_issuance (since wi wj) = 1%nat /\ _cached_token (self wj) = tok.
Proof.
  intros Hs Hmiss. cbv zeta.
  rewrite (get_id_token_settled_miss E aj aud wi ws Hs Hmiss).
  split; [reflexivity|].
  destruct (settled_history E aj aud wi ws Hs) as (_ & _ & d0 & Hd0 & Hi0 & _).
  pose proof (refresh_frame E aud (after_cache_test ws)) as Hf. cbv zeta in Hf.
  destruct Hf as (_ & (d & Hd & _ & Hle & Hone & _) & _ & Hstored).
  rewrite (since_app wi _ (d0 ++ d)) by (rewrite Hd, Hd0, <- app_assoc; reflexivity).
  rewrite count_app, Hi0. split; [exact Hle|].
  intros tok Htok. split; [exact (Hone tok Htok)|exact (Hstored tok Htok)].
Qed.

(** In a healthy environment every call returns a token: the cached
    one, or one it has had issued. *)
Lemma healthy_call (E : Env) (t0 : Z) (a : pyval) (w : World) :
  healthy E t0 ->
  exists tok w' d,
    get_id_token E a w = (inr tok, w') /\
    history w' = history w ++ d /\
    _cached_token (self w') = tok /\
    ((count is_issuance d = 0%nat /\ same_cache w w' /\
      truthy (_cached_token (self w)) = true /\ t0 < _token_expiry (self w) - 300) \/
     (count is_issuance d = 1%nat /\ truthy tok = true /\
      t0 + 3600 <= _token_expiry (self w'))) /\
    (truthy (_cached_token (self w)) = true -> t0 + 3600 <= _token_expiry (self w) ->
     count is_issuance d = 0%nat /\ same_cache w w').
Proof.
  intros (Hcfg & Hset & Hcred & Hissue & Hclock).
  destruct (Hset a (logged w (EvGetIdToken a))) as (aud & w1 & Hs).
  destruct (settle_audience_cases E a (logged w (EvGetIdToken a))) as (_ & _ & Hok).
  destruct (Hok aud w1 Hs) as ([Hc1 Hc2] & _ & _ & d1 & Hd1 & Hall1 & _).
  cbn [logged self history] in Hc1, Hc2, Hd1.
  assert (Hi1 : count is_issuance d1 = 0%nat)
    by exact (count_zero is_issuance _ d1 resolution_not_issuance Hall1).
  destruct (cache_hit (time_time E (history w1 ++ [EvTime])) (self w1)) eqn:Hhit.
  - exists (_cached_token (self w1)), (logged w1 EvTime), (([EvGetIdToken a] ++ d1) ++ [EvTime]).
    split; [rewrite get_id_token_phases, Hs; apply cached_or_refresh_hit; exact Hhit|].
    split; [cbn [logged history]; rewrite Hd1, <- !app_assoc; reflexivity|].
    split; [reflexivity|].
    assert (Hzero : count is_issuance (([EvGetIdToken a] ++ d1) ++ [EvTime]) = 0%nat)
      by (rewrite !count_app, Hi1; reflexivity).
    assert (Hsame : same_cache w (logged w1 EvTime)) by (split; assumption).
    apply cache_hit_true in Hhit. destruct Hhit as [Ht Hnow]. rewrite Hc1 in Ht.
    rewrite Hc2 in Hnow. pose proof (Hclock (history w1 ++ [EvTime])).
    split; [left; repeat split; try assumption; lia|]. auto.
  - destruct (after_cache_test_frame w1) as (Hs0 & d0 & Hd0 & Hall0).
    destruct (Hcred (after_cache_test w1)) as (c & w2 & Hcr).
    destruct (Hissue aud c (history w2)) as (resp & tok & Hans & Htok & Htruthy).
    pose proof (refresh_frame E aud (after_cache_test w1)) as Hf. cbv zeta in Hf.
    destruct Hf as (_ & (d & Hd & _ & _ & Hone & _) & _ & Hstored).
    assert (Hr : refresh E aud (after_cache_test w1)
                 = (inr tok,
                    with_cache tok
                      (time_time E
                         (history (logged w2 (issuance_call E aud c (history w2)))
                          ++ [EvTime]) + 3600)
                      (logged (logged w2 (issuance_call E aud c (history w2))) EvTime))).
    { rewrite refresh_cases, Hcfg, Hcr. cbv zeta. rewrite Hans, Htok. reflexivity. }
    rewrite Hr in Hd, Hone, Hstored. cbn [fst snd] in Hd, Hone, Hstored.
    eexists tok, _, ((([EvGetIdToken a] ++ d1) ++ d0) ++ d).
    split; [rewrite get_id_token_phases, Hs, (cached_or_refresh_miss _ _ _ Hhit); exact Hr|].
    split; [rewrite Hd, Hd0, Hd1, <- !app_assoc; reflexivity|].
    split; [exact (Hstored tok eq_refl)|].
    assert (Hcount : count is_issuance ((([EvGetIdToken a] ++ d1) ++ d0) ++ d) = 1%nat).
    { rewrite !count_app, Hi1, (count_local is_issuance d0 local_not_issuance Hall0).
      rewrite (Hone tok eq_refl). reflexivity. }
    split.
    + right. split; [exact Hcount|]. split; [exact Htruthy|].
      cbn [with_cache self _token_expiry].
      match goal with |- _ <= time_time E ?h + 3600 => pose proof (Hclock h) end. lia.
    + intros Ht Hexp. exfalso. apply cache_hit_false in Hhit.
      rewrite Hc1, Hc2 in Hhit. destruct Hhit as [Hf|Hf]; [congruence|].
      pose proof (Hclock (history w1 ++ [EvTime])). lia.
Qed.

Lemma world_before_cons_valid (E : Env) (ms : list method) (i : nat) (rest : list nat)
    (m : method) (k : nat) (w : World) :
  ms !! i = Some m ->
  world_before E ms (i :: rest) (S k) w = world_before E ms rest k (snd (body E m w)).
Proof. intros Hm. unfold world_before. simpl. rewrite Hm. reflexivity. Qed.

Lemma world_before_cons_invalid (E : Env) (ms : list method) (i : nat) (rest : list nat)
    (k : nat) (w : World) :
  ms !! i = None ->
  world_before E ms (i :: rest) (S k) w = world_before E ms rest k w.
Proof. intros Hm. unfold world_before. simpl. rewrite Hm. reflexivity. Qed.

Lemma same_cache_trans (w1 w2 w3 : World) :
  same_cache w1 w2 -> same_cache w2 w3 -> same_cache w1 w3.
Proof. unfold same_cache. intros [A B] [C D]. split; congruence. Qed.

Lemma all_get_lookup (ms : list method) (i : nat) (m : method) :
  forallb is_get ms = true -> ms !! i = Some m -> is_get m = true.
Proof.
  revert i. induction ms as [|x ms IH]; intros [|i] H Hm; simpl in *; try discriminate.
  - apply andb_prop in H as [H _]. inversion Hm; subst. exact H.
  - apply andb_prop in H as [_ H]. exact (IH i H Hm).
Qed.

(** Once a fresh token is cached, token requests that come one after
    another are all served it. *)
Lemma healthy_served (E : Env) (t0 : Z) (ms : list method) :
  healthy E t0 -> forallb is_get ms = true ->
  forall order w,
    truthy (_cached_token (self w)) = true -> t0 + 3600 <= _token_expiry (self w) ->
    same_cache w (run_in_order E ms order w) /\
    (exists d, history (run_in_order E ms order w) = history w ++ d /\
               count is_issuance d = 0%nat) /\
    forall k i m, order !! k = Some i -> ms !! i = Some m ->
      fst (body E m (world_before E ms order k w)) = inr (_cached_token (self w)).
Proof.
  intros Hh Hall order. induction order as [|i rest IH]; intros w Ht Hexp.
  - simpl. split; [split; reflexivity|]. split.
    + exists []. rewrite app_nil_r. auto.
    + intros k j m Hk. destruct k; discriminate.
  - simpl. destruct (ms !! i) as [m|] eqn:Hm.
    + destruct (body_is_get_id_token E m (all_get_lookup ms i m Hall Hm)) as (a & Hb).
      destruct (healthy_call E t0 a w Hh) as (tok & w1 & d1 & Hget & Hd1 & Hstored & _ & HB).
      destruct (HB Ht Hexp) as [Hz1 Hsame1].
      assert (Hw1 : snd (body E m w) = w1) by (rewrite Hb, Hget; reflexivity).
      rewrite Hw1.
      destruct Hsame1 as [S1 S2].
      assert (Ht1 : truthy (_cached_token (self w1)) = true) by (rewrite S1; exact Ht).
      assert (Hexp1 : t0 + 3600 <= _token_expiry (self w1)) by (rewrite S2; exact Hexp).
      destruct (IH w1 Ht1 Hexp1) as (Hsame & (d & Hd & Hz) & Hres).
      split; [exact (same_cache_trans _ _ _ (conj S1 S2) Hsame)|]. split.
      * exists (d1 ++ d). rewrite Hd, Hd1, <- app_assoc. split; [reflexivity|].
        rewrite count_app, Hz1, Hz. reflexivity.
      * intros k j mj Hk Hmj. destruct k as [|k].
        -- simpl in Hk. inversion Hk; subst j. assert (mj = m) by congruence. subst mj.
           unfold world_before. simpl. rewrite Hb, Hget. cbn [fst].
           rewrite <- S1. congruence.
        -- simpl in Hk. rewrite (world_before_cons_valid E ms i rest m k w Hm), Hw1.
           rewrite (Hres k j mj Hk Hmj), S1. reflexivity.
    + destruct (IH w Ht Hexp) as (Hsame & Hd & Hres).
      split; [exact Hsame|]. split; [exact Hd|].
      intros k j mj Hk Hmj. destruct k as [|k].
      * simpl in Hk. inversion Hk; subst j. congruence.
      * simpl in Hk. rewrite (world_before_cons_invalid E ms i rest k w Hm).
        exact (Hres k j mj Hk Hmj).
Qed.

(** Token requests that come one after another in a healthy
    environment cost at most one issuance call; each is served the
    token cached at the start or the one issued; and when the token
    cached at the start is of no use, each is served the one issued. *)
Lemma healthy_in_order (E : Env) (t0 : Z) (ms : list method) :
  healthy E t0 -> forallb is_get ms = true ->
  forall order w,
    exists d,
      history (run_in_order E ms order w) = history w ++ d /\
      (count is_issuance d <= 1)%nat /\
      (count is_issuance d = 0%nat -> same_cache w (run_in_order E ms order w)) /\
      (forall k i m, order !! k = Some i -> ms !! i = Some m ->
         let r := fst (body E m (world_before E ms order k w)) in
         (r = inr (_cached_token (self w)) \/
          r = inr (_cached_token (self (run_in_order E ms order w)))) /\
         (unusable t0 (self w) ->
          r = inr (_cached_token (self (run_in_order E ms order w))) /\
          count is_issuance d = 1%nat /\
          truthy (_cached_token (self (run_in_order E ms order w))) = true)).
Proof.
  intros Hh Hall order. induction order as [|i rest IH]; intros w.
  - simpl. exists []. rewrite app_nil_r. split; [reflexivity|].
    split; [rewrite count_nil; lia|]. split; [intros _; split; reflexivity|].
    intros k j m Hk. destruct k; discriminate.
  - simpl. destruct (ms !! i) as [m|] eqn:Hm.
    + destruct (body_is_get_id_token E m (all_get_lookup ms i m Hall Hm)) as (a & Hb).
      destruct (healthy_call E t0 a w Hh)
        as (tok & w1 & d1 & Hget & Hd1 & Hstored & Hcases & _).
      assert (Hw1 : snd (body E m w) = w1) by (rewrite Hb, Hget; reflexivity).
      assert (Hr1 : fst (body E m w) = inr tok) by (rewrite Hb, Hget; reflexivity).
      rewrite Hw1.
      destruct Hcases as [(Hz1 & [S1 S2] & Ht & Hexp)|(Hone & Htruthy & Hexp1)].
      * destruct (IH w1) as (d & Hd & Hle & Hzero & Hres).
        exists (d1 ++ d). split; [rewrite Hd, Hd1, <- app_assoc; reflexivity|].
        rewrite count_app, Hz1. split; [exact Hle|].
        split; [intros Hz; exact (same_cache_trans _ _ _ (conj S1 S2) (Hzero Hz))|].
        intros k j mj Hk Hmj. cbv zeta. destruct k as [|k].
        -- simpl in Hk. inversion Hk; subst j. assert (mj = m) by congruence. subst mj.
           unfold world_before. simpl. rewrite Hr1. split.
           ++ left. rewrite <- S1. congruence.
           ++ intros [Hu|Hu]; [congruence|exfalso; lia].
        -- simpl in Hk. rewrite (world_before_cons_valid E ms i rest m k w Hm), Hw1.
           destruct (Hres k j mj Hk Hmj) as [Hor Hun]. cbv zeta in Hor, Hun.
           rewrite S1 in Hor. split; [exact Hor|].
           intros Hu. apply Hun. unfold unusable in *. rewrite S1, S2. exact Hu.
      * assert (Ht1 : truthy (_cached_token (self w1)) = true) by (rewrite Hstored; exact Htruthy).
        destruct (healthy_served E t0 ms Hh Hall rest w1 Ht1 Hexp1)
          as ([Q1 Q2] & (d & Hd & Hz) & Hres).
        exists (d1 ++ d). split; [rewrite Hd, Hd1, <- app_assoc; reflexivity|].
        rewrite count_app, Hone, Hz. split; [lia|].
        split; [intros Habs; lia|].
        intros k j mj Hk Hmj. cbv zeta. rewrite Q1.
        assert (Hthis : fst (body E mj (world_before E ms (i :: rest) k w))
                        = inr (_cached_token (self w1))).
        { destruct k as [|k].
          - simpl in Hk. inversion Hk; subst j. assert (mj = m) by congruence. subst mj.
            unfold world_before. simpl. rewrite Hr1, Hstored. reflexivity.
          - simpl in Hk. rewrite (world_before_cons_valid E ms i rest m k w Hm), Hw1.
            exact (Hres k j mj Hk Hmj). }
        rewrite Hthis. split; [right; reflexivity|].
        intros _. split; [reflexivity|]. split; [reflexivity|exact Ht1].
    + destruct (IH w) as (d & Hd & Hle & Hzero & Hres).
      exists d. split; [exact Hd|]. split; [exact Hle|]. split; [exact Hzero|].
      intros k j mj Hk Hmj. destruct k as [|k].
      * simpl in Hk. inversion Hk; subst j. congruence.
      * simpl in Hk. rewrite (world_before_cons_invalid E ms i rest k w Hm).
        exact (Hres k j mj Hk Hmj).
Qed.

Lemma threads_exec_step (cut : method -> task) (i : nat) (f f' : Threads.Shared) :
  Threads.exec cut i f = Some f' -> Threads.step cut f f'.
Proof.
  unfold Threads.exec. destruct (Threads.callers f !! i) as [c|] eqn:Hc; [|discriminate].
  destruct (Threads.pc c) as [| |[v|k]|r|r] eqn:Hpc.
  - destruct (is_async (Threads.meth c)) eqn:Hk.
    + destruct (Threads.async_lock f) eqn:Ha; [discriminate|].
      intros H. inversion H. apply Threads.step_async_acquire; assumption.
    + destruct (rlock_acquire i (Threads.sync_lock f)) as [l|] eqn:Hl; [|discriminate].
      intros H. inversion H. apply Threads.step_enter; assumption.
  - destruct (rlock_acquire i (Threads.sync_lock f)) as [l|] eqn:Hl; [|discriminate].
    intros H. inversion H. apply Threads.step_worker_enter; assumption.
  - intros H. inversion H. apply Threads.step_leave; assumption.
  - destruct (k (Threads.world f)) as [[e|t'] w'] eqn:Hk; intros H; inversion H.
    + eapply Threads.step_raise; eassumption.
    + eapply Threads.step_statement; eassumption.
  - intros H. inversion H. apply (Threads.step_async_release cut i c r); assumption.
  - discriminate.
Qed.

Lemma threads_exec_schedule_steps (cut : method -> task) (sched : list nat)
    (f0 f : Threads.Shared) :
  Threads.steps cut f0 f -> Threads.steps cut f0 (Threads.exec_schedule cut sched f).
Proof.
  revert f. induction sched as [|i sched IH]; intros f Hf; simpl; [exact Hf|].
  destruct (Threads.exec cut i f) as [f'|] eqn:He.
  - apply IH. eapply Threads.steps_step; [exact Hf|]. exact (threads_exec_step cut i f f' He).
  - apply IH. exact Hf.
Qed.

(** What a step changes: the place of one call, and the manager only
    when that call is inside the body. *)
Lemma threads_step_mover (cut : method -> task) (f f' : Threads.Shared) :
  Threads.step cut f f' ->
  exists k c c',
    Threads.callers f !! k = Some c /\
    Threads.callers f' = <[k := c']> (Threads.callers f) /\
    (Threads.world f' = Threads.world f \/ Threads.in_body c = true).
Proof.
  intros Hstep.
  destruct Hstep as
    [i c l f Hc Hk Hpc Hacq | i c f Hc Hk Hpc Hfree | i c l f Hc Hpc Hacq
    | i c k t' w' f Hc Hpc Hstmt | i c k e w' f Hc Hpc Hstmt | i c v f Hc Hpc
    | i c r f Hc Hpc];
    (eexists i, c, _; split; [exact Hc|]; split; [reflexivity|]);
    first [left; reflexivity | right; unfold Threads.in_body; rewrite Hpc; reflexivity].
Qed.

(** While a call is inside, the others stay outside, and nothing but
    that call's own statements changes the manager. *)
Lemma threads_others_wait (E : Env) (cut : method -> task) (w : World)
    (ms : list method) (f f' : Threads.Shared) (i : nat) (ci : Threads.caller) :
  cuts_bodies E cut ->
  Threads.steps cut (Threads.start w ms) f ->
  Threads.callers f !! i = Some ci -> Threads.in_body ci = true ->
  Threads.step cut f f' ->
  (forall j cj, j <> i -> Threads.callers f' !! j = Some cj -> Threads.in_body cj = false) /\
  (Threads.world f' = Threads.world f \/
   forall j, j <> i -> Threads.callers f' !! j = Threads.callers f !! j).
Proof.
  intros Hcut Hsteps Hi Hin Hstep.
  destruct (steps_abstracts E cut w ms f Hcut Hsteps) as (s & Hs & Habs).
  pose proof (lock_invariant_steps E _ s (lock_invariant_start w ms) Hs) as Hinv.
  assert (Hsteps' : Threads.steps cut (Threads.start w ms) f')
    by (eapply Threads.steps_step; eauto).
  destruct (steps_abstracts E cut w ms f' Hcut Hsteps') as (s' & Hs' & Habs').
  pose proof (lock_invariant_steps E _ s' (lock_invariant_start w ms) Hs') as Hinv'.
  destruct (threads_step_mover cut f f' Hstep) as (k & c & c' & Hc & Hcs & Hworld).
  destruct (decide (k = i)) as [->|Hne].
  - assert (Hsame : forall j, j <> i -> Threads.callers f' !! j = Threads.callers f !! j).
    { intros j Hj. rewrite Hcs. apply list_lookup_insert_ne. congruence. }
    split; [|right; exact Hsame].
    intros j cj Hj Hcj. rewrite (Hsame j Hj) in Hcj.
    destruct (Threads.in_body cj) eqn:Hb; [|reflexivity].
    destruct (Hj (only_one_inside E f s j i cj ci Habs Hinv Hcj Hi Hb Hin)).
  - assert (Hi' : Threads.callers f' !! i = Some ci).
    { rewrite Hcs, list_lookup_insert_ne by congruence. exact Hi. }
    split.
    + intros j cj Hj Hcj.
      destruct (Threads.in_body cj) eqn:Hb; [|reflexivity].
      destruct (Hj (only_one_inside E f' s' j i cj ci Habs' Hinv' Hcj Hi' Hb Hin)).
    + left. destruct Hworld as [Hw|Hb]; [exact Hw|].
      destruct (Hne (only_one_inside E f s k i c ci Habs Hinv Hc Hi Hb Hin)).
Qed.

Lemma erased_result (c : Threads.caller) :
  result_of (erase_caller c) = Threads.result_of c.
Proof.
  unfold result_of, Threads.result_of, erase_caller. simpl.
  destruct (Threads.pc c); reflexivity.
Qed.

Lemma body_audience (E : Env) (m : method) (a : pyval) :
  audience_of m = Some a -> body E m = get_id_token E a.
Proof. destruct m; simpl; intros H; inversion H; reflexivity. Qed.

(** C1, as the code has it. The calls are [get_id_token],
    [get_id_token_async] and [clear_cached_token] in any mix, made at
    once on one manager, their bodies cut into steps in any way
    whatever and the threads switched between any two steps. In every
    state they can reach: at most one call is inside
    [with self._sync_lock], where alone a refresh runs; while a call is
    inside, no step puts another call inside and nothing but that
    call's own steps changes the manager: calls that arrive meanwhile
    wait. The calls that have run their bodies did so one after another
    in some order, each returning what its body returns on the manager
    left by its predecessor, and the call inside, run to its end, gives
    what its body gives on the manager left by the last of them. For a
    token request that comes right after another in that order: if the
    earlier one failed, it left the cache as it had found it; if the
    earlier one succeeded with a truthy token and the later one, its
    audience settled, reads its clock before that token's expiry less
    300 seconds, the later one returns the same token and makes no
    issuance call; and whenever the later one, its audience settled,
    finds no token it can use, it runs a refresh of its own, with at
    most one issuance call, and exactly one when it succeeds. And when
    the calls are all token requests in an environment where refreshes
    go through and the clock stays within the token's validity, at
    most one issuance call is made whatever the cache held at the
    start, every call is served the token cached at the start or the
    one issued, and when the token cached at the start was of no use
    exactly one token is issued and every call is served it. *)
Theorem single_refresh_at_a_time (E : Env) (cut : method -> task) (w : World)
    (ms : list method) (f : Threads.Shared) :
  cuts_bodies E cut ->
  Threads.steps cut (Threads.start w ms) f ->
  (forall i j ci cj,
     Threads.callers f !! i = Some ci -> Threads.callers f !! j = Some cj ->
     Threads.in_body ci = true -> Threads.in_body cj = true -> i = j) /\
  (forall i ci f',
     Threads.callers f !! i = Some ci -> Threads.in_body ci = true ->
     Threads.step cut f f' ->
     (forall j cj, j <> i -> Threads.callers f' !! j = Some cj ->
                   Threads.in_body cj = false) /\
     (Threads.world f' = Threads.world f \/
      forall j, j <> i -> Threads.callers f' !! j = Threads.callers f !! j)) /\
  exists order,
    NoDup order /\
    (forall i c, Threads.callers f !! i = Some c ->
       ms !! i = Some (Threads.meth c) /\
       (i ∈ order <-> Threads.result_of c <> None)) /\
    (forall k i, order !! k = Some i ->
       exists c, Threads.callers f !! i = Some c /\
                 Threads.result_of c
                 = Some (fst (body E (Threads.meth c) (world_before E ms order k w)))) /\
    (forall i c t, Threads.callers f !! i = Some c -> Threads.pc c = Threads.InBody t ->
       run t (Threads.world f) = body E (Threads.meth c) (run_in_order E ms order w)) /\
    ((forall i c, Threads.callers f !! i = Some c -> Threads.in_body c = false) ->
     Threads.world f = run_in_order E ms order w) /\
    (forall k i j mi mj ai aj,
       order !! k = Some i -> order !! S k = Some j ->
       ms !! i = Some mi -> ms !! j = Some mj ->
       audience_of mi = Some ai -> audience_of mj = Some aj ->
       let wb := world_before E ms order k w in
       let wi := world_before E ms order (S k) w in
       let wj := world_before E ms order (S (S k)) w in
       (forall e, fst (body E mi wb) = inl e -> same_cache wb wi) /\
       (forall tok aud ws,
          fst (body E mi wb) = inr tok -> truthy tok = true ->
          settle_audience E aj (logged wi (EvGetIdToken aj)) = (inr aud, ws) ->
          time_time E (history ws ++ [EvTime]) < _token_expiry (self wi) - 300 ->
          fst (body E mj wi) = inr tok /\
          count is_issuance (since wi wj) = 0%nat) /\
       (forall aud ws,
          settle_audience E aj (logged wi (EvGetIdToken aj)) = (inr aud, ws) ->
          cache_miss E ws ->
          body E mj wi = refresh E aud (after_cache_test ws) /\
          (count is_issuance (since wi wj) <= 1)%nat /\
          forall tok, fst (body E mj wi) = inr tok ->
            count is_issuance (since wi wj) = 1%nat /\
            _cached_token (self wj) = tok)) /\
    (forall t0, healthy E t0 -> forallb is_get ms = true ->
       let wq := run_in_order E ms order w in
       (count is_issuance (since w wq) <= 1)%nat /\
       (forall i c r, Threads.callers f !! i = Some c -> Threads.result_of c = Some r ->
          r = inr (_cached_token (self w)) \/ r = inr (_cached_token (self wq))) /\
       (unusable t0 (self w) ->
        forall i c r, Threads.callers f !! i = Some c -> Threads.result_of c = Some r ->
          r = inr (_cached_token (self wq)) /\
          truthy (_cached_token (self wq)) = true /\
          count is_issuance (since w wq) = 1%nat)).
Proof.
  intros Hcut Hsteps.
  destruct (steps_abstracts E cut w ms f Hcut Hsteps) as (s & Hs & Habs).
  pose proof (lock_invariant_steps E _ s (lock_invariant_start w ms) Hs) as Hinv.
  destruct (serial_steps E w ms s Hs) as (order & Hnd & Hcs & Hord & Hw).
  pose proof Habs as (_ & _ & Hcallers & Hrun & Hquiet).
  assert (Hlook : forall i c, Threads.callers f !! i = Some c ->
                              callers s !! i = Some (erase_caller c)).
  { intros i c Hc. rewrite (lookup_erased f s i Hcallers), Hc. reflexivity. }
  assert (Hback : forall i c', callers s !! i = Some c' ->
                               exists c, Threads.callers f !! i = Some c /\
                                         c' = erase_caller c).
  { intros i c' Hc'. rewrite (lookup_erased f s i Hcallers) in Hc'.
    destruct (Threads.callers f !! i) as [c|]; [|discriminate].
    exists c. split; [reflexivity|]. simpl in Hc'. congruence. }
  assert (Hresults : forall k i, order !! k = Some i ->
            exists c, Threads.callers f !! i = Some c /\
                      Threads.result_of c
                      = Some (fst (body E (Threads.meth c)
                                     (world_before E ms order k w)))).
  { intros k i Hk. destruct (Hord k i Hk) as (c' & Hc' & Hr).
    destruct (Hback i c' Hc') as (c & Hc & ->).
    exists c. split; [exact Hc|]. rewrite <- erased_result. exact Hr. }
  assert (Hplace : forall i c r, Threads.callers f !! i = Some c ->
            Threads.result_of c = Some r ->
            exists k, order !! k = Some i /\
                      r = fst (body E (Threads.meth c) (world_before E ms order k w))).
  { intros i c r Hc Hr.
    destruct (Hcs i _ (Hlook i c Hc)) as [_ Hin].
    assert (Hi : i ∈ order) by (apply Hin; rewrite erased_result, Hr; discriminate).
    apply list_elem_of_lookup in Hi. destruct Hi as (k & Hk).
    exists k. split; [exact Hk|].
    destruct (Hresults k i Hk) as (c0 & Hc0 & Hr0).
    assert (c0 = c) by congruence. subst c0. congruence. }
  split; [|split].
  - intros i j ci cj Hi Hj Hbi Hbj.
    exact (only_one_inside E f s i j ci cj Habs Hinv Hi Hj Hbi Hbj).
  - intros i ci f' Hi Hbi Hstep.
    exact (threads_others_wait E cut w ms f f' i ci Hcut Hsteps Hi Hbi Hstep).
  - exists order. split; [exact Hnd|]. split; [|split; [exact Hresults|split; [|split; [|split]]]].
    + intros i c Hc. destruct (Hcs i _ (Hlook i c Hc)) as [Hm Hin].
      split; [exact Hm|]. rewrite <- erased_result. exact Hin.
    + intros i c t Hc Hpc. rewrite <- Hw. exact (Hrun i c t Hc Hpc).
    + intros Hq. rewrite <- Hw. exact (Hquiet Hq).
    + intros k i j mi mj ai aj Hk Hk' Hmi Hmj Hai Haj. cbv zeta.
      rewrite (world_before_next E ms order (S k) j mj w Hk' Hmj).
      rewrite (world_before_next E ms order k i mi w Hk Hmi).
      rewrite (body_audience E mi ai Hai), (body_audience E mj aj Haj).
      set (wb := world_before E ms order k w).
      destruct (get_id_token E ai wb) as [ri wi] eqn:Hgi. cbn [fst snd].
      split.
      * intros e He. subst ri.
        pose proof (get_id_token_frame E ai wb) as Hf. cbv zeta in Hf.
        rewrite Hgi in Hf. cbn [fst snd] in Hf. destruct Hf as (_ & Herr & _).
        exact (Herr e eq_refl).
      * split.
        -- intros tok aud ws Hr Htok Hsettle Hnow. subst ri.
           destruct (served_after E ai aj wb wi tok aud ws Hgi Htok Hsettle Hnow)
             as [Hgj Hz].
           rewrite Hgj. cbn [fst snd]. split; [reflexivity|exact Hz].
        -- intros aud ws Hsettle Hmiss.
           exact (own_refresh E aj aud wi ws Hsettle Hmiss).
    + intros t0 Hh Hall. cbv zeta.
      destruct (healthy_in_order E t0 ms Hh Hall order w) as (d & Hd & Hle & _ & Hres).
      rewrite (since_app _ _ _ Hd).
      split; [exact Hle|]. split.
      * intros i c r Hc Hr. destruct (Hplace i c r Hc Hr) as (k & Hk & ->).
        destruct (Hcs i _ (Hlook i c Hc)) as [Hm _].
        exact (proj1 (Hres k i _ Hk Hm)).
      * intros Hu i c r Hc Hr. destruct (Hplace i c r Hc Hr) as (k & Hk & ->).
        destruct (Hcs i _ (Hlook i c Hc)) as [Hm _].
        destruct (proj2 (Hres k i _ Hk Hm) Hu) as (H1 & H2 & H3). auto.
Qed.

(** Three calls at once on a manager whose token has run out, the
    threads taking turns statement by statement: one token is issued
    and all three calls return it. *)
Lemma single_refresh_at_a_time_witness :
  let f := Threads.exec_schedule (body_task env0) thirty_rounds
             (Threads.start world_stale three_calls) in
  map Threads.pc (Threads.callers f)
  = [Threads.Returned (inr (example_token 0));
     Threads.Returned (inr (example_token 0));
     Threads.Returned (inr (example_token 0))] /\
  exists order,
    NoDup order /\
    (count is_issuance
       (since world_stale (run_in_order env0 three_calls order world_stale)) <= 1)%nat.
Proof.
  cbv zeta. split; [vm_compute; reflexivity|].
  destruct (single_refresh_at_a_time env0 (body_task env0) world_stale three_calls
              (Threads.exec_schedule (body_task env0) thirty_rounds
                 (Threads.start world_stale three_calls))
              (run_body_task env0)
              (threads_exec_schedule_steps (body_task env0) thirty_rounds _ _
                 (Threads.steps_refl (body_task env0) _)))
    as (_ & _ & order & Hnd & _ & _ & _ & _ & _ & H).
  exists order. split; [exact Hnd|].
  exact (proj1 (H 1000 env0_healthy eq_refl)).
Defined.

(** With the token-exchange endpoint down, no call has a result to
    leave for the next: each of the three calls starts a refresh of
    its own when its turn comes, and the issuer is called three
    times. *)
Lemma single_refresh_at_a_time_counterexample :
  let f := Threads.exec_schedule (body_task env_outage) thirty_rounds
             (Threads.start world0 three_calls) in
  map Threads.pc (Threads.callers f)
  = [Threads.Returned (inl (ExternalError "connect"));
     Threads.Returned (inl (ExternalError "connect"));
     Threads.Returned (inl (ExternalError "connect"))] /\
  count is_issuance (since world0 (Threads.world f)) = 3%nat.
Proof. vm_compute. split; reflexivity. Qed.

(** The statements of the body do interleave in this model: were two
    calls inside together, both would find the cache empty, both
    would have a token issued, and the first would return the token
    of the second. It is the lock that keeps the refreshes apart, not
    the granularity of the steps. *)
Lemma two_inside_issue_twice :
  let f := Threads.exec_schedule (body_task env0) thirty_rounds two_inside in
  map Threads.pc (Threads.callers f)
  = [Threads.Returned (inr (example_token 1)); Threads.Returned (inr (example_token 1))] /\
  count is_issuance (since world0 (Threads.world f)) = 2%nat.
Proof. vm_compute. split; reflexivity. Qed.

(** * Further properties of the code *)

(** ** Ambient credentials *)

Lemma validate_keeps_handle (E : Env) (c : cred) (w : World) :
  let w' := snd (validate E c w) in
  self w' = self w /\
  exists d, history w' = history w ++ d /\
            count is_auth_default d = 0%nat /\ (count is_cred_refresh d <= 1)%nat /\
            (credentials_valid E c (history w) = true -> d = []).
Proof.
  unfold validate. destruct (credentials_valid E c (history w)).
  - simpl. split; [reflexivity|]. exists []. rewrite app_nil_r. auto.
  - destruct (credentials_refresh E c _); simpl;
      (split; [reflexivity|]; exists [EvCredRefresh c];
       split; [reflexivity|]; split; [reflexivity|]; split; [unfold count; simpl; lia|discriminate]).
Qed.

Lemma _get_application_credentials_with_handle (E : Env) (c : cred) (w : World) :
  _credentials (self w) = Some c ->
  let w' := snd (_get_application_credentials E w) in
  self w' = self w /\
  exists d, history w' = history w ++ d /\
            count is_auth_default d = 0%nat /\ (count is_cred_refresh d <= 1)%nat /\
            (credentials_valid E c (history w) = true -> d = []).
Proof.
  intros Hc. rewrite _get_application_credentials_unfold, Hc.
  exact (validate_keeps_handle E c w).
Qed.

Lemma refresh_keeps_handle (E : Env) (audience : pyval) (c : cred) (w : World) :
  _credentials (self w) = Some c ->
  let w' := snd (refresh E audience w) in
  _credentials (self w') = Some c /\
  exists d, history w' = history w ++ d /\ count is_auth_default d = 0%nat /\
            (count is_cred_refresh d <= 1)%nat.
Proof.
  intros Hc. cbv zeta. rewrite refresh_cases.
  destruct (setting_falsy _).
  { simpl. split; [exact Hc|]. exists []. rewrite app_nil_r. auto. }
  destruct (_get_application_credentials_with_handle E c w Hc) as (Hs & d & Hd & Hn & Hr & _).
  destruct (_get_application_credentials E w) as [[e|c'] w1]; simpl in Hs, Hd.
  { simpl. rewrite Hs. split; [exact Hc|]. exists d. auto. }
  cbv zeta.
  destruct (issuance_answer E audience c' (history w1)) as [e|resp];
    [|destruct (token_of resp) as [e|tok]]; unfold with_cache, logged, issuance_call; simpl;
    rewrite Hs, Hd, <- ?app_assoc;
    (split; [exact Hc|]); (eexists; split; [reflexivity|]);
    rewrite !count_app, !count_cons, !count_nil, Hn; simpl; split; lia.
Qed.

Lemma get_id_token_keeps_handle (E : Env) (audience : pyval) (c : cred) (w : World) :
  _credentials (self w) = Some c ->
  let w' := snd (get_id_token E audience w) in
  _credentials (self w') = Some c /\
  exists d, history w' = history w ++ d /\ count is_auth_default d = 0%nat /\
            (count is_cred_refresh d <= 1)%nat.
Proof.
  intros Hc. cbv zeta. rewrite get_id_token_phases.
  pose proof (settle_audience_frame E audience (logged w (EvGetIdToken audience))) as Hs.
  cbv zeta in Hs. destruct Hs as (_ & Hcr & (d1 & Hd1 & Hall1 & _) & _).
  assert (Hn1 : count is_auth_default d1 = 0%nat).
  { apply (count_zero _ is_resolution); auto. intros []; simpl; congruence. }
  assert (Hr1 : count is_cred_refresh d1 = 0%nat).
  { apply (count_zero _ is_resolution); auto. intros []; simpl; congruence. }
  destruct (settle_audience E audience (logged w (EvGetIdToken audience)))
    as [[e|aud] w1]; unfold logged in Hcr, Hd1; cbn [self history fst snd] in Hcr, Hd1.
  { simpl. split; [congruence|]. exists ([EvGetIdToken audience] ++ d1).
    rewrite Hd1, <- app_assoc, count_app, count_app, Hn1, Hr1. auto. }
  assert (Hc1 : _credentials (self w1) = Some c) by congruence.
  destruct (cache_hit (time_time E (history w1 ++ [EvTime])) (self w1)) eqn:Hhit.
  - rewrite (cached_or_refresh_hit _ _ _ Hhit). simpl. split; [exact Hc1|].
    exists (([EvGetIdToken audience] ++ d1) ++ [EvTime]).
    rewrite Hd1, <- !app_assoc, !count_app, Hn1, Hr1. auto.
  - rewrite (cached_or_refresh_miss _ _ _ Hhit).
    destruct (after_cache_test_frame w1) as (Hs0 & d0 & Hd0 & Hall0).
    assert (Hc0 : _credentials (self (after_cache_test w1)) = Some c) by (rewrite Hs0; exact Hc1).
    destruct (refresh_keeps_handle E aud c _ Hc0) as (Hk & d & Hd & Hn & Hr).
    split; [exact Hk|].
    exists (([EvGetIdToken audience] ++ d1) ++ d0 ++ d).
    rewrite Hd, Hd0, Hd1, <- !app_assoc. split; [reflexivity|].
    rewrite !count_app, Hn, Hn1, Hr1.
    rewrite (count_local is_auth_default d0), (count_local is_cred_refresh d0); auto;
      try (intros []; simpl; congruence).
Qed.

Lemma run_operations_keep_handle (E : Env) (c : cred) (ops : list operation) (w : World) :
  _credentials (self w) = Some c ->
  _credentials (self (run_operations E ops w)) = Some c /\
  exists d, history (run_operations E ops w) = history w ++ d /\
            count is_auth_default d = 0%nat.
Proof.
  revert w. induction ops as [|op ops IH]; intros w Hc; simpl.
  - split; [exact Hc|]. exists []. rewrite app_nil_r. auto.
  - assert (Hop : _credentials (self (run_operation E op w)) = Some c /\
                  exists d, history (run_operation E op w) = history w ++ d /\
                            count is_auth_default d = 0%nat).
    { destruct op as [audience|]; simpl.
      - destruct (get_id_token_keeps_handle E audience c w Hc) as (Hk & d & Hd & Hn & _).
        split; [exact Hk|]. exists d. auto.
      - destruct w as [[tok ex cr cid] h]. simpl in Hc. subst cr.
        split; [reflexivity|]. exists [EvClearCachedToken]. split; reflexivity. }
    destruct Hop as (Hk & d1 & Hd1 & Hn1).
    destruct (IH _ Hk) as (Hk' & d2 & Hd2 & Hn2).
    split; [exact Hk'|]. exists (d1 ++ d2).
    rewrite Hd2, Hd1, <- app_assoc, count_app, Hn1, Hn2. auto.
Qed.

(** X1. Once the manager holds a credentials handle, no sequence of
    later calls replaces it or calls [google.auth.default] again. *)
Theorem credentials_handle_obtained_once (E : Env) (c : cred)
    (ops : list operation) (w : World) :
  _credentials (self w) = Some c ->
  let w' := run_operations E ops w in
  _credentials (self w') = Some c /\
  count is_auth_default (since w w') = 0%nat.
Proof.
  intros Hc. cbv zeta.
  destruct (run_operations_keep_handle E c ops w Hc) as (Hk & d & Hd & Hn).
  split; [exact Hk|]. rewrite (since_app _ _ _ Hd). exact Hn.
Qed.

Lemma credentials_handle_obtained_once_witness :
  let w := snd (get_id_token env0 PNone world0) in
  let w' := run_operations env0
              [op_clear_cached_token; op_get_id_token PNone;
               op_get_id_token (PStr "aud-B")] w in
  count is_auth_default (since world0 w) = 1%nat /\
  _credentials (self w') = Some 0%nat /\
  count is_auth_default (since w w') = 0%nat.
Proof.
  cbv zeta. split; [vm_compute; reflexivity|].
  exact (credentials_handle_obtained_once env0 0%nat
           [op_clear_cached_token; op_get_id_token PNone; op_get_id_token (PStr "aud-B")]
           (snd (get_id_token env0 PNone world0)) eq_refl).
Defined.

(** X2. A call that gets as far as the refresh (its audience is
    settled, the cache test has failed, the impersonation setting is
    set) on a manager that holds no credentials handle. When
    [google.auth.default] fails, the call fails with that error and no
    handle is stored. When it answers with credentials that are not
    valid and whose refresh fails, the call fails with the refresh
    error right after these two calls on the credentials, no issuance
    call is made, the cache is as it was, and the handle is kept all
    the same, so that no later call asks [google.auth.default] again.
    This holds whether the audience was supplied, memoized or looked
    up, and whether the cache was empty or stale. *)
Theorem get_id_token_credential_failures (E : Env) (audience aud : pyval) (w w1 : World) :
  settle_audience E audience (logged w (EvGetIdToken audience)) = (inr aud, w1) ->
  cache_miss E w1 ->
  setting_falsy (PREFECT_API_IAP_IMPERSONATE_SERVICE_ACCOUNT E) = false ->
  _credentials (self w) = None ->
  let h := history (after_cache_test w1) ++ [EvAuthDefault] in
  let r := fst (get_id_token E audience w) in
  let w' := snd (get_id_token E audience w) in
  (forall e, google_auth_default E h = inl e ->
     r = inl e /\ self w' = self w1 /\ history w' = h /\
     _credentials (self w') = None) /\
  (forall c e, google_auth_default E h = inr c ->
     credentials_valid E c h = false ->
     credentials_refresh E c (h ++ [EvCredRefresh c]) = inl e ->
     r = inl e /\
     history w' = h ++ [EvCredRefresh c] /\
     same_cache w w' /\
     count is_issuance (since w w') = 0%nat /\
     _credentials (self w') = Some c /\
     forall ops, count is_auth_default (since w' (run_operations E ops w')) = 0%nat).
Proof.
  intros Hs Hmiss Hcfg Hnone. cbv zeta.
  rewrite (get_id_token_settled_miss E audience aud w w1 Hs Hmiss).
  destruct (settled_history E audience aud w w1 Hs)
    as ([Hc1 Hc2] & Hcr & d0 & Hd0 & Hi0 & _ & Hself).
  set (wt := after_cache_test w1) in *.
  assert (Hnone' : _credentials (self wt) = None) by (rewrite Hself, Hcr; exact Hnone).
  rewrite refresh_cases, Hcfg, _get_application_credentials_unfold, Hnone'.
  split.
  - intros e Hd. rewrite Hd. cbn [fst snd logged self history].
    split; [reflexivity|]. split; [exact Hself|]. split; [reflexivity|exact Hnone'].
  - intros c e Hd Hv Hr. rewrite Hd. unfold validate, with_credentials, logged.
    cbn [self history]. rewrite Hv, Hr. cbn [fst snd self history].
    split; [reflexivity|]. split; [reflexivity|].
    split; [split; cbn [_cached_token _token_expiry]; rewrite Hself; assumption|].
    split.
    { erewrite since_app; [|rewrite Hd0, <- !app_assoc; reflexivity].
      rewrite !count_app, Hi0. reflexivity. }
    split; [reflexivity|].
    intros ops.
    match goal with |- count _ (since ?w1 _) = _ =>
      destruct (run_operations_keep_handle E c ops w1 eq_refl) as (_ & d & Hdd & Hn)
    end.
    rewrite (since_app _ _ _ Hdd). exact Hn.
Qed.

Lemma get_id_token_credential_failures_witness :
  let w' := snd (get_id_token env_stale_credentials PNone world0) in
  fst (get_id_token env_stale_credentials PNone world0)
    = inl (ExternalError "refresh") /\
  since world0 w' = [EvGetIdToken PNone; resolution_call env_stale_credentials;
                     EvAuthDefault; EvCredRefresh 7%nat] /\
  _credentials (self w') = Some 7%nat /\
  count is_issuance (since world0 w') = 0%nat.
Proof.
  destruct (get_id_token_credential_failures env_stale_credentials PNone (PStr "client-1")
              world0
              (snd (settle_audience env_stale_credentials PNone
                      (logged world0 (EvGetIdToken PNone))))
              ltac:(vm_compute; reflexivity) (or_introl eq_refl) eq_refl eq_refl) as [_ H].
  destruct (H 7%nat (ExternalError "refresh") eq_refl eq_refl eq_refl)
    as (Hr & _ & _ & Hi & Hc & _).
  cbv zeta. split; [exact Hr|]. split; [vm_compute; reflexivity|].
  split; [exact Hc|exact Hi].
Defined.

(** ** Configuration of the audience lookup *)

(** X3. With the secret version path unset (or empty) and no client id
    memoized, a call that omits the audience fails with the
    configuration error naming that setting before the cache is looked
    at, so also when a valid token is cached; it makes no remote call
    and changes no field. *)
Theorem get_id_token_without_secret_version (E : Env) (w : World) :
  setting_falsy (PREFECT_API_IAP_CLIENT_ID_GCP_SECRET_VERSION E) = true ->
  truthy (_client_id (self w)) = false ->
  get_id_token E PNone w
  = (inl (ValueError msg_secret_version), logged w (EvGetIdToken PNone)) /\
  count is_remote (since w (snd (get_id_token E PNone w))) = 0%nat.
Proof.
  intros Hcfg Hm.
  assert (H : get_id_token E PNone w
              = (inl (ValueError msg_secret_version), logged w (EvGetIdToken PNone))).
  { rewrite get_id_token_phases. unfold settle_audience. cbn [is_None].
    rewrite client_id_unfold. simpl self. rewrite Hm.
    rewrite _get_client_id_from_secret_unfold. simpl self. rewrite Hm, Hcfg. reflexivity. }
  split; [exact H|]. rewrite H. cbn [snd].
  rewrite (since_app w _ [EvGetIdToken PNone]) by reflexivity. reflexivity.
Qed.

(** In [env_no_secret_version] a token obtained for a supplied
    audience is cached and valid, and the next call, which omits the
    audience, fails all the same. *)
Lemma get_id_token_without_secret_version_witness :
  let w := snd (get_id_token env_no_secret_version (PStr "aud-A") world0) in
  fst (get_id_token env_no_secret_version (PStr "aud-A") world0) = inr (example_token 0) /\
  cache_hit 1000 (self w) = true /\
  fst (get_id_token env_no_secret_version PNone w) = inl (ValueError msg_secret_version).
Proof.
  cbv zeta. split; [vm_compute; reflexivity|]. split; [vm_compute; reflexivity|].
  destruct (get_id_token_without_secret_version env_no_secret_version
              (snd (get_id_token env_no_secret_version (PStr "aud-A") world0))
              eq_refl eq_refl) as [H _].
  rewrite H. reflexivity.
Defined.

(** X4. With the settings at the defaults of [IAPSettings], every call
    on a manager with nothing cached and nothing memoized fails with a
    configuration error and touches nothing outside the process: the
    error names the secret version path when the audience is omitted
    and the impersonated service account when it is supplied. *)
Theorem get_id_token_with_default_settings (E : Env) (audience : pyval) (w : World) :
  settings E = IAPSettings_default ->
  truthy (_cached_token (self w)) = false ->
  truthy (_client_id (self w)) = false ->
  get_id_token E audience w
  = (inl (ValueError (if is_None audience then msg_secret_version
                      else msg_service_account)),
     logged w (EvGetIdToken audience)).
Proof.
  intros Hs Hempty Hm.
  assert (H1 : setting_falsy (PREFECT_API_IAP_CLIENT_ID_GCP_SECRET_VERSION E) = true)
    by (unfold PREFECT_API_IAP_CLIENT_ID_GCP_SECRET_VERSION; rewrite Hs; reflexivity).
  assert (H2 : setting_falsy (PREFECT_API_IAP_IMPERSONATE_SERVICE_ACCOUNT E) = true)
    by (unfold PREFECT_API_IAP_IMPERSONATE_SERVICE_ACCOUNT; rewrite Hs; reflexivity).
  destruct (is_None audience) eqn:Ha.
  - destruct audience; try discriminate.
    rewrite get_id_token_phases. unfold settle_audience. cbn [is_None].
    rewrite client_id_unfold. simpl self. rewrite Hm.
    rewrite _get_client_id_from_secret_unfold. simpl self. rewrite Hm, H1. reflexivity.
  - assert (Hmiss : cache_hit (time_time E (history w ++ [EvGetIdToken audience; EvTime]))
                      (self w) = false) by (apply cache_hit_false; left; exact Hempty).
    rewrite (get_id_token_miss E audience w (or_introl Ha) Hmiss).
    unfold after_cache_test. simpl self. rewrite Hempty.
    rewrite refresh_cases, H2. reflexivity.
Qed.

Lemma get_id_token_with_default_settings_witness :
  fst (get_id_token env_defaults PNone world0) = inl (ValueError msg_secret_version) /\
  fst (get_id_token env_defaults (PStr "aud-A") world0)
    = inl (ValueError msg_service_account).
Proof.
  split.
  - rewrite (get_id_token_with_default_settings env_defaults PNone world0
               eq_refl eq_refl eq_refl). reflexivity.
  - rewrite (get_id_token_with_default_settings env_defaults (PStr "aud-A") world0
               eq_refl eq_refl eq_refl). reflexivity.
Defined.

(** ** Malformed documents *)

(** X5. A secret that is a JSON object without [client_id] but with a
    [web] member makes the resolution fail unless that member is an
    object with a [client_id]: with [KeyError] when the key is missing,
    with [TypeError] when the member is not an object; an [installed]
    member beside it is not consulted. The same holds for [installed]
    when there is no [web]. One lookup has been made and no field has
    changed. *)
Theorem _get_client_id_from_secret_malformed_member (E : Env) (w : World)
    (payload : string) (o : list (string * pyval)) :
  truthy (_client_id (self w)) = false ->
  setting_falsy (PREFECT_API_IAP_CLIENT_ID_GCP_SECRET_VERSION E) = false ->
  resolution_answer E (history w) = inr payload ->
  json_loads E (strip payload) = Some (PDict o) ->
  dict_get "client_id" o = None ->
  let r := fst (_get_client_id_from_secret E w) in
  let w' := snd (_get_client_id_from_secret E w) in
  (forall o', dict_get "web" o = Some (PDict o') ->
     dict_get "client_id" o' = None -> r = inl (KeyError "client_id")) /\
  (forall v, dict_get "web" o = Some v ->
     isinstance_dict v = false -> r = inl TypeError) /\
  (forall o', dict_get "web" o = None ->
     dict_get "installed" o = Some (PDict o') ->
     dict_get "client_id" o' = None -> r = inl (KeyError "client_id")) /\
  (forall v, dict_get "web" o = None ->
     dict_get "installed" o = Some v ->
     isinstance_dict v = false -> r = inl TypeError) /\
  w' = logged w (resolution_call E).
Proof.
  intros Hmemo Hcfg Hans Hj Hk. cbv zeta.
  rewrite _get_client_id_from_secret_unfold, Hmemo, Hcfg. cbv zeta. rewrite Hans.
  simpl fst. simpl snd. unfold client_id_of_payload. cbv zeta. rewrite Hj.
  unfold py_in, subscript. cbn [andb isinstance_dict]. rewrite Hk.
  repeat split.
  - intros o' Hw Hk'. rewrite Hw, Hk'. reflexivity.
  - intros v Hw Hv. rewrite Hw. destruct v; try discriminate; reflexivity.
  - intros o' Hw Hi Hk'. rewrite Hw, Hi, Hk'. reflexivity.
  - intros v Hw Hi Hv. rewrite Hw, Hi. destruct v; try discriminate; reflexivity.
Qed.

(** The secret [{"web": {}}] raises [KeyError]. *)
Lemma _get_client_id_from_secret_malformed_member_witness :
  fst (_get_client_id_from_secret (env_secret (json_object1 "web" "{}")) world0)
    = inl (KeyError "client_id").
Proof.
  destruct (_get_client_id_from_secret_malformed_member
              (env_secret (json_object1 "web" "{}")) world0
              (json_object1 "web" "{}") [("web", PDict [])]
              eq_refl eq_refl eq_refl eq_refl eq_refl) as (H & _).
  exact (H [] eq_refl eq_refl).
Defined.

(** X6. A call that gets as far as the issuance call (its audience is
    settled, the cache test has failed, the credentials are there) and
    is answered with a successful reply that carries no usable token
    fails right after that one issuance call: with the decoder's error
    when the body is not JSON, with [TypeError] when the document is
    not an object, with [KeyError] when it has no [token] member; the
    cache keeps what it had, be it empty or stale. This holds whether
    the audience was supplied, memoized or looked up. *)
Theorem get_id_token_reply_without_token (E : Env) (audience aud : pyval) (w w1 : World)
    (c : cred) (w2 : World) (resp : Response) :
  settle_audience E audience (logged w (EvGetIdToken audience)) = (inr aud, w1) ->
  cache_miss E w1 ->
  setting_falsy (PREFECT_API_IAP_IMPERSONATE_SERVICE_ACCOUNT E) = false ->
  _get_application_credentials E (after_cache_test w1) = (inr c, w2) ->
  issuance_answer E aud c (history w2) = inr resp ->
  is_success resp = true ->
  let r := fst (get_id_token E audience w) in
  let w' := snd (get_id_token E audience w) in
  (forall e, json resp = inl e -> r = inl e) /\
  (forall data, json resp = inr data -> isinstance_dict data = false ->
     r = inl TypeError) /\
  (forall o, json resp = inr (PDict o) -> dict_get "token" o = None ->
     r = inl (KeyError "token")) /\
  (forall e, r = inl e ->
     same_cache w w' /\ count is_issuance (since w w') = 1%nat /\
     history w' = history w2 ++ [issuance_call E aud c (history w2)]).
Proof.
  intros Hs Hmiss Hcfg Hcr Hans Hok. cbv zeta.
  rewrite (get_id_token_settled_miss E audience aud w w1 Hs Hmiss).
  destruct (settled_history E audience aud w w1 Hs)
    as ([Hc1 Hc2] & _ & d0 & Hd0 & Hi0 & _ & Hself).
  set (wt := after_cache_test w1) in *.
  rewrite refresh_cases, Hcfg, Hcr. cbv zeta. rewrite Hans.
  unfold token_of. rewrite Hok.
  pose proof (_get_application_credentials_frame E wt) as Hf.
  cbv zeta in Hf. rewrite Hcr in Hf. cbn [snd] in Hf.
  destruct Hf as ([Hg1 Hg2] & _ & d & Hd & Hall).
  split; [|split; [|split]].
  - intros e He. rewrite He. reflexivity.
  - intros data He Hd'. rewrite He. unfold subscript.
    destruct data; try discriminate; reflexivity.
  - intros o He Hk. rewrite He. unfold subscript. rewrite Hk. reflexivity.
  - assert (Hcnt : count is_issuance
                     ((d0 ++ d) ++ [issuance_call E aud c (history w2)]) = 1%nat).
    { rewrite !count_app, Hi0,
        (count_zero is_issuance is_cred_event d ltac:(intros []; simpl; congruence) Hall).
      reflexivity. }
    intros e0.
    destruct (json resp) as [e'|data]; [|destruct (subscript data "token")];
      cbn [fst snd]; intros H; try discriminate;
      (split; [split; cbn [logged self]; [rewrite Hg1, Hself; exact Hc1
                                         |rewrite Hg2, Hself; exact Hc2]|]);
      (split; [|reflexivity]);
      (erewrite since_app; [exact Hcnt|]);
      unfold logged; cbn [history]; rewrite Hd, Hd0;
      rewrite <- !app_assoc; reflexivity.
Qed.

Lemma get_id_token_reply_without_token_witness :
  fst (get_id_token env_reply_without_token PNone world0)
    = inl (KeyError "token").
Proof.
  destruct (get_id_token_reply_without_token env_reply_without_token PNone
              (PStr "client-1") world0
              (snd (settle_audience env_reply_without_token PNone
                      (logged world0 (EvGetIdToken PNone))))
              0%nat
              (snd (_get_application_credentials env_reply_without_token
                      (after_cache_test
                         (snd (settle_audience env_reply_without_token PNone
                                 (logged world0 (EvGetIdToken PNone)))))))
              {| status_code := 200; json := inr (PDict [("error", PStr "none")]) |}
              ltac:(vm_compute; reflexivity) (or_introl eq_refl) eq_refl
              ltac:(vm_compute; reflexivity) ltac:(vm_compute; reflexivity) eq_refl)
    as (_ & _ & H & _).
  exact (H [("error", PStr "none")] eq_refl eq_refl).
Defined.

(** ** The issuance request *)

Lemma get_id_token_refreshed (E : Env) (audience : pyval) (w : World)
    (tok : pyval) (w' : World) :
  get_id_token E audience w = (inr tok, w') ->
  count is_issuance (since w w') = 1%nat ->
  _token_expiry (self w') = time_time E (history w') + 3600 /\
  _cached_token (self w') = tok.
Proof.
  rewrite get_id_token_phases.
  pose proof (settle_audience_frame E audience (logged w (EvGetIdToken audience))) as Hs.
  cbv zeta in Hs. destruct Hs as (_ & _ & (d1 & Hd1 & Hall1 & _) & _).
  destruct (settle_audience E audience (logged w (EvGetIdToken audience)))
    as [[e|aud] w1]; [discriminate|].
  unfold logged in Hd1. cbn [history snd] in Hd1.
  destruct (cache_hit (time_time E (history w1 ++ [EvTime])) (self w1)) eqn:Hhit.
  - rewrite (cached_or_refresh_hit _ _ _ Hhit). intros H. inversion H; subst; clear H.
    rewrite (since_app w (logged w1 EvTime) (([EvGetIdToken audience] ++ d1) ++ [EvTime])).
    2:{ simpl. rewrite Hd1, <- !app_assoc. reflexivity. }
    rewrite !count_app, (count_zero is_issuance _ d1 resolution_not_issuance Hall1).
    simpl. discriminate.
  - rewrite (cached_or_refresh_miss _ _ _ Hhit). intros Hr _.
    destruct (refresh_success E aud _ tok w' Hr) as (c & w2 & resp & _ & _ & _ & _ & Hc & He).
    split; [exact He|exact Hc].
Qed.

(** Where the one event that satisfies [p] stands in a list. *)
Lemma position_unique (p : event -> bool) (a a' b b' : list event) (x x' : event) :
  count p a = 0%nat -> p x = true -> count p b = 0%nat -> p x' = true ->
  a ++ x :: b = a' ++ x' :: b' ->
  a' = a /\ x' = x /\ b' = b.
Proof.
  intros Ha Hx Hb Hx'. revert a' Ha.
  induction a as [|y a IH]; intros a' Ha Heq.
  - destruct a' as [|y' a']; simpl in Heq.
    + inversion Heq. auto.
    + inversion Heq; subst y'. exfalso.
      assert (Hc : count p (a' ++ x' :: b') = 0%nat) by (rewrite <- H1; exact Hb).
      rewrite count_app, count_cons, Hx' in Hc. lia.
  - rewrite count_cons in Ha. destruct (p y) eqn:Hy; [discriminate|]. simpl in Ha.
    destruct a' as [|y' a']; simpl in Heq.
    + inversion Heq; subst. congruence.
    + inversion Heq; subst y'. destruct (IH a' Ha H1) as (-> & -> & ->). auto.
Qed.

Lemma validate_result (E : Env) (c c' : cred) (w w1 : World) :
  validate E c w = (inr c', w1) -> c' = c /\ self w1 = self w.
Proof.
  unfold validate. destruct (credentials_valid E c (history w)).
  - intros H. inversion H. auto.
  - destruct (credentials_refresh E c _); intros H; inversion H. auto.
Qed.

(** The handle [_get_application_credentials] returns is the one the
    manager holds afterwards. *)
Lemma _get_application_credentials_handle (E : Env) (c : cred) (w w1 : World) :
  _get_application_credentials E w = (inr c, w1) -> _credentials (self w1) = Some c.
Proof.
  rewrite _get_application_credentials_unfold.
  destruct (_credentials (self w)) as [c0|] eqn:Hc.
  - intros H. destruct (validate_result E c0 c w w1 H) as [-> ->]. exact Hc.
  - destruct (google_auth_default E _) as [e|c0]; [discriminate|].
    intros H. destruct (validate_result E c0 c _ w1 H) as [-> ->]. reflexivity.
Qed.

(** The calls of a refresh: those on the credentials, then at most
    one issuance call, made with the token of the manager's own
    credentials as it is when the call is made. *)
Lemma refresh_trace (E : Env) (aud : pyval) (w : World) :
  let w' := snd (refresh E aud w) in
  (exists d, history w' = history w ++ d /\ count is_issuance d = 0%nat) \/
  (exists c d1 d2,
     history w' = history w ++ d1 ++ issuance_call E aud c (history w ++ d1) :: d2 /\
     count is_issuance d1 = 0%nat /\ count is_issuance d2 = 0%nat /\
     _credentials (self w') = Some c).
Proof.
  cbv zeta. rewrite refresh_cases.
  destruct (setting_falsy _).
  { left. exists []. rewrite app_nil_r. auto. }
  pose proof (_get_application_credentials_frame E w) as Hf. cbv zeta in Hf.
  destruct Hf as (_ & _ & d & Hd & Hall).
  assert (Hi : count is_issuance d = 0%nat)
    by (apply (count_zero _ is_cred_event); auto; intros []; simpl; congruence).
  destruct (_get_application_credentials E w) as [[e|c] w1] eqn:Hcr; cbn [snd] in Hd.
  { left. exists d. auto. }
  pose proof (_get_application_credentials_handle E c w w1 Hcr) as Hh.
  right. exists c, d. cbv zeta.
  destruct (issuance_answer E aud c (history w1)) as [e|resp];
    [|destruct (token_of resp) as [e|tok]]; cbn [snd logged with_cache self history
                                                 _credentials].
  - exists []. rewrite Hd, <- app_assoc. auto.
  - exists []. rewrite Hd, <- app_assoc. auto.
  - exists [EvTime]. rewrite Hd, <- !app_assoc. auto.
Qed.

Lemma get_id_token_trace (E : Env) (audience : pyval) (w : World) :
  let w' := snd (get_id_token E audience w) in
  (exists d, history w' = history w ++ d /\ count is_issuance d = 0%nat) \/
  (exists c d1 d2,
     history w'
     = history w ++ d1 ++
       issuance_call E (if is_None audience then _client_id (self w') else audience)
         c (history w ++ d1) :: d2 /\
     count is_issuance d1 = 0%nat /\ count is_issuance d2 = 0%nat /\
     _credentials (self w') = Some c).
Proof.
  cbv zeta. rewrite get_id_token_phases.
  destruct (settle_audience_cases E audience (logged w (EvGetIdToken audience)))
    as (_ & Hfail & Hok).
  destruct (settle_audience E audience (logged w (EvGetIdToken audience)))
    as [[e|aud] w1] eqn:Hs.
  { destruct (Hfail e w1 eq_refl) as (_ & _ & _ & d & Hd & Hall & _).
    left. exists ([EvGetIdToken audience] ++ d). cbn [snd logged history] in *.
    rewrite Hd, <- app_assoc. split; [reflexivity|].
    rewrite count_app, (count_zero is_issuance _ d resolution_not_issuance Hall).
    reflexivity. }
  destruct (Hok aud w1 eq_refl) as (_ & _ & Haud & d & Hd & Hall & _).
  cbn [logged history] in Hd.
  assert (Hi : count is_issuance d = 0%nat)
    by exact (count_zero is_issuance _ d resolution_not_issuance Hall).
  destruct (cache_hit (time_time E (history w1 ++ [EvTime])) (self w1)) eqn:Hhit.
  { rewrite (cached_or_refresh_hit _ _ _ Hhit). left.
    exists (([EvGetIdToken audience] ++ d) ++ [EvTime]). cbn [snd logged history].
    rewrite Hd, <- !app_assoc. split; [reflexivity|].
    rewrite !count_app, Hi. reflexivity. }
  pose proof (cached_or_refresh_frame E aud w1) as Hfr. cbv zeta in Hfr.
  destruct Hfr as (Hid & _).
  rewrite (cached_or_refresh_miss _ _ _ Hhit) in *.
  destruct (after_cache_test_frame w1) as (_ & d0 & Hd0 & Hall0).
  assert (Hi0 : count is_issuance d0 = 0%nat)
    by exact (count_local is_issuance d0 local_not_issuance Hall0).
  assert (Haud' : (if is_None audience
                   then _client_id (self (snd (refresh E aud (after_cache_test w1))))
                   else audience) = aud).
  { destruct (is_None audience) eqn:Hn.
    - rewrite Hid. exact (Haud eq_refl).
    - unfold settle_audience in Hs. rewrite Hn in Hs. inversion Hs. reflexivity. }
  rewrite Haud'.
  destruct (refresh_trace E aud (after_cache_test w1))
    as [(d' & Hd' & Hi')|(c & d1 & d2 & Hd' & Hi1 & Hi2 & Hc)].
  - left. exists ((([EvGetIdToken audience] ++ d) ++ d0) ++ d').
    rewrite Hd', Hd0, Hd, <- !app_assoc. split; [reflexivity|].
    rewrite !count_app, Hi, Hi0, Hi'. reflexivity.
  - right. exists c, ((([EvGetIdToken audience] ++ d) ++ d0) ++ d1), d2.
    split.
    + rewrite Hd', Hd0, Hd, <- !app_assoc. reflexivity.
    + rewrite !count_app, Hi, Hi0, Hi1. auto.
Qed.

(** X7. Every issuance call a token request makes, whether or not the
    request succeeds and whether its audience was supplied, memoized
    or looked up, is the only one of that request and is sent to the
    [generateIdToken] endpoint of the impersonated service account;
    its payload is the audience the request is for (the supplied
    audience, else the client id the manager holds) and [includeEmail]
    set to the text [true]; its headers are the JSON content type and,
    as bearer, the access token that the credentials the manager holds
    have at the moment of the call, and nothing else. *)
Theorem get_id_token_issuance_request (E : Env) (audience : pyval) (w : World)
    (d1 d2 : list event)
    (url : string) (headers : gmap string string) (payload : list (string * pyval)) :
  let w' := snd (get_id_token E audience w) in
  since w w' = d1 ++ EvPost url headers payload :: d2 ->
  exists c,
    _credentials (self w') = Some c /\
    url = generateIdToken_url (default "" (PREFECT_API_IAP_IMPERSONATE_SERVICE_ACCOUNT E)) /\
    payload = [("audience", if is_None audience then _client_id (self w') else audience);
               ("includeEmail", PStr "true")] /\
    headers !! "Content-Type" = Some "application/json; charset=utf-8" /\
    headers !! "Authorization"
      = Some ("Bearer " +:+ credentials_token E c (history w ++ d1)) /\
    (forall k, k <> "Content-Type" -> k <> "Authorization" -> headers !! k = None) /\
    count is_issuance d1 = 0%nat /\ count is_issuance d2 = 0%nat.
Proof.
  cbv zeta. intros Hsince.
  destruct (get_id_token_trace E audience w)
    as [(d & Hd & Hi)|(c & a & b & Hd & Hia & Hib & Hc)]; cbv zeta in *.
  - exfalso. rewrite (since_app _ _ _ Hd) in Hsince.
    rewrite Hsince, count_app, count_cons in Hi. simpl in Hi. lia.
  - rewrite (since_app _ _ _ Hd) in Hsince.
    assert (Hx : forall aud h, is_issuance (issuance_call E aud c h) = true)
      by (intros; reflexivity).
    destruct (position_unique is_issuance a d1 b d2 _ (EvPost url headers payload)
                Hia (Hx _ _) Hib eq_refl Hsince)
      as (-> & Heq & ->).
    unfold issuance_call in Heq. inversion Heq; subst url headers payload.
    exists c. split; [exact Hc|]. split; [reflexivity|]. split; [reflexivity|].
    unfold generateIdToken_headers.
    split; [apply lookup_insert_eq|].
    split; [rewrite lookup_insert_ne by discriminate; apply lookup_insert_eq|].
    split; [|auto].
    intros k Hk1 Hk2. rewrite !lookup_insert_ne by congruence. apply lookup_empty.
Qed.

Lemma get_id_token_issuance_request_witness :
  exists c,
    _credentials (self (snd (get_id_token env0 PNone world0))) = Some c /\
    generateIdToken_payload (PStr "client-1")
      = [("audience", _client_id (self (snd (get_id_token env0 PNone world0))));
         ("includeEmail", PStr "true")] /\
    generateIdToken_headers "access" !! "Authorization" = Some "Bearer access".
Proof.
  destruct (get_id_token_issuance_request env0 PNone world0
              [EvGetIdToken PNone; resolution_call env0; EvAuthDefault] [EvTime]
              (generateIdToken_url "caller@p.iam.gserviceaccount.com")
              (generateIdToken_headers "access")
              (generateIdToken_payload (PStr "client-1"))
              ltac:(vm_compute; reflexivity))
    as (c & Hc & _ & Hp & _ & Ha & _).
  exists c. split; [exact Hc|]. split; [exact Hp|exact Ha].
Defined.

(** ** The reuse window *)

(** X8. A token obtained by a refresh is served from the cache to
    every later call whose clock reads less than 3300 seconds after the
    clock read by that refresh, and to none from 3300 seconds on: such
    a call refreshes again. *)
Theorem token_reuse_window (E : Env) (audience audience2 : pyval) (w : World)
    (tok : pyval) (w1 : World) :
  get_id_token E audience w = (inr tok, w1) ->
  count is_issuance (since w w1) = 1%nat ->
  truthy tok = true ->
  is_None audience2 = false \/ truthy (_client_id (self w1)) = true ->
  let issued := time_time E (history w1) in
  let now := time_time E (history w1 ++ [EvGetIdToken audience2; EvTime]) in
  (now < issued + 3300 ->
   fst (get_id_token E audience2 w1) = inr tok /\
   count is_issuance (since w1 (snd (get_id_token E audience2 w1))) = 0%nat) /\
  (issued + 3300 <= now ->
   get_id_token E audience2 w1 =
   refresh E (if is_None audience2 then _client_id (self w1) else audience2)
     (logged (logged w1 (EvGetIdToken audience2)) EvTime)).
Proof.
  intros Hget Hone Htruthy Ha. cbv zeta.
  destruct (get_id_token_refreshed E audience w tok w1 Hget Hone) as [Hexp Hcached].
  split.
  - intros Hlt.
    assert (Hhit : cache_hit (time_time E (history w1 ++ [EvGetIdToken audience2; EvTime]))
                     (self w1) = true).
    { apply cache_hit_true. rewrite Hcached, Hexp. split; [exact Htruthy|lia]. }
    rewrite (get_id_token_hit E audience2 w1 Ha Hhit). cbn [fst snd].
    rewrite Hcached. split; [reflexivity|].
    rewrite (since_app w1 _ [EvGetIdToken audience2; EvTime]) by reflexivity. reflexivity.
  - intros Hge.
    assert (Hmiss : cache_hit (time_time E (history w1 ++ [EvGetIdToken audience2; EvTime]))
                      (self w1) = false).
    { apply cache_hit_false. right. rewrite Hexp. lia. }
    rewrite (get_id_token_miss E audience2 w1 Ha Hmiss).
    unfold after_cache_test. simpl self. rewrite Hcached, Htruthy. reflexivity.
Qed.

(** With a clock that advances by one second per recorded call, a
    token issued at second 4 is still served at second 6. *)
Lemma token_reuse_window_witness :
  let w1 := snd (get_id_token env_ticking (PStr "aud-A") world0) in
  time_time env_ticking (history w1) = 4 /\
  fst (get_id_token env_ticking (PStr "aud-B") w1) = inr (example_token 0).
Proof.
  cbv zeta. split; [vm_compute; reflexivity|].
  destruct (token_reuse_window env_ticking (PStr "aud-A") (PStr "aud-B") world0
              (example_token 0)
              (snd (get_id_token env_ticking (PStr "aud-A") world0))) as [H _].
  - vm_compute; reflexivity.
  - vm_compute; reflexivity.
  - reflexivity.
  - left; reflexivity.
  - destruct H as [Hr _]; [vm_compute; reflexivity|exact Hr].
Defined.

Lemma get_id_token_after_clear (E : Env) (audience : pyval) (w : World) :
  let wb := snd (clear_cached_token w) in
  let r := fst (get_id_token E audience wb) in
  let w' := snd (get_id_token E audience wb) in
  (forall tok, r = inr tok ->
     count is_issuance (since wb w') = 1%nat /\
     _cached_token (self w') = tok /\
     _token_expiry (self w') = time_time E (history w') + 3600) /\
  (forall e, r = inl e ->
     _cached_token (self w') = PNone /\ _token_expiry (self w') = 0).
Proof.
  cbv zeta.
  destruct (clear_cached_token_history w) as [_ Hempty].
  assert (Hfields : _cached_token (self (snd (clear_cached_token w))) = PNone /\
                    _token_expiry (self (snd (clear_cached_token w))) = 0)
    by (destruct w as [[tok ex cr cid] h]; split; reflexivity).
  set (wb := snd (clear_cached_token w)) in *.
  destruct (get_id_token E audience wb) as [r w'] eqn:Hget. cbn [fst snd].
  split.
  - intros tok Hr. subst r.
    pose proof (get_id_token_from_empty_cache E audience wb tok w' Hempty Hget) as Hone.
    destruct (get_id_token_refreshed E audience wb tok w' Hget Hone) as [Hexp Hc].
    auto.
  - intros e Hr. subst r.
    pose proof (get_id_token_frame E audience wb) as Hf. cbv zeta in Hf.
    rewrite Hget in Hf. cbn [fst snd] in Hf. destruct Hf as (_ & Herr & _).
    destruct (Herr e eq_refl) as [H1 H2]. destruct Hfields as [F1 F2].
    rewrite H1, H2. auto.
Qed.

(** X9. After [clear_cached_token] the next token request never
    answers from the cache, whatever was cached before: if it
    succeeds it has made exactly one issuance call and stored the new
    token with an expiry 3600 seconds after the clock it read; if it
    fails the cache is left empty. *)
Theorem clear_cached_token_forces_refresh (E : Env) (audience : pyval) (w : World) :
  let wb := snd (clear_cached_token w) in
  let r := fst (get_id_token E audience wb) in
  let w' := snd (get_id_token E audience wb) in
  (forall tok, r = inr tok ->
     count is_issuance (since wb w') = 1%nat /\
     _cached_token (self w') = tok /\
     _token_expiry (self w') = time_time E (history w') + 3600) /\
  (forall e, r = inl e ->
     _cached_token (self w') = PNone /\ _token_expiry (self w') = 0).
Proof. exact (get_id_token_after_clear E audience w). Qed.

(** ** Every run of the request flow *)

Lemma get_id_token_calls_counted (E : Env) (audience : pyval) (w : World) :
  exists d, history (snd (get_id_token E audience w))
            = history w ++ EvGetIdToken audience :: d /\
            forallb is_collaborator_call d = true /\
            (count is_issuance d <= 1)%nat.
Proof.
  destruct (get_id_token_calls E audience w) as (d & Hd & Hall).
  pose proof (get_id_token_frame E audience w) as Hf. cbv zeta in Hf.
  destruct Hf as ((d' & Hd' & _ & Hi) & _).
  rewrite Hd in Hd'. apply app_inv_head in Hd'. inversion Hd'; subst d'.
  exists d. auto.
Qed.

(** The calls one exchange records, in order: the first acquisition;
    then, if it succeeded, the first dispatch; then, after a 401, the
    invalidation and the second acquisition; then, if that succeeded,
    the second dispatch. *)
Lemma exchange_shape (E : Env) (auth : IAPAuth.t) (fuel : nat)
    (request : Request) (w : World) :
  let run := IAPAuth.send_handling_auth E (IAPAuth.sync_auth_flow E auth)
               (S (S fuel)) request w in
  exists da,
    (forallb is_collaborator_call da = true /\ (count is_issuance da <= 1)%nat) /\
    ((history (snd run) = history w ++ [EvGetIdToken PNone] ++ da /\
      exists e, fst run = inl e) \/
     exists tok1,
       let req1 := with_bearer E auth tok1 request in
       (history (snd run) = history w ++ ([EvGetIdToken PNone] ++ da) ++ [EvSend req1] /\
        fst run <> inr None) \/
       exists db,
         (forallb is_collaborator_call db = true /\ (count is_issuance db <= 1)%nat) /\
         ((history (snd run)
           = history w ++ ([EvGetIdToken PNone] ++ da) ++ [EvSend req1] ++
             [EvClearCachedToken] ++ [EvGetIdToken PNone] ++ db /\
           exists e, fst run = inl e) \/
          exists tok2,
            let req2 := with_bearer E auth tok2 req1 in
            history (snd run)
            = history w ++ ([EvGetIdToken PNone] ++ da) ++ [EvSend req1] ++
              [EvClearCachedToken] ++ ([EvGetIdToken PNone] ++ db) ++ [EvSend req2] /\
            fst run <> inr None)).
Proof.
  cbv zeta. rewrite send_handling_auth_unfold.
  destruct (get_id_token_calls_counted E PNone w) as (da & Hda & Halla).
  exists da. split; [exact Halla|].
  destruct (get_id_token E PNone w) as [[e|tok1] w1]; cbn [snd] in Hda.
  { left. cbn [fst snd]. split; [exact Hda|]. eauto. }
  right. exists tok1. cbv zeta.
  set (req1 := with_bearer E auth tok1 request).
  assert (Hwa : history (logged w1 (EvSend req1))
                = history w ++ ([EvGetIdToken PNone] ++ da) ++ [EvSend req1]).
  { simpl. rewrite Hda, <- !app_assoc. reflexivity. }
  destruct (transport E req1 (history w1 ++ [EvSend req1])) as [e|resp1].
  { left. cbn [fst snd]. split; [exact Hwa|discriminate]. }
  destruct (status_code resp1 =? 401)%Z.
  2:{ left. cbn [fst snd]. split; [exact Hwa|discriminate]. }
  right.
  destruct (clear_cached_token_history (logged w1 (EvSend req1))) as [Hwb _].
  set (wb := snd (clear_cached_token (logged w1 (EvSend req1)))) in *.
  destruct (get_id_token_calls_counted E PNone wb) as (db & Hdb & Hallb).
  exists db. split; [exact Hallb|].
  destruct (get_id_token E PNone wb) as [[e|tok2] wc]; cbn [snd] in Hdb.
  { left. cbn [fst snd]. split; [|eauto].
    rewrite Hdb, Hwb, Hwa, <- !app_assoc. reflexivity. }
  right. exists tok2. cbv zeta.
  set (req2 := with_bearer E auth tok2 req1).
  destruct (transport E req2 (history wc ++ [EvSend req2])) as [e|resp2];
    cbn [fst snd]; (split; [|discriminate]);
    simpl; rewrite Hdb, Hwb, Hwa, <- !app_assoc; reflexivity.
Qed.

Lemma no_dispatch_among_collaborator_calls (d : list event) (r : Request) :
  forallb is_collaborator_call d = true -> ~ In (EvSend r) d.
Proof.
  intros Hall Hin. rewrite forallb_forall in Hall.
  specialize (Hall _ Hin). discriminate.
Qed.

Lemma with_bearer_fields (E : Env) (auth : IAPAuth.t) (tok : pyval) (r : Request) :
  let name := IAPAuth.auth_header_name auth in
  req_method (with_bearer E auth tok r) = req_method r /\
  req_url (with_bearer E auth tok r) = req_url r /\
  get_header name (with_bearer E auth tok r) = Some ("Bearer " +:+ py_str E tok) /\
  other_names name (req_headers (with_bearer E auth tok r))
    = other_names name (req_headers r) /\
  forall k, same_name k name = false ->
            get_header k (with_bearer E auth tok r) = get_header k r.
Proof.
  cbv zeta. unfold with_bearer.
  split; [reflexivity|]. split; [reflexivity|].
  split; [apply get_header_set_header|].
  split; [apply other_names_setitem|].
  intros k Hk. apply get_header_set_header_other. exact Hk.
Qed.

Lemma not_dispatched_by_get_id_token (E : Env) (w : World) (sent : Request) (x : exn + pyval)
    (w1 : World) :
  get_id_token E PNone w = (x, w1) ->
  ~ In (EvSend sent) (since w w1) /\ count is_dispatch (since w w1) = 0%nat /\
  exists d, history w1 = history w ++ d /\ ~ In (EvSend sent) d.
Proof.
  intros Hget. destruct (get_id_token_calls E PNone w) as (d & Hd & Hall).
  rewrite Hget in Hd. cbn [snd] in Hd.
  assert (Hno : ~ In (EvSend sent) (EvGetIdToken PNone :: d)).
  { intros [Habs|Hin]; [discriminate|].
    exact (no_dispatch_among_collaborator_calls _ _ Hall Hin). }
  rewrite (since_app _ _ _ Hd). split; [exact Hno|]. split.
  - rewrite count_cons. cbn [is_dispatch].
    destruct (collaborator_calls_not_counted d Hall) as (H0 & _). rewrite H0. reflexivity.
  - exists (EvGetIdToken PNone :: d). split; [exact Hd|exact Hno].
Qed.

(** X10. Whatever the collaborators answer, nothing is dispatched
    unless a token was obtained: when the first acquisition fails the
    exchange ends with its error and no dispatch. Every request that is
    handed to the transport is the caller's request with the header of
    the authenticator's name set to the bearer of a token obtained in
    this exchange (that of the first acquisition for the first
    dispatch, that of the acquisition after the invalidation for the
    retry), and differs from the caller's request in nothing else: same
    method, same URL, and the entries of every other header name as
    they were and in their order, names being compared without regard
    to case. Both flows behave so. *)
Theorem auth_flow_dispatches_only_with_bearer (E : Env) (auth : IAPAuth.t)
    (flow : IAPAuth.generator -> option Response -> M (IAPAuth.resumed * IAPAuth.generator))
    (fuel : nat) (request : Request) (w : World) :
  flow = IAPAuth.sync_auth_flow E auth \/ flow = IAPAuth.async_auth_flow E auth ->
  let run := IAPAuth.send_handling_auth E flow (S (S fuel)) request w in
  let name := IAPAuth.auth_header_name auth in
  (forall e w1, get_id_token E PNone w = (inl e, w1) ->
     run = (inl e, w1) /\ count is_dispatch (since w (snd run)) = 0%nat) /\
  (forall sent, In (EvSend sent) (since w (snd run)) ->
     exists tok1 w1 tok,
       get_id_token E PNone w = (inr tok1, w1) /\
       (tok = tok1 /\ sent = with_bearer E auth tok1 request \/
        exists wc,
          get_id_token E PNone
            (snd (clear_cached_token
                    (logged w1 (EvSend (with_bearer E auth tok1 request)))))
            = (inr tok, wc) /\
          sent = with_bearer E auth tok (with_bearer E auth tok1 request)) /\
       get_header name sent = Some ("Bearer " +:+ py_str E tok) /\
       req_method sent = req_method request /\
       req_url sent = req_url request /\
       other_names name (req_headers sent) = other_names name (req_headers request) /\
       forall k, same_name k name = false -> get_header k sent = get_header k request).
Proof.
  intros Hflow.
  assert (Hsync : flow = IAPAuth.sync_auth_flow E auth)
    by (destruct Hflow as [->| ->]; reflexivity).
  subst flow. clear Hflow. cbv zeta. rewrite send_handling_auth_unfold.
  destruct (get_id_token E PNone w) as [[e|tok1] w1] eqn:H1.
  { split.
    - intros e' w1' Heq. inversion Heq; subst e' w1'. split; [reflexivity|].
      cbn [snd]. exact (proj1 (proj2 (not_dispatched_by_get_id_token E w request _ _ H1))).
    - intros sent Hin. cbn [snd] in Hin.
      destruct (proj1 (not_dispatched_by_get_id_token E w sent _ _ H1) Hin). }
  split; [intros e w1' Heq; discriminate|].
  intros sent Hin. exists tok1, w1.
  destruct (not_dispatched_by_get_id_token E w sent _ _ H1) as (_ & _ & da & Hda & Hnoa).
  cbv zeta in Hin.
  set (req1 := with_bearer E auth tok1 request) in *.
  destruct (with_bearer_fields E auth tok1 request) as (F1 & F2 & F3 & F4 & F5).
  fold req1 in F1, F2, F3, F4, F5.
  match goal with
  | |- ?G => assert (Hfirst : sent = req1 -> G)
  end.
  { intros ->. exists tok1. split; [reflexivity|]. split; [left; auto|]. auto. }
  assert (Hwa : history (logged w1 (EvSend req1)) = history w ++ da ++ [EvSend req1]).
  { cbn [logged history]. rewrite Hda, <- app_assoc. reflexivity. }
  assert (Hina : In (EvSend sent) (da ++ [EvSend req1]) -> sent = req1).
  { intros H. apply in_app_or in H. destruct H as [H|[H|[]]]; [destruct (Hnoa H)|].
    congruence. }
  destruct (transport E req1 (history w1 ++ [EvSend req1])) as [e|resp1].
  { cbn [snd] in Hin. rewrite (since_app _ _ _ Hwa) in Hin. exact (Hfirst (Hina Hin)). }
  destruct (status_code resp1 =? 401)%Z.
  2:{ cbn [snd] in Hin. rewrite (since_app _ _ _ Hwa) in Hin. exact (Hfirst (Hina Hin)). }
  destruct (clear_cached_token_history (logged w1 (EvSend req1))) as [Hwb _].
  set (wb := snd (clear_cached_token (logged w1 (EvSend req1)))) in *.
  destruct (get_id_token E PNone wb) as [[e|tok2] wc] eqn:H2;
    destruct (not_dispatched_by_get_id_token E wb sent _ _ H2) as (_ & _ & db & Hdb & Hnob).
  { cbn [snd] in Hin.
    rewrite (since_app w wc ((da ++ [EvSend req1]) ++ [EvClearCachedToken] ++ db)) in Hin.
    2:{ rewrite Hdb, Hwb, Hwa, <- !app_assoc. reflexivity. }
    apply in_app_or in Hin. destruct Hin as [Hin|Hin]; [exact (Hfirst (Hina Hin))|].
    destruct Hin as [Habs|Hin]; [discriminate|]. destruct (Hnob Hin). }
  set (req2 := with_bearer E auth tok2 req1) in *.
  assert (Hsnd : history (snd (match transport E req2 (history wc ++ [EvSend req2]) with
                               | inl e => (inl e, logged wc (EvSend req2))
                               | inr resp2 => (inr (Some resp2), logged wc (EvSend req2))
                               end))
                 = history w ++ (da ++ [EvSend req1]) ++ ([EvClearCachedToken] ++ db)
                   ++ [EvSend req2]).
  { destruct (transport E req2 _); cbn [snd logged history];
      rewrite Hdb, Hwb, Hwa, <- !app_assoc; reflexivity. }
  rewrite (since_app _ _ _ Hsnd) in Hin.
  apply in_app_or in Hin. destruct Hin as [Hin|Hin]; [exact (Hfirst (Hina Hin))|].
  apply in_app_or in Hin. destruct Hin as [Hin|Hin].
  { destruct Hin as [Habs|Hin]; [discriminate|]. destruct (Hnob Hin). }
  destruct Hin as [Heq|[]]. injection Heq as <-.
  destruct (with_bearer_fields E auth tok2 req1) as (G1 & G2 & G3 & G4 & G5).
  fold req2 in G1, G2, G3, G4, G5.
  exists tok2. split; [reflexivity|]. split; [right; exists wc; auto|].
  split; [exact G3|]. split; [congruence|]. split; [congruence|].
  split; [congruence|]. intros k Hk. rewrite (G5 k Hk). exact (F5 k Hk).
Qed.

(** Against a service that rejects every request, the retried
    request is among those dispatched and carries the second token;
    a header the caller had written in capitals is overwritten, not
    doubled. *)
Lemma auth_flow_dispatches_only_with_bearer_witness :
  let auth := IAPAuth.init env_rejecting None in
  let request := set_header "AUTHORIZATION" "Basic abc" empty_request in
  let sent := with_bearer env_rejecting auth (example_token 1)
                (with_bearer env_rejecting auth (example_token 0) request) in
  In (EvSend sent)
     (since world0
        (snd (IAPAuth.send_handling_auth env_rejecting
                (IAPAuth.sync_auth_flow env_rejecting auth) 2 request world0))) /\
  req_url sent = req_url request /\
  req_headers sent = [("Authorization", "Bearer token-i")].
Proof.
  cbv zeta.
  assert (Hin : In (EvSend (with_bearer env_rejecting (IAPAuth.init env_rejecting None)
                              (example_token 1)
                              (with_bearer env_rejecting (IAPAuth.init env_rejecting None)
                                 (example_token 0)
                                 (set_header "AUTHORIZATION" "Basic abc" empty_request))))
                   (since world0
                      (snd (IAPAuth.send_handling_auth env_rejecting
                              (IAPAuth.sync_auth_flow env_rejecting
                                 (IAPAuth.init env_rejecting None))
                              2 (set_header "AUTHORIZATION" "Basic abc" empty_request)
                              world0)))).
  { vm_compute. repeat (first [left; reflexivity|right]). }
  split; [exact Hin|].
  destruct (auth_flow_dispatches_only_with_bearer env_rejecting
              (IAPAuth.init env_rejecting None) _ 0
              (set_header "AUTHORIZATION" "Basic abc" empty_request) world0
              (or_introl eq_refl)) as (_ & H).
  destruct (H _ Hin) as (tok1 & w1 & tok & _ & _ & _ & _ & Hurl & _).
  split; [exact Hurl|]. vm_compute. reflexivity.
Defined.

(** X11. Whatever the collaborators answer, one exchange dispatches
    the request at most twice, invalidates the cache at most once,
    asks for a token at most twice and costs at most two issuance
    calls; a second dispatch happens only after an invalidation; and
    two dispatches of fuel are always enough for the client's loop to
    end with a response or an error. *)
Theorem auth_flow_bounds (E : Env) (auth : IAPAuth.t)
    (flow : IAPAuth.generator -> option Response -> M (IAPAuth.resumed * IAPAuth.generator))
    (fuel : nat) (request : Request) (w : World) :
  flow = IAPAuth.sync_auth_flow E auth \/ flow = IAPAuth.async_auth_flow E auth ->
  let run := IAPAuth.send_handling_auth E flow (S (S fuel)) request w in
  let d := since w (snd run) in
  (count is_dispatch d <= 2)%nat /\
  (count is_invalidation d <= 1)%nat /\
  (count is_acquisition d <= 2)%nat /\
  (count is_issuance d <= 2)%nat /\
  (count is_dispatch d = 2%nat -> count is_invalidation d = 1%nat) /\
  (count is_dispatch d = 0%nat -> exists e, fst run = inl e) /\
  fst run <> inr None.
Proof.
  intros Hflow.
  assert (Hsync : flow = IAPAuth.sync_auth_flow E auth)
    by (destruct Hflow as [->| ->]; reflexivity).
  subst flow. clear Hflow. cbv zeta.
  destruct (exchange_shape E auth fuel request w) as (da & [Halla Hia] & Hshape).
  cbv zeta in Hshape.
  destruct (collaborator_calls_not_counted da Halla) as (Hda1 & Hda2 & Hda3).
  destruct Hshape as [[Hh Hr]|(tok1 & [[Hh Hr]|(db & [Hallb Hib] & [[Hh Hr]|(tok2 & Hh & Hr)])])];
    try (destruct (collaborator_calls_not_counted db Hallb) as (Hdb1 & Hdb2 & Hdb3));
    rewrite (since_app _ _ _ Hh);
    rewrite ?count_app, ?count_cons, ?count_nil, ?Hda1, ?Hda2, ?Hda3, ?Hdb1, ?Hdb2, ?Hdb3;
    cbn [is_dispatch is_invalidation is_acquisition is_issuance];
    try (destruct Hr as [e Hr]; rewrite Hr);
    repeat split; try lia; try discriminate; try exact Hr; eauto.
Qed.

Lemma auth_flow_bounds_witness :
  let run := IAPAuth.send_handling_auth env_rejecting_one_token
               (IAPAuth.sync_auth_flow env_rejecting_one_token
                  (IAPAuth.init env_rejecting_one_token None))
               2 empty_request world0 in
  (count is_dispatch (since world0 (snd run)) <= 2)%nat /\
  (count is_issuance (since world0 (snd run)) <= 2)%nat /\
  fst run <> inr None.
Proof.
  destruct (auth_flow_bounds env_rejecting_one_token
              (IAPAuth.init env_rejecting_one_token None) _ 0 empty_request world0
              (or_introl eq_refl)) as (H1 & _ & _ & H4 & _ & _ & H7).
  cbv zeta. split; [exact H1|]. split; [exact H4|exact H7].
Defined.

(** X12. What a 401 leaves in the cache. When the first response is
    a 401, the token that was rejected is gone from the cache whatever
    happens next: if the re-acquisition fails the cache is empty (no
    token, expiry 0) when the error reaches the caller; if it succeeds
    the cache holds the token sent with the retried request, with an
    expiry 3600 seconds after the clock read by that refresh, and the
    second response does not touch it. *)
Theorem auth_flow_cache_after_401 (E : Env) (auth : IAPAuth.t)
    (flow : IAPAuth.generator -> option Response -> M (IAPAuth.resumed * IAPAuth.generator))
    (fuel : nat) (request : Request) (w : World)
    (tok1 : pyval) (w1 : World) (resp1 : Response) :
  flow = IAPAuth.sync_auth_flow E auth \/ flow = IAPAuth.async_auth_flow E auth ->
  get_id_token E PNone w = (inr tok1, w1) ->
  let req1 := with_bearer E auth tok1 request in
  transport E req1 (history w1 ++ [EvSend req1]) = inr resp1 ->
  status_code resp1 = 401 ->
  let run := IAPAuth.send_handling_auth E flow (S (S fuel)) request w in
  let wb := snd (clear_cached_token (logged w1 (EvSend req1))) in
  (forall e wc, get_id_token E PNone wb = (inl e, wc) ->
     fst run = inl e /\
     _cached_token (self (snd run)) = PNone /\
     _token_expiry (self (snd run)) = 0) /\
  (forall tok2 wc, get_id_token E PNone wb = (inr tok2, wc) ->
     _cached_token (self (snd run)) = tok2 /\
     _token_expiry (self (snd run)) = time_time E (history wc) + 3600 /\
     In (EvSend (with_bearer E auth tok2 req1)) (since w (snd run))).
Proof.
  intros Hflow H1 req1 Ht Hstatus run wb.
  assert (Hrun : run = IAPAuth.send_handling_auth E (IAPAuth.sync_auth_flow E auth)
                         (S (S fuel)) request w).
  { unfold run. destruct Hflow as [-> | ->]; [reflexivity|].
    rewrite async_auth_flow_is_sync. reflexivity. }
  rewrite send_handling_auth_unfold, H1 in Hrun. cbv zeta in Hrun.
  fold req1 in Hrun. rewrite Ht in Hrun.
  apply Z.eqb_eq in Hstatus. rewrite Hstatus in Hrun. fold wb in Hrun.
  clearbody run.
  pose proof (get_id_token_after_clear E PNone (logged w1 (EvSend req1))) as Hforce.
  cbv zeta in Hforce. fold wb in Hforce.
  split.
  - intros e wc Hget. rewrite Hget in Hrun, Hforce. subst run. cbn [fst snd] in *.
    destruct Hforce as [_ Herr]. destruct (Herr e eq_refl) as [F1 F2]. auto.
  - intros tok2 wc Hget. rewrite Hget in Hrun, Hforce. cbn [fst snd] in Hforce.
    destruct Hforce as [Hok _]. destruct (Hok tok2 eq_refl) as (_ & F1 & F2).
    assert (Hsnd : snd run = logged wc (EvSend (with_bearer E auth tok2 req1))).
    { subst run. destruct (transport E _ (history wc ++ _)); reflexivity. }
    rewrite Hsnd. cbn [logged self].
    split; [exact F1|]. split; [exact F2|].
    destruct (get_id_token_calls E PNone w) as (da & Hda & _). rewrite H1 in Hda.
    destruct (get_id_token_calls E PNone wb) as (db & Hdb & _). rewrite Hget in Hdb.
    destruct (clear_cached_token_history (logged w1 (EvSend req1))) as [Hwb _].
    fold wb in Hwb. cbn [snd] in Hda, Hdb.
    erewrite since_app.
    2:{ simpl. rewrite Hdb, Hwb. simpl. rewrite Hda, <- !app_assoc. reflexivity. }
    apply in_or_app. right. simpl. right. right. right.
    apply in_or_app. right. left. reflexivity.
Qed.

(** In [env_rejecting] the cache ends up holding the second token. *)
Lemma auth_flow_cache_after_401_witness :
  let run := IAPAuth.send_handling_auth env_rejecting
               (IAPAuth.sync_auth_flow env_rejecting (IAPAuth.init env_rejecting None))
               2 empty_request world0 in
  _cached_token (self (snd run)) = example_token 1.
Proof.
  destruct (auth_flow_cache_after_401 env_rejecting (IAPAuth.init env_rejecting None)
              (IAPAuth.sync_auth_flow env_rejecting (IAPAuth.init env_rejecting None))
              0 empty_request world0 (example_token 0)
              (snd (get_id_token env_rejecting PNone world0)) (reply 401))
    as [_ H].
  - left. reflexivity.
  - vm_compute. reflexivity.
  - vm_compute. reflexivity.
  - reflexivity.
  - cbv zeta in *. refine (proj1 (H (example_token 1) _ _)).
    vm_compute. reflexivity.
Defined.

(** ** Cooperative callers and progress *)

Lemma async_invariant_start (w : World) (ms : list method) :
  async_invariant (start w ms).
Proof.
  split.
  - intros i c Hc Hin. unfold in_async_section in Hin.
    rewrite (lookup_start w ms i c Hc) in Hin. discriminate.
  - intros i H. discriminate.
Qed.

Lemma async_invariant_step (E : Env) (s s' : Shared) :
  async_invariant s -> step E s s' -> async_invariant s'.
Proof.
  intros [Hin Hown] Hstep.
  destruct Hstep as
    [k c l s Hc Hk Hpc Hacq | k c s Hc Hk Hpc Hfree | k c l s Hc Hpc Hacq
    | k c r w' s Hc Hpc Hbody | k c r s Hc Hpc]; split; simpl.
  - intros j cj Hj Hsec.
    destruct (lookup_updated_caller _ _ _ _ _ _ Hc Hj) as [[-> ->]|[_ Hj']].
    + unfold in_async_section in Hsec. simpl in Hsec. congruence.
    + exact (Hin j cj Hj' Hsec).
  - intros j Hl. destruct (Hown j Hl) as (cj & Hj & Hsec).
    exists cj. split; [|exact Hsec].
    rewrite list_lookup_insert_ne; [exact Hj|]. intros ->.
    assert (cj = c) by congruence. subst cj.
    unfold in_async_section in Hsec. rewrite Hpc in Hsec. discriminate.
  - intros j cj Hj Hsec.
    destruct (lookup_updated_caller _ _ _ _ _ _ Hc Hj) as [[-> ->]|[_ Hj']].
    + split; [reflexivity|exact Hk].
    + destruct (Hin j cj Hj' Hsec) as [Hl _]. congruence.
  - intros j Hl. inversion Hl; subst j.
    exists (set_pc HasAsyncLock c). split; [|reflexivity].
    apply list_lookup_insert_eq. eapply lookup_lt_Some. exact Hc.
  - assert (Hold : in_async_section c = true)
      by (unfold in_async_section; rewrite Hpc; reflexivity).
    destruct (Hin k c Hc Hold) as [Hl Hasync].
    intros j cj Hj Hsec.
    destruct (lookup_updated_caller _ _ _ _ _ _ Hc Hj) as [[-> ->]|[_ Hj']].
    + split; [exact Hl|exact Hasync].
    + exact (Hin j cj Hj' Hsec).
  - assert (Hold : in_async_section c = true)
      by (unfold in_async_section; rewrite Hpc; reflexivity).
    destruct (Hin k c Hc Hold) as [Hl Hasync].
    intros j Hlj. destruct (Hown j Hlj) as (cj & Hj & Hsec).
    destruct (decide (j = k)) as [->|Hne].
    + exists (set_pc InBody c). split.
      * apply list_lookup_insert_eq. eapply lookup_lt_Some. exact Hc.
      * unfold in_async_section. simpl. exact Hasync.
    + exists cj. split; [|exact Hsec].
      rewrite list_lookup_insert_ne; [exact Hj|congruence].
  - intros j cj Hj Hsec.
    destruct (lookup_updated_caller _ _ _ _ _ _ Hc Hj) as [[-> ->]|[_ Hj']].
    + unfold in_async_section in Hsec. simpl in Hsec.
      destruct (is_async (meth c)) eqn:Hasync; simpl in Hsec; [|discriminate].
      assert (Hold : in_async_section c = true)
        by (unfold in_async_section; rewrite Hpc; exact Hasync).
      destruct (Hin k c Hc Hold) as [Hl _]. split; [exact Hl|exact Hasync].
    + exact (Hin j cj Hj' Hsec).
  - intros j Hlj. destruct (Hown j Hlj) as (cj & Hj & Hsec).
    destruct (decide (j = k)) as [->|Hne].
    + assert (cj = c) by congruence. subst cj.
      unfold in_async_section in Hsec. rewrite Hpc in Hsec.
      eexists. split.
      * apply list_lookup_insert_eq. eapply lookup_lt_Some. exact Hc.
      * unfold in_async_section. simpl. rewrite Hsec. reflexivity.
    + exists cj. split; [|exact Hsec].
      rewrite list_lookup_insert_ne; [exact Hj|congruence].
  - assert (Hold : in_async_section c = true)
      by (unfold in_async_section; rewrite Hpc; reflexivity).
    destruct (Hin k c Hc Hold) as [Hl _].
    intros j cj Hj Hsec.
    destruct (lookup_updated_caller _ _ _ _ _ _ Hc Hj) as [[-> ->]|[Hne Hj']].
    + discriminate.
    + destruct (Hin j cj Hj' Hsec) as [Hl' _]. congruence.
  - intros j Hlj. discriminate.
Qed.

Lemma async_invariant_steps (E : Env) (s s' : Shared) :
  async_invariant s -> steps E s s' -> async_invariant s'.
Proof.
  intros Hinv Hsteps. induction Hsteps as [s|s1 s2 s3 _ IH Hstep]; [exact Hinv|].
  exact (async_invariant_step E s2 s3 (IH Hinv) Hstep).
Qed.

(** X13. However calls are interleaved, at most one cooperative call
    is between taking [_async_lock] and resuming from its [await]; so
    at most one pool worker is ever running, or waiting to run,
    [get_id_token] for a cooperative caller, and the lock is held by
    exactly that call. Only [get_id_token_async] calls are ever in that
    position. *)
Theorem cooperative_calls_take_turns (E : Env) (w : World) (ms : list method)
    (s : Shared) :
  steps E (start w ms) s ->
  (forall i j ci cj,
     callers s !! i = Some ci -> callers s !! j = Some cj ->
     in_async_section ci = true -> in_async_section cj = true -> i = j) /\
  (forall i ci, callers s !! i = Some ci -> in_async_section ci = true ->
                async_lock s = Some i /\ is_async (meth ci) = true) /\
  (forall i ci, callers s !! i = Some ci -> is_async (meth ci) = true ->
                pc ci = Pending -> async_lock s <> None ->
                exec E i s = None).
Proof.
  intros Hsteps.
  pose proof (async_invariant_steps E _ s (async_invariant_start w ms) Hsteps) as [Hin Hown].
  split; [|split].
  - intros i j ci cj Hi Hj Hsi Hsj.
    destruct (Hin i ci Hi Hsi) as [H1 _]. destruct (Hin j cj Hj Hsj) as [H2 _].
    congruence.
  - exact Hin.
  - intros i ci Hi Hasync Hpc Hheld. unfold exec. rewrite Hi, Hpc, Hasync.
    destruct (async_lock s); [reflexivity|congruence].
Qed.

Lemma cooperative_calls_take_turns_witness :
  let s := exec_schedule env0 [1; 0; 2; 1]%nat (start world0 three_calls) in
  map pc (callers s) = [InBody; HasAsyncLock; Pending] /\
  async_lock s = Some 1%nat.
Proof.
  cbv zeta. split; [vm_compute; reflexivity|].
  destruct (cooperative_calls_take_turns env0 world0 three_calls
              (exec_schedule env0 [1; 0; 2; 1]%nat (start world0 three_calls))
              (exec_schedule_steps env0 _ _ _ (steps_refl env0 _))) as (_ & H & _).
  refine (proj1 (H 1%nat {| meth := call_get_id_token_async PNone; pc := HasAsyncLock |} _ _)).
  - vm_compute. reflexivity.
  - reflexivity.
Defined.

Lemma find_caller (p : caller -> bool) (l : list caller) :
  (exists i c, l !! i = Some c /\ p c = true) \/
  (forall i c, l !! i = Some c -> p c = false).
Proof.
  induction l as [|c l IH].
  - right. intros i c H. destruct i; discriminate.
  - destruct (p c) eqn:Hp.
    + left. exists 0%nat, c. auto.
    + destruct IH as [(i & c' & Hi & Hc')|Hnone].
      * left. exists (S i), c'. auto.
      * right. intros [|i] c' H; simpl in H; [congruence|eauto].
Qed.

Lemma work_left_update (l : list caller) (i : nat) (c c' : caller) :
  l !! i = Some c ->
  (list_sum (map stages_left (<[i := c']> l)) + stages_left c
   = list_sum (map stages_left l) + stages_left c')%nat.
Proof.
  revert i. induction l as [|x l IH]; intros i H.
  - destruct i; discriminate.
  - destruct i as [|i]; simpl in *.
    + inversion H; subst. lia.
    + specialize (IH i H). lia.
Qed.

Lemma step_uses_one_stage (E : Env) (s s' : Shared) :
  async_invariant s -> step E s s' -> work_left s = S (work_left s').
Proof.
  intros [Hin _] Hstep. unfold work_left.
  destruct Hstep as
    [k c l s Hc Hk Hpc Hacq | k c s Hc Hk Hpc Hfree | k c l s Hc Hpc Hacq
    | k c r w' s Hc Hpc Hbody | k c r s Hc Hpc]; simpl;
    match goal with
    | |- context [<[k := ?c']> _] =>
        pose proof (work_left_update (callers s) k c c' Hc) as Hsum
    end;
    unfold stages_left in Hsum at 2 4; simpl in Hsum; rewrite Hpc in Hsum.
  - rewrite Hk in Hsum. lia.
  - rewrite Hk in Hsum. lia.
  - assert (Hold : in_async_section c = true)
      by (unfold in_async_section; rewrite Hpc; reflexivity).
    destruct (Hin k c Hc Hold) as [_ Hasync]. rewrite Hasync in Hsum. lia.
  - destruct (is_async (meth c)); simpl in Hsum; lia.
  - lia.
Qed.

(** X14. Calls never get stuck and never spin. In every reachable
    state: if some call has not returned, some call can take a step;
    every step uses up exactly one of the stages the calls have left
    (two for a blocking call, four for a cooperative one), so a run is
    over after that many steps; and once every call has returned both
    locks are free, also when bodies have raised. *)
Theorem calls_always_finish (E : Env) (w : World) (ms : list method) (s : Shared) :
  steps E (start w ms) s ->
  ((exists i c, callers s !! i = Some c /\ stages_left c <> 0%nat) ->
   exists s', step E s s') /\
  (forall s', step E s s' -> work_left s = S (work_left s')) /\
  ((forall i c, callers s !! i = Some c -> stages_left c = 0%nat) ->
   sync_lock s = None /\ async_lock s = None).
Proof.
  intros Hsteps.
  pose proof (lock_invariant_steps E _ s (lock_invariant_start w ms) Hsteps) as Hlock.
  pose proof (async_invariant_steps E _ s (async_invariant_start w ms) Hsteps) as Hasync.
  split; [|split].
  - intros (i0 & c0 & Hi0 & Hleft).
    destruct (find_caller in_body (callers s)) as [(i & c & Hi & Hb)|Hnobody].
    { unfold in_body in Hb. destruct (pc c) eqn:Hpc; try discriminate.
      destruct (body E (meth c) (world s)) as [r w'] eqn:Hbody.
      eexists. exact (step_body E i c r w' s Hi Hpc Hbody). }
    assert (Hfree : sync_lock s = None).
    { destruct (sync_lock s) as [[o n]|] eqn:Hl; [|reflexivity].
      destruct (proj2 Hlock o n Hl) as (c & Hc & Hpc).
      specialize (Hnobody o c Hc). unfold in_body in Hnobody. rewrite Hpc in Hnobody.
      discriminate. }
    destruct (find_caller (fun c => match pc c with BodyDone _ => true | _ => false end)
                (callers s)) as [(i & c & Hi & Hb)|Hnodone].
    { destruct (pc c) as [| | |r|r] eqn:Hpc; try discriminate.
      eexists. exact (step_async_release E i c r s Hi Hpc). }
    destruct (find_caller (fun c => match pc c with HasAsyncLock => true | _ => false end)
                (callers s)) as [(i & c & Hi & Hb)|Hnowait].
    { destruct (pc c) eqn:Hpc; try discriminate.
      eexists. apply (step_worker_enter E i c (Some (i, 1%nat)) s Hi Hpc).
      rewrite Hfree. reflexivity. }
    assert (Hpc0 : pc c0 = Pending).
    { specialize (Hnobody i0 c0 Hi0). specialize (Hnodone i0 c0 Hi0).
      specialize (Hnowait i0 c0 Hi0). unfold in_body in Hnobody.
      unfold stages_left in Hleft.
      destruct (pc c0); try discriminate; try reflexivity. congruence. }
    destruct (is_async (meth c0)) eqn:Hk.
    + assert (Hafree : async_lock s = None).
      { destruct (async_lock s) as [o|] eqn:Hl; [|reflexivity].
        destruct (proj2 Hasync o Hl) as (c & Hc & Hsec).
        specialize (Hnobody o c Hc). specialize (Hnodone o c Hc).
        specialize (Hnowait o c Hc). unfold in_body in Hnobody.
        unfold in_async_section in Hsec.
        destruct (pc c); discriminate. }
      eexists. exact (step_async_acquire E i0 c0 s Hi0 Hk Hpc0 Hafree).
    + eexists. apply (step_enter E i0 c0 (Some (i0, 1%nat)) s Hi0 Hk Hpc0).
      rewrite Hfree. reflexivity.
  - intros s' Hstep. exact (step_uses_one_stage E s s' Hasync Hstep).
  - intros Hdone. split.
    + destruct (sync_lock s) as [[o n]|] eqn:Hl; [|reflexivity].
      destruct (proj2 Hlock o n Hl) as (c & Hc & Hpc).
      specialize (Hdone o c Hc). unfold stages_left in Hdone. rewrite Hpc in Hdone.
      destruct (is_async (meth c)); discriminate.
    + destruct (async_lock s) as [o|] eqn:Hl; [|reflexivity].
      destruct (proj2 Hasync o Hl) as (c & Hc & Hsec).
      specialize (Hdone o c Hc). unfold stages_left in Hdone.
      unfold in_async_section in Hsec.
      destruct (pc c); try discriminate.
      destruct (is_async (meth c)); discriminate.
Qed.

(** The three calls of [three_calls] have eight stages to go; after
    the eleven turns of [three_turns] none is left and the locks are
    free. *)
Lemma calls_always_finish_witness :
  let s := exec_schedule env0 three_turns (start world0 three_calls) in
  work_left (start world0 three_calls) = 8%nat /\
  work_left s = 0%nat /\
  sync_lock s = None /\ async_lock s = None.
Proof.
  cbv zeta. split; [reflexivity|]. split; [vm_compute; reflexivity|].
  destruct (calls_always_finish env0 world0 three_calls
              (exec_schedule env0 three_turns (start world0 three_calls))
              (exec_schedule_steps env0 _ _ _ (steps_refl env0 _))) as (_ & _ & H).
  apply H. intros i c Hc.
  assert (Hall : Forall (fun c => stages_left c = 0%nat)
                   (callers (exec_schedule env0 three_turns (start world0 three_calls)))).
  { vm_compute. repeat constructor. }
  rewrite Forall_forall in Hall. apply Hall.
  apply list_elem_of_lookup. eauto.
Defined.

(** ** One manager per process *)

Lemma construct_initializes (o : option Singleton.object) :
  exists fields, Singleton.construct o = Some (Singleton.Initialized fields) /\
                 (o = None \/ o = Some Singleton.Bare -> fields = IAPTokenManager_init) /\
                 (forall f, o = Some (Singleton.Initialized f) -> fields = f).
Proof.
  destruct o as [[|f]|]; simpl.
  - exists IAPTokenManager_init. split; [reflexivity|]. split; [auto|]. intros f H. discriminate.
  - exists f. split; [reflexivity|]. split.
    + intros [H|H]; discriminate.
    + intros f' H. congruence.
  - exists IAPTokenManager_init. split; [reflexivity|]. split; [auto|]. intros f H. discriminate.
Qed.

(** X15. [IAPTokenManager()] gives the same manager however often it
    is called: the first call creates it with an empty cache, expiry
    0 and no credentials or client id, and every later call returns it
    with all four fields as they are, so constructing again never
    drops a cached token. *)
Theorem manager_is_constructed_once (o : option Singleton.object) (n : nat) :
  Singleton.construct None = Some (Singleton.Initialized IAPTokenManager_init) /\
  (forall fields,
     Singleton.construct_times n (Some (Singleton.Initialized fields))
     = Some (Singleton.Initialized fields)) /\
  Singleton.construct_times (S n) o = Singleton.construct o.
Proof.
  assert (Hkeep : forall k fields,
            Singleton.construct_times k (Some (Singleton.Initialized fields))
            = Some (Singleton.Initialized fields)).
  { induction k as [|k IH]; intros fields; [reflexivity|]. simpl. apply IH. }
  split; [reflexivity|]. split; [apply Hkeep|].
  destruct (construct_initializes o) as (fields & Hc & _).
  simpl. rewrite Hc. apply Hkeep.
Qed.

(** ** More on the cache and the audience *)

(** X16. A token that is falsy (the empty text, say) is stored but
    never served from the cache: the next call goes straight to a
    refresh, without even reading the clock for a cache test. *)
Theorem falsy_token_is_not_reused (E : Env) (audience audience2 : pyval) (w : World)
    (tok : pyval) (w1 : World) :
  get_id_token E audience w = (inr tok, w1) ->
  truthy tok = false ->
  is_None audience2 = false \/ truthy (_client_id (self w1)) = true ->
  _cached_token (self w1) = tok /\
  get_id_token E audience2 w1 =
  refresh E (if is_None audience2 then _client_id (self w1) else audience2)
    (logged w1 (EvGetIdToken audience2)).
Proof.
  intros Hget Hfalsy Ha.
  pose proof (get_id_token_frame E audience w) as Hf. cbv zeta in Hf.
  rewrite Hget in Hf. cbn [fst snd] in Hf. destruct Hf as (_ & _ & Hok).
  specialize (Hok tok eq_refl). split; [exact Hok|].
  assert (Hmiss : cache_hit (time_time E (history w1 ++ [EvGetIdToken audience2; EvTime]))
                    (self w1) = false).
  { apply cache_hit_false. left. rewrite Hok. exact Hfalsy. }
  rewrite (get_id_token_miss E audience2 w1 Ha Hmiss).
  unfold after_cache_test. simpl self. rewrite Hok, Hfalsy. reflexivity.
Qed.

Lemma falsy_token_is_not_reused_witness :
  let E := example_env example_settings (fun _ => 1000) (fun _ => inr "client-1")
             (fun _ => inr (token_reply (PStr ""))) (fun _ => inr (reply 200)) in
  let w1 := snd (get_id_token E (PStr "aud-A") world0) in
  _cached_token (self w1) = PStr "" /\
  count is_issuance (since w1 (snd (get_id_token E (PStr "aud-A") w1))) = 1%nat.
Proof.
  cbv zeta.
  destruct (falsy_token_is_not_reused
              (example_env example_settings (fun _ => 1000) (fun _ => inr "client-1")
                 (fun _ => inr (token_reply (PStr ""))) (fun _ => inr (reply 200)))
              (PStr "aud-A") (PStr "aud-A") world0 (PStr "")
              (snd (get_id_token
                      (example_env example_settings (fun _ => 1000)
                         (fun _ => inr "client-1")
                         (fun _ => inr (token_reply (PStr ""))) (fun _ => inr (reply 200)))
                      (PStr "aud-A") world0)))
    as [Hc _].
  - vm_compute. reflexivity.
  - reflexivity.
  - left. reflexivity.
  - split; [exact Hc|]. vm_compute. reflexivity.
Defined.

(** X17. A call that supplies its audience never goes to the secret
    store and never touches the memoized client id, whether or not one
    is memoized and whatever the secret version setting is. *)
Theorem supplied_audience_skips_resolution (E : Env) (audience : pyval) (w : World) :
  is_None audience = false ->
  let w' := snd (get_id_token E audience w) in
  _client_id (self w') = _client_id (self w) /\
  count is_resolution (since w w') = 0%nat.
Proof.
  intros Ha. cbv zeta.
  destruct (get_id_token_keeps_memo E audience w (or_introl Ha)) as (Hid & d & Hd & Hr).
  split; [exact Hid|]. rewrite (since_app _ _ _ Hd). exact Hr.
Qed.

Lemma supplied_audience_skips_resolution_witness :
  let w' := snd (get_id_token env_no_secret_version (PStr "aud-A") world0) in
  _client_id (self w') = PNone /\
  count is_resolution (since world0 w') = 0%nat.
Proof.
  exact (supplied_audience_skips_resolution env_no_secret_version (PStr "aud-A") world0
           eq_refl).
Defined.

(** X18. The first token of a process. On a new manager a call that
    omits the audience and succeeds has made, in this order: the
    secret-store lookup, [google.auth.default], a credential refresh
    if and only if the credentials were not valid, the issuance call
    for the resolved audience, and one reading of the clock; and it
    leaves all four fields set: the token, the expiry 3600 seconds
    after that clock, the credentials handle and the client id. *)
Theorem first_token_of_a_process (E : Env) (w : World) (tok : pyval) (w' : World) :
  self w = IAPTokenManager_init ->
  get_id_token E PNone w = (inr tok, w') ->
  exists v c payload,
    let h0 := history w ++ [EvGetIdToken PNone; resolution_call E; EvAuthDefault] in
    let h1 := if credentials_valid E c h0 then h0 else h0 ++ [EvCredRefresh c] in
    resolution_answer E (history w ++ [EvGetIdToken PNone]) = inr payload /\
    client_id_of_payload E payload = inr v /\
    google_auth_default E h0 = inr c /\
    history w' = h1 ++ [issuance_call E v c h1; EvTime] /\
    self w' = {| _cached_token := tok;
                 _token_expiry := time_time E (history w') + 3600;
                 _credentials := Some c;
                 _client_id := v |}.
Proof.
  intros Hinit. destruct w as [s h]. simpl in Hinit. subst s.
  rewrite get_id_token_phases. unfold settle_audience.
  cbn [is_None]. rewrite client_id_unfold.
  rewrite _get_client_id_from_secret_unfold.
  unfold logged. cbn [self history _client_id IAPTokenManager_init truthy].
  destruct (setting_falsy (PREFECT_API_IAP_CLIENT_ID_GCP_SECRET_VERSION E));
    [cbv beta iota zeta; intros Habs; discriminate Habs|cbv beta iota zeta].
  cbv zeta.
  destruct (resolution_answer E (h ++ [EvGetIdToken PNone])) as [e|payload] eqn:Hres;
    [cbv beta iota zeta; intros Habs; discriminate Habs|cbv beta iota zeta].
  destruct (client_id_of_payload E payload) as [e|v] eqn:Hv; [cbv beta iota zeta; intros Habs; discriminate Habs|cbv beta iota zeta].
  unfold cached_or_refresh, with_client_id.
  cbn [self history _cached_token _token_expiry _credentials _client_id
       IAPTokenManager_init truthy].
  rewrite refresh_cases.
  destruct (setting_falsy (PREFECT_API_IAP_IMPERSONATE_SERVICE_ACCOUNT E));
    [cbv beta iota zeta; intros Habs; discriminate Habs|cbv beta iota zeta].
  rewrite _get_application_credentials_unfold.
  cbn [self history _credentials]. rewrite <- !app_assoc. cbn [app].
  destruct (google_auth_default E (h ++ [EvGetIdToken PNone; resolution_call E; EvAuthDefault]))
    as [e|c] eqn:Hdef; [cbv beta iota zeta; intros Habs; discriminate Habs|cbv beta iota zeta].
  unfold validate, with_credentials, logged. cbn [self history].
  rewrite <- ?app_assoc. cbn [app].
  destruct (credentials_valid E c (h ++ [EvGetIdToken PNone; resolution_call E; EvAuthDefault]))
    eqn:Hvalid.
  - cbv zeta. cbn [history].
    destruct (issuance_answer E v c _) as [e|resp]; [cbv beta iota zeta; intros Habs; discriminate Habs|cbv beta iota zeta].
    destruct (token_of resp) as [e|t]; [cbv beta iota zeta; intros Habs; discriminate Habs|cbv beta iota zeta].
    intros Hget. inversion Hget; subst tok w'.
    exists v, c, payload. cbv zeta. cbn [history]. rewrite ?Hvalid.
    split; [first [reflexivity | exact Hres]|].
    split; [first [reflexivity | exact Hv]|].
    split; [first [reflexivity | exact Hdef]|].
    unfold with_cache. cbn [self history].
    rewrite <- ?app_assoc. cbn [app]. split; reflexivity.
  - rewrite <- ?app_assoc. cbn [app].
    destruct (credentials_refresh E c _) as [e|u]; [cbv beta iota zeta; intros Habs; discriminate Habs|cbv beta iota zeta].
    cbv zeta. cbn [history].
    destruct (issuance_answer E v c _) as [e|resp]; [cbv beta iota zeta; intros Habs; discriminate Habs|cbv beta iota zeta].
    destruct (token_of resp) as [e|t]; [cbv beta iota zeta; intros Habs; discriminate Habs|cbv beta iota zeta].
    intros Hget. inversion Hget; subst tok w'.
    exists v, c, payload. cbv zeta. cbn [history]. rewrite ?Hvalid.
    split; [first [reflexivity | exact Hres]|].
    split; [first [reflexivity | exact Hv]|].
    split; [first [reflexivity | exact Hdef]|].
    unfold with_cache. cbn [self history].
    rewrite <- ?app_assoc. cbn [app]. split; reflexivity.
Qed.

Lemma first_token_of_a_process_witness :
  self (snd (get_id_token env0 PNone world0))
  = {| _cached_token := example_token 0;
       _token_expiry := 4600;
       _credentials := Some 0%nat;
       _client_id := PStr "client-1" |}.
Proof.
  destruct (first_token_of_a_process env0 world0 (example_token 0)
              (snd (get_id_token env0 PNone world0)) eq_refl)
    as (v & c & payload & _ & _ & _ & _ & Hs).
  - vm_compute. reflexivity.
  - vm_compute. reflexivity.
Defined.
